(** * BusTrack India: route resolution and caching pipeline

    A shallow embedding of the geospatial core of the repository:

    - [RouteWorker]   : workers/routeWorker.ts   (message-based geometry math)
    - [RouteCache]    : services/routeCache.ts   (two-tier route cache)
    - [GeoValidator]  : services/geoValidator.ts (geocoding, anchor, session cache)
    - [EdgeResolver]  : supabase/functions/route-resolver/index.ts

    Conventions.  A JavaScript number that takes part in trigonometry is a
    real number ([R]): [Math.sin], [Math.cos], [Math.atan2], [Math.sqrt] and
    [Math.PI] are their mathematical counterparts and IEEE rounding is
    abstracted away.  A number that is only rounded and printed
    ([Number.prototype.toFixed] in the cache key) is a rational ([Q]),
    which represents every finite double exactly and keeps the key
    computable.  Asynchronous functions are run to completion one after the
    other; the outside world (providers, stores, the clock) is an explicit
    parameter and every request is recorded in a trace. *)

From Stdlib Require Import Reals Lra Lia ZArith QArith Qround Qabs String Ascii List.
From Stdlib Require Import DecimalString DecimalN DecimalPos.
From Stdlib Require Lqa.
From stdpp Require Import gmap strings list.
Import ListNotations.

(** ** Math: the parts of the JavaScript [Math] object the sources use *)

Module JsMath.
Local Open Scope R_scope.

(** [Math.atan2(y, x)] on real arguments; the result lies in (-PI, PI]. *)
Definition atan2 (y x : R) : R :=
  if Rlt_dec 0 x then atan (y / x)
  else if Rlt_dec x 0 then
    (if Rle_dec 0 y then atan (y / x) + PI else atan (y / x) - PI)
  else if Rlt_dec 0 y then PI / 2
  else if Rlt_dec y 0 then - (PI / 2)
  else 0.

(** Truncation toward zero, as used by the remainder operator. *)
Definition trunc (x : R) : Z :=
  if Rle_dec 0 x then Int_part x else (- Int_part (- x))%Z.

(** The [%] operator: the result has the sign of the dividend. *)
Definition rem (a b : R) : R := a - b * IZR (trunc (a / b)).

End JsMath.

(** ** workers/routeWorker.ts *)

Module RouteWorker.
Local Open Scope R_scope.

(** A [[lat, lon]] pair as the worker receives and returns it. *)
Definition LatLon : Type := R * R.

(** An element of the [bearings] array. *)
Record Arrow : Type := mkArrow {
  arrow_lat : R;
  arrow_lon : R;
  arrow_bearing : R
}.

(** An element of [rawPoints]: [{lat, lon, timestamp?}]. *)
Record GpsFix : Type := mkFix {
  lat : R;
  lon : R;
  timestamp : option R
}.

(** [e.data], by its [type] field. *)
Inductive Request : Type :=
| ParseGeometry (coordinates : list (R * R)) (totalDistance : R)
| ComputeArrowBearings (points : list LatLon)
| HaversineChain (coords : list LatLon)
| FilterNoisyGps (rawPoints : list GpsFix) (minDistMeters : option R)
| UnknownType (type : string).

(** The argument of [self.postMessage]. *)
Inductive Response : Type :=
| GeometryParsed (points : list LatLon) (distanceKm : R)
| ArrowBearings (bearings : list Arrow)
| HaversineTotal (totalKm : R)
| FilteredGps (points : list GpsFix).

(** case 'parseGeometry': flip lon,lat to lat,lon. *)
Definition flip (c : R * R) : LatLon := (snd c, fst c).

Definition parseGeometry (coordinates : list (R * R)) (totalDistance : R)
  : list LatLon * R :=
  (map flip coordinates, totalDistance / 1000).

(** The body of the bearing loop for one pair of points. *)
Definition bearing (p1 p2 : LatLon) : R :=
  let lat1 := fst p1 in let lon1 := snd p1 in
  let lat2 := fst p2 in let lon2 := snd p2 in
  let dLon := (lon2 - lon1) * PI / 180 in
  let lat1r := lat1 * PI / 180 in
  let lat2r := lat2 * PI / 180 in
  let x := sin dLon * cos lat2r in
  let y := cos lat1r * sin lat2r - sin lat1r * cos lat2r * cos dLon in
  JsMath.rem (JsMath.atan2 x y * 180 / PI + 360) 360.

(** [for (var i = step; i < points.length - 1; i += step)].  The loop
    variable is an integer; [fuel] bounds the number of iterations. *)
Fixpoint arrows_loop (fuel : nat) (points : list LatLon) (step i : Z)
    (bearings : list Arrow) : list Arrow :=
  match fuel with
  | O => bearings
  | S fuel' =>
      if (i <? Z.of_nat (length points) - 1)%Z then
        let p1 := nth (Z.to_nat (i - 1)) points (0, 0) in
        let p2 := nth (Z.to_nat i) points (0, 0) in
        arrows_loop fuel' points step (i + step)%Z
          (bearings ++ [mkArrow (fst p2) (snd p2) (bearing p1 p2)])
      else bearings
  end.

(** [Math.max(1, Math.floor(points.length / 8))]. *)
Definition stride (points : list LatLon) : Z :=
  Z.max 1 (Z.of_nat (length points) / 8).

(** case 'computeArrowBearings'. *)
Definition computeArrowBearings (points : list LatLon) : list Arrow :=
  arrows_loop (length points) points (stride points) (stride points) [].

(** One term of the haversine chain, in kilometres. *)
Definition segment_km (c1 c2 : LatLon) : R :=
  let a1 := fst c1 in let o1 := snd c1 in
  let a2 := fst c2 in let o2 := snd c2 in
  let dLat2 := (a2 - a1) * PI / 180 in
  let dLon2 := (o2 - o1) * PI / 180 in
  let ha := sin (dLat2 / 2) * sin (dLat2 / 2)
            + cos (a1 * PI / 180) * cos (a2 * PI / 180)
              * sin (dLon2 / 2) * sin (dLon2 / 2) in
  6371 * 2 * JsMath.atan2 (sqrt ha) (sqrt (1 - ha)).

(** case 'haversineChain': [for (j = 0; j < coords.length - 1; j++)]. *)
Fixpoint haversineChain_from (total : R) (coords : list LatLon) : R :=
  match coords with
  | c1 :: ((c2 :: _) as rest) => haversineChain_from (total + segment_km c1 c2) rest
  | _ => total
  end.

Definition haversineChain (coords : list LatLon) : R :=
  haversineChain_from 0 coords.

(** The distance computed inside the filter loop, in metres. *)
Definition gps_dist (prev cur : GpsFix) : R :=
  let dlat := (lat cur - lat prev) * PI / 180 in
  let dlon := (lon cur - lon prev) * PI / 180 in
  let fa := sin (dlat / 2) * sin (dlat / 2)
            + cos (lat prev * PI / 180) * cos (lat cur * PI / 180)
              * sin (dlon / 2) * sin (dlon / 2) in
  6371000 * 2 * JsMath.atan2 (sqrt fa) (sqrt (1 - fa)).

(** One iteration of [for (var k = 1; k < rawPoints.length; k++)]:
    [prev] is the last element of [filtered].  The source would raise on an
    empty [filtered]; the loop never runs in that state. *)
Definition filter_step (minDist : R) (filtered : list GpsFix) (cur : GpsFix)
  : list GpsFix :=
  match last filtered with
  | Some prev =>
      if Rge_dec (gps_dist prev cur) minDist then filtered ++ [cur] else filtered
  | None => filtered
  end.

(** case 'filterNoisyGps'. *)
Definition filterNoisyGps (rawPoints : list GpsFix) (minDistMeters : option R)
  : list GpsFix :=
  let minDist := match minDistMeters with Some m => m | None => 20 end in
  match rawPoints with
  | [] => []
  | first :: rest => fold_left (filter_step minDist) rest [first]
  end.

(** [self.onmessage]: an unrecognised type only logs a warning. *)
Definition onmessage (e : Request) : option Response :=
  match e with
  | ParseGeometry g d =>
      let '(pts, km) := parseGeometry g d in Some (GeometryParsed pts km)
  | ComputeArrowBearings pts => Some (ArrowBearings (computeArrowBearings pts))
  | HaversineChain cs => Some (HaversineTotal (haversineChain cs))
  | FilterNoisyGps raw md => Some (FilteredGps (filterNoisyGps raw md))
  | UnknownType _ => None
  end.

(** The filter as the specification words it: the first fix is kept, and a
    later fix is kept exactly when it is at least [minDist] metres from the
    last fix kept so far. *)
Fixpoint greedy_keep (minDist : R) (kept : GpsFix) (rest : list GpsFix)
  : list GpsFix :=
  match rest with
  | [] => []
  | cur :: rest' =>
      if Rge_dec (gps_dist kept cur) minDist
      then cur :: greedy_keep minDist cur rest'
      else greedy_keep minDist kept rest'
  end.

Definition filterNoisyGps_spec (rawPoints : list GpsFix) (minDist : R)
  : list GpsFix :=
  match rawPoints with
  | [] => []
  | first :: rest => first :: greedy_keep minDist first rest
  end.

(** A fix without a timestamp, and a straight path of [n] points heading
    north from the origin in steps of one hundredth of a degree. *)
Definition fix_at (la lo : R) : GpsFix := mkFix la lo None.

Definition north_path (n : nat) : list LatLon :=
  map (fun k => (INR k / 100, 0)) (seq 0 n).

(** *** Vocabulary of the statements *)

(** The arrow the bearing loop pushes at index [i]. *)
Definition arrow_at (points : list LatLon) (i : Z) : Arrow :=
  let p1 := nth (Z.to_nat (i - 1)) points (0, 0) in
  let p2 := nth (Z.to_nat i) points (0, 0) in
  mkArrow (fst p2) (snd p2) (bearing p1 p2).

(** The indices the loop visits: the multiples of the stride below
    [points.length - 1]. *)
Definition sample_indices (points : list LatLon) : list Z :=
  map (fun k => (stride points * Z.of_nat (S k))%Z)
      (seq 0 (Z.to_nat ((Z.of_nat (length points) - 2) / stride points))).

(** A relation that holds between every element and its successor. *)
Fixpoint adjacent_all {A : Type} (P : A -> A -> Prop) (l : list A) : Prop :=
  match l with
  | a :: ((b :: _) as rest) => P a b /\ adjacent_all P rest
  | _ => True
  end.


(** [q] lies due north of [p], less than half a turn away. *)
Definition northward (p q : LatLon) : Prop :=
  snd q = snd p /\ 0 < fst q - fst p < 180.

(** [q] lies on the equator, east of [p] and less than half a turn away. *)
Definition eastward_on_equator (p q : LatLon) : Prop :=
  fst p = 0 /\ fst q = 0 /\ 0 <= snd q - snd p < 180.

End RouteWorker.

(** ** map/animationWorker.ts *)

Module MarkerAnimation.
Local Open Scope R_scope.

(** Numbers are real numbers, so the division by a duration of zero, which
    the language answers with an infinity or NaN, is not represented:
    statements about the progress of an animation assume a duration other
    than zero.

    What the closure [step] of one call of [animateMarkerTo] captures: the
    marker, its position at the call ([from]), the target, [start],
    [durationMs] and the track [id]. *)
Record Job : Type := mkJob {
  job_marker : nat;
  job_from : R * R;
  job_to : R * R;
  job_start : R;
  job_duration : R;
  job_id : string
}.

(** The module-level map [_animations], the browser's list of animation
    frame callbacks with their handles (in the order of the requests), the
    next handle the browser hands out, and the position of every marker. *)
Record Stage : Type := mkStage {
  animations : gmap string nat;
  callbacks : list (nat * Job);
  next_handle : nat;
  markers : nat -> R * R
}.

Definition empty_stage (positions : nat -> R * R) : Stage :=
  mkStage ∅ [] 0 positions.

(** [marker.setLatLng]. *)
Definition move (m : nat) (p : R * R) (positions : nat -> R * R) : nat -> R * R :=
  fun m' => if Nat.eqb m' m then p else positions m'.

Definition requestAnimationFrame (job : Job) (st : Stage) : nat * Stage :=
  (next_handle st,
   mkStage (animations st) (callbacks st ++ [(next_handle st, job)])
           (S (next_handle st)) (markers st)).

Definition cancelAnimationFrame (handle : nat) (st : Stage) : Stage :=
  mkStage (animations st)
          (List.filter (fun c => negb (Nat.eqb (fst c) handle)) (callbacks st))
          (next_handle st) (markers st).

(** [cancelAnimation(id)]. *)
Definition cancelAnimation (id : string) (st : Stage) : Stage :=
  match animations st !! id with
  | Some rafId =>
      let st1 := cancelAnimationFrame rafId st in
      mkStage (delete id (animations st1)) (callbacks st1) (next_handle st1) (markers st1)
  | None => st
  end.

(** [t = Math.min((now - start) / durationMs, 1)]. *)
Definition progress (job : Job) (now : R) : R :=
  Rmin ((now - job_start job) / job_duration job) 1.

(** [ease = t < 0.5 ? 2 * t * t : -1 + (4 - 2 * t) * t]. *)
Definition ease (t : R) : R :=
  if Rlt_dec t (1 / 2) then 2 * t * t else -1 + (4 - 2 * t) * t.

(** The argument of [setLatLng] for an eased fraction [e]. *)
Definition place (job : Job) (e : R) : R * R :=
  (fst (job_from job) + (fst (job_to job) - fst (job_from job)) * e,
   snd (job_from job) + (snd (job_to job) - snd (job_from job)) * e).

(** The callback [step(now)]. *)
Definition step (job : Job) (now : R) (st : Stage) : Stage :=
  let t := progress job now in
  let st1 := mkStage (animations st) (callbacks st) (next_handle st)
                     (move (job_marker job) (place job (ease t)) (markers st)) in
  if Rlt_dec t 1 then
    let '(handle, st2) := requestAnimationFrame job st1 in
    mkStage (<[job_id job := handle]> (animations st2)) (callbacks st2)
            (next_handle st2) (markers st2)
  else st1.

(** [animateMarkerTo(marker, toLat, toLon, durationMs, id)], called when
    [performance.now()] is [start]. *)
Definition animate (marker : nat) (toLat toLon durationMs : R) (id : string)
    (start : R) (st : Stage) : Stage :=
  let st1 := cancelAnimation id st in
  let job := mkJob marker (markers st1 marker) (toLat, toLon) start durationMs id in
  let '(handle, st2) := requestAnimationFrame job st1 in
  mkStage (<[id := handle]> (animations st2)) (callbacks st2)
          (next_handle st2) (markers st2).

(** The defaults of the signature: [durationMs = 2800], [id = 'bus']. *)
Definition animateMarkerTo (marker : nat) (toLat toLon : R) (durationMs : option R)
    (id : option string) (start : R) (st : Stage) : Stage :=
  animate marker toLat toLon (default 2800 durationMs) (default "bus"%string id) start st.

(** One display frame at time [now]: the browser takes the list of
    callbacks, empties it and calls them in order. *)
Definition frame (now : R) (st : Stage) : Stage :=
  fold_left (fun s c => step (snd c) now s) (callbacks st)
            (mkStage (animations st) [] (next_handle st) (markers st)).

(** What can happen to the stage. *)
Inductive Op : Type :=
| Animate (marker : nat) (toLat toLon : R) (durationMs : option R) (id : option string)
          (start : R)
| Cancel (id : option string)
| Frame (now : R).

Definition run_op (st : Stage) (o : Op) : Stage :=
  match o with
  | Animate m la lo d id start => animateMarkerTo m la lo d id start st
  | Cancel id => cancelAnimation (default "bus"%string id) st
  | Frame now => frame now st
  end.

Definition run (ops : list Op) (st : Stage) : Stage := fold_left run_op ops st.

(** The jobs waiting for the next frame, and those of one track. *)
Definition pending (st : Stage) : list Job := map snd (callbacks st).

Definition on_track (id : string) (j : Job) : bool := String.eqb (job_id j) id.

Definition on_marker (m : nat) (j : Job) : bool := Nat.eqb (job_marker j) m.

(** The job that moves marker [m] last in a frame, if any. *)
Definition last_on (m : nat) (jobs : list Job) : option Job :=
  last (List.filter (on_marker m) jobs).

(** The bookkeeping is consistent: a waiting callback is the one its track
    records, handles are fresh and never shared. *)
Record consistent (st : Stage) : Prop := mkConsistent {
  recorded : forall h j, In (h, j) (callbacks st) -> animations st !! job_id j = Some h;
  below_next : forall id h, animations st !! id = Some h -> (h < next_handle st)%nat;
  unshared : forall id1 id2 h,
      animations st !! id1 = Some h -> animations st !! id2 = Some h -> id1 = id2;
  distinct_handles : NoDup (map fst (callbacks st))
}.

(** One callback of a frame, and the jobs a frame at [now] leaves waiting. *)
Definition frame_step (now : R) (s : Stage) (c : nat * Job) : Stage := step (snd c) now s.

Definition unfinished (now : R) (j : Job) : bool :=
  if Rlt_dec (progress j now) 1 then true else false.

End MarkerAnimation.

(** ** services/routeCache.ts *)

Module RouteCache.
Local Open Scope Q_scope.

(** An element of the [stops] argument. *)
Record Stop : Type := mkStop {
  lat : Q;
  lon : Q
}.

(** [interface CachedRoute]; [cachedAt] is [Date.now()], in milliseconds. *)
Record CachedRoute : Type := mkCachedRoute {
  points : list (Q * Q);
  distanceKm : Q;
  cachedAt : Z
}.

(** [Omit<CachedRoute, 'cachedAt'>], the [data] argument of [set]. *)
Record RouteData : Type := mkRouteData {
  data_points : list (Q * Q);
  data_distanceKm : Q
}.

(** *** Number.prototype.toFixed(5)

    The steps of the language definition: the sign is split off, the integer
    [n] nearest to [x * 10^5] is chosen (the larger one on a tie), its
    decimal digits are padded with zeros to at least six characters and a
    point is inserted before the last five.  From [10^21] on the language
    prints the number with its general conversion instead, which is the
    parameter [number_to_string] below. *)

Definition cell_index (x : Q) : N := Z.to_N (Qfloor (x * 100000 + (1 # 2))).

Definition digits (n : N) : list ascii :=
  list_ascii_of_string (NilEmpty.string_of_uint (N.to_uint n)).

Definition pad6 (m : list ascii) : list ascii :=
  if (length m <=? 5)%nat then replicate (6 - length m)%nat "0"%char ++ m else m.

Definition insert_point (m : list ascii) : list ascii :=
  take (length m - 5) m ++ "."%char :: drop (length m - 5) m.

Definition is_negative (x : Q) : bool :=
  match Qlt_le_dec x 0 with left _ => true | right _ => false end.

Definition magnitude (x : Q) : Q := if is_negative x then - x else x.

Definition too_large (x : Q) : bool := Qle_bool (1000000000000000000000 # 1) x.

Section Runtime.

(** The general number-to-string conversion of the language. *)
Variable number_to_string : Q -> string.

Definition toFixed5 (x : Q) : list ascii :=
  let s := if is_negative x then ["-"%char] else [] in
  let x := magnitude x in
  if too_large x then s ++ list_ascii_of_string (number_to_string x)
  else s ++ insert_point (pad6 (digits (cell_index x))).

(** [`${s.lon.toFixed(5)},${s.lat.toFixed(5)}`]. *)
Definition stop_text (s : Stop) : list ascii :=
  toFixed5 (lon s) ++ ","%char :: toFixed5 (lat s).

(** [Array.prototype.join]. *)
Fixpoint join (sep : ascii) (parts : list (list ascii)) : list ascii :=
  match parts with
  | [] => []
  | [p] => p
  | p :: rest => p ++ sep :: join sep rest
  end.

Definition makeKey (stops : list Stop) (profile : string) : string :=
  string_of_list_ascii
    (list_ascii_of_string profile ++ ":"%char :: join ";"%char (map stop_text stops)).

(** *** The two tiers

    [_mem] is the module-level map.  A text kept in [sessionStorage] is
    represented by what [JSON.parse] makes of it: a route, or nothing when
    the text is empty or does not parse.  [session_full] says that
    [setItem] raises (quota exceeded). *)

Inductive StoredText : Type :=
| Corrupt
| Json (v : CachedRoute).

Record Store : Type := mkStore {
  mem : gmap string CachedRoute;
  session : gmap string StoredText;
  session_full : bool;
  requests : list (string * list (Q * Q))
}.

Definition PREFIX : string := "btrc_".

Definition empty_store : Store := mkStore ∅ ∅ false [].

Definition get (stops : list Stop) (profile : string) (st : Store)
  : option CachedRoute * Store :=
  let key := makeKey stops profile in
  match mem st !! key with
  | Some v => (Some v, st)
  | None =>
      match session st !! (PREFIX +:+ key) with
      | Some (Json v) =>
          (Some v, mkStore (<[key := v]> (mem st)) (session st)
                           (session_full st) (requests st))
      | Some Corrupt | None => (None, st)
      end
  end.

(** [now] is the value of [Date.now()] at the call. *)
Definition set (stops : list Stop) (data : RouteData) (profile : string)
    (now : Z) (st : Store) : Store :=
  let key := makeKey stops profile in
  let entry := mkCachedRoute (data_points data) (data_distanceKm data) now in
  let mem' := <[key := entry]> (mem st) in
  if session_full st
  then mkStore mem' (session st) (session_full st) (requests st)
  else mkStore mem' (<[PREFIX +:+ key := Json entry]> (session st))
               (session_full st) (requests st).

(** *** prewarm

    What the routing provider does with a request: [fetch] rejects,
    [resp.json()] rejects, or a body arrives.  A body is abstracted to its
    [routes] array (empty when [data], [routes] or its length is missing);
    a route carries its [geometry.coordinates], if it has them, and its
    [distance]. *)

Record OsrmRoute : Type := mkOsrmRoute {
  coordinates : option (list (Q * Q));
  distance : Q
}.

Inductive OsrmReply : Type :=
| FetchRejects
| JsonRejects
| Routes (routes : list OsrmRoute).

Inductive Exn : Type :=
| NetworkError
| SyntaxError
| TypeError.

(** How the promise of an [async] function settles. *)
Inductive Settled : Type :=
| Fulfilled
| Rejected (e : Exn).

(** The provider answers a request (profile and the lon,lat sequence of the
    URL) knowing the requests made before. *)
Variable osrm : list (string * list (Q * Q)) -> string * list (Q * Q) -> OsrmReply.

Definition flip (c : Q * Q) : Q * Q := (snd c, fst c).

Definition prewarm (stops : list Stop) (profile : string) (now : Z) (st : Store)
  : Settled * Store :=
  match get stops profile st with
  | (Some _, st1) => (Fulfilled, st1)
  | (None, st1) =>
      let req := (profile, map (fun s => (lon s, lat s)) stops) in
      let reply := osrm (requests st1) req in
      let st2 := mkStore (mem st1) (session st1) (session_full st1)
                         (requests st1 ++ [req]) in
      match reply with
      | FetchRejects => (Rejected NetworkError, st2)
      | JsonRejects => (Rejected SyntaxError, st2)
      | Routes [] => (Fulfilled, st2)
      | Routes (r :: _) =>
          match coordinates r with
          | None => (Rejected TypeError, st2)
          | Some cs =>
              (Fulfilled,
               set stops (mkRouteData (map flip cs) (distance r / 1000)) profile now st2)
          end
      end
  end.

(** main.ts, [warmRouteCache]: the only caller of [prewarm].  Stops without
    truthy coordinates are dropped, and the promise gets a [catch] handler
    that discards the failure. *)
Record RouteStop : Type := mkRouteStop {
  rs_name : string;
  rs_lat : option Q;
  rs_lon : option Q
}.

Definition truthy (x : option Q) : option Q :=
  match x with
  | Some v => if Qeq_bool v 0 then None else Some v
  | None => None
  end.

Definition resolved_stops (stops : list RouteStop) : list Stop :=
  omap (fun s => match truthy (rs_lat s), truthy (rs_lon s) with
                 | Some la, Some lo => Some (mkStop la lo)
                 | _, _ => None
                 end) stops.

Definition warmRouteCache (stops : list RouteStop) (now : Z) (st : Store)
  : Settled * Store :=
  let resolved := resolved_stops stops in
  if (2 <=? length resolved)%nat then
    match prewarm resolved "driving" now st with
    | (_, st') => (Fulfilled, st')
    end
  else (Fulfilled, st).

End Runtime.

(** *** Vocabulary of the statements *)

(** The sign and the index of the rounding cell of a coordinate. *)
Definition cell (x : Q) : bool * N := (is_negative x, cell_index (magnitude x)).

Definition same_cell (a b : Stop) : Prop :=
  cell (lon a) = cell (lon b) /\ cell (lat a) = cell (lat b).

Definition in_range (s : Stop) : Prop :=
  too_large (magnitude (lon s)) = false /\ too_large (magnitude (lat s)) = false.

(** Decimal digits, and the number a digit string denotes. *)
Definition is_digit (c : ascii) : bool :=
  let n := nat_of_ascii c in (48 <=? n)%nat && (n <=? 57)%nat.

Definition value_of (cs : list ascii) : option N :=
  N.of_uint <$> NilEmpty.uint_of_string (string_of_list_ascii cs).

(** The characters [toFixed] can produce below [10^21]. *)
Definition is_fixed_char (c : ascii) : bool :=
  is_digit c || Ascii.eqb c "-"%char || Ascii.eqb c "."%char.

(** The rendering of a magnitude below [10^21]. *)
Definition fixed_text (x : Q) : list ascii :=
  insert_point (pad6 (digits (cell_index (magnitude x)))).

(** Changing every [cachedAt] of a store by [f]. *)
Definition restamp_route (f : Z -> Z) (v : CachedRoute) : CachedRoute :=
  mkCachedRoute (points v) (distanceKm v) (f (cachedAt v)).

Definition restamp_text (f : Z -> Z) (t : StoredText) : StoredText :=
  match t with
  | Corrupt => Corrupt
  | Json v => Json (restamp_route f v)
  end.

Definition restamp (f : Z -> Z) (st : Store) : Store :=
  mkStore (restamp_route f <$> mem st) (restamp_text f <$> session st)
          (session_full st) (requests st).

(** A conversion for the examples; it is only consulted from [10^21] on. *)
Definition sample_number_to_string (x : Q) : string := "1e+21".

(** Two stop lists whose coordinates differ by less than the rounding
    precision, position by position. *)
Definition jitter_close (s t : list Stop) : Prop :=
  Forall2 (fun a b => Qabs (lat a - lat b) < (1 # 100000) /\
                      Qabs (lon a - lon b) < (1 # 100000)) s t.

(** Two stops and a route for the examples. *)
Definition stopA : Stop := mkStop (130827 # 10000) (802707 # 10000).

Definition stopB : Stop := mkStop (110168 # 10000) (769558 # 10000).

Definition sample_route : RouteData := mkRouteData [(1 # 2, 3 # 4)] (5 # 1).

(** A timed operation on the cache, for runs of several operations. *)
Inductive Op : Type :=
| OpGet (stops : list Stop) (profile : string)
| OpSet (stops : list Stop) (data : RouteData) (profile : string) (now : Z).

Definition op_key (nts : Q -> string) (o : Op) : string :=
  match o with
  | OpGet s p => makeKey nts s p
  | OpSet s _ p _ => makeKey nts s p
  end.

Definition is_set (o : Op) : bool :=
  match o with OpSet _ _ _ _ => true | OpGet _ _ => false end.

Definition run_op (nts : Q -> string) (st : Store) (o : Op) : Store :=
  match o with
  | OpGet s p => snd (get nts s p st)
  | OpSet s d p now => set nts s d p now st
  end.

Definition run (nts : Q -> string) (ops : list Op) (st : Store) : Store :=
  fold_left (run_op nts) ops st.

(** An operation that does not write under the key [k]. *)
Definition spares (nts : Q -> string) (k : string) (o : Op) : Prop :=
  is_set o = true -> op_key nts o <> k.

(** Operations on other keys, at other times. *)
Definition other_ops : list Op :=
  [ OpGet [stopA; stopB] "driving";
    OpSet [stopB; stopA] (mkRouteData [] (7 # 1)) "driving" 99999999999999;
    OpGet [stopA; stopB] "walking" ].

(** A store after a page reload: tier 1 is empty, tier 2 holds a route
    written long ago. *)
Definition old_route : CachedRoute := mkCachedRoute [] (9 # 1) 0.

Definition reloaded_store : Store :=
  mkStore ∅ {[ PREFIX +:+ makeKey sample_number_to_string [stopA; stopB] "driving"
               := Json old_route ]} false [].

(** A page reload: the module-level map starts empty, [sessionStorage]
    is kept. *)
Definition reload (st : Store) : Store :=
  mkStore ∅ (session st) (session_full st) (requests st).

(** What tier 2 holds under a key, as [get] reads it. *)
Definition session_route (st : Store) (key : string) : option CachedRoute :=
  match session st !! (PREFIX +:+ key) with
  | Some (Json v) => Some v
  | Some Corrupt | None => None
  end.


End RouteCache.

(** ** Strings: the string methods the sources use

    A string is a sequence of code units below 256. *)

Module JsString.

Definition code (c : ascii) : nat := nat_of_ascii c.

(** White space and line terminators, as [trim] understands them. *)
Definition is_space (c : ascii) : bool :=
  let n := code c in
  ((9 <=? n) && (n <=? 13)) || (n =? 32) || (n =? 160).

Fixpoint drop_while (f : ascii -> bool) (s : list ascii) : list ascii :=
  match s with
  | [] => []
  | c :: s' => if f c then drop_while f s' else s
  end.

Fixpoint take_while (f : ascii -> bool) (s : list ascii) : list ascii :=
  match s with
  | [] => []
  | c :: s' => if f c then c :: take_while f s' else []
  end.

Definition trim_start (s : list ascii) : list ascii := drop_while is_space s.

Definition trim_chars (s : list ascii) : list ascii :=
  reverse (trim_start (reverse (trim_start s))).

(** [String.prototype.trim]. *)
Definition trim (s : string) : string :=
  string_of_list_ascii (trim_chars (list_ascii_of_string s)).

Definition lower_char (c : ascii) : ascii :=
  let n := code c in
  if ((65 <=? n) && (n <=? 90)) || ((192 <=? n) && (n <=? 222) && negb (n =? 215))
  then ascii_of_nat (n + 32) else c.

(** [String.prototype.toLowerCase]. *)
Definition toLowerCase (s : string) : string :=
  string_of_list_ascii (map lower_char (list_ascii_of_string s)).

(** [s.split(',')[0]]. *)
Definition before_comma (s : string) : string :=
  string_of_list_ascii
    (take_while (fun c => negb (Ascii.eqb c ","%char)) (list_ascii_of_string s)).

(** [\w] and the boundary [\b] that follows a word character. *)
Definition is_word (c : ascii) : bool :=
  let n := code c in
  ((97 <=? n) && (n <=? 122)) || ((65 <=? n) && (n <=? 90))
  || ((48 <=? n) && (n <=? 57)) || (n =? 95).

Definition ends_word (rest : list ascii) : bool :=
  match rest with
  | [] => true
  | c :: _ => negb (is_word c)
  end.

(** Letters compared without case, as the flag [i] does for ASCII. *)
Definition fold_case (c : ascii) : ascii :=
  let n := code c in
  if (65 <=? n) && (n <=? 90) then ascii_of_nat (n + 32) else c.

(** The text [p] at the head of [s], case ignored; the rest of [s]. *)
Fixpoint prefix_ci (p s : list ascii) : option (list ascii) :=
  match p with
  | [] => Some s
  | c :: p' =>
      match s with
      | d :: s' => if Ascii.eqb (fold_case c) (fold_case d) then prefix_ci p' s' else None
      | [] => None
      end
  end.

(** [replace(/\s+/g, ' ')]: every run of white space becomes one space. *)
Fixpoint collapse_spaces (in_run : bool) (s : list ascii) : list ascii :=
  match s with
  | [] => []
  | c :: s' =>
      if is_space c
      then (if in_run then collapse_spaces true s' else " "%char :: collapse_spaces true s')
      else c :: collapse_spaces false s'
  end.

(** [s.replace(re, by)] for a pattern that starts with [\b] and a letter:
    [m] matches the pattern at the head of its argument and returns what
    follows the match; the leftmost match is replaced. *)
Fixpoint replace_first (m : list ascii -> option (list ascii)) (by_text : list ascii)
    (after_word : bool) (s : list ascii) : list ascii :=
  match s with
  | [] => []
  | c :: s' =>
      match (if negb after_word && is_word c then m s else None) with
      | Some rest => by_text ++ rest
      | None => c :: replace_first m by_text (is_word c) s'
      end
  end.

(** [a || b] on an optional string: missing and empty are both falsy. *)
(** The left operand of [a || b] when it is truthy: a string that is there
    and not empty. *)
Definition nonempty (a : option string) : option string :=
  match a with
  | Some s => if String.eqb s "" then None else Some s
  | None => None
  end.

End JsString.

(** ** The geocoding provider, as both resolvers see it *)

Module Nominatim.
Local Open Scope R_scope.

(** A candidate of the JSON array: an object.  [lat] and [lon] arrive as
    decimal numerals and are given here as the numbers they denote; the
    names of [namedetails] and the [display_name] may be missing. *)
Record Candidate : Type := mkCandidate {
  cand_lat : R;
  cand_lon : R;
  cand_name : option string;
  cand_name_en : option string;
  display_name : option string
}.

(** What a search request comes to: [fetch] rejects, the body is not JSON,
    the body is the JSON value [null], or the body is an array of
    candidates.  A number, a boolean and an object without [length] are read
    like the empty array ([results.length] is undefined); strings and arrays
    with elements that are no objects are not represented. *)
Inductive Reply : Type :=
| FetchRejects
| JsonRejects
| NullBody
| Candidates (results : list Candidate).

(** [nd['name'] || nd['name:en'] || best.display_name.split(',')[0].trim()].
    When both names are missing or empty and there is no [display_name],
    the source raises a TypeError ([undefined.split]): no name. *)
Definition corrected_name (best : Candidate) : option string :=
  match JsString.nonempty (cand_name best) with
  | Some s => Some s
  | None =>
      match JsString.nonempty (cand_name_en best) with
      | Some s => Some s
      | None =>
          (fun d => JsString.trim (JsString.before_comma d)) <$> display_name best
      end
  end.

(** [haversine], in kilometres; the body is the same in both files. *)
Definition haversine (lat1 lon1 lat2 lon2 : R) : R :=
  let dLat := (lat2 - lat1) * PI / 180 in
  let dLon := (lon2 - lon1) * PI / 180 in
  let a := sin (dLat / 2) ^ 2
           + cos (lat1 * PI / 180) * cos (lat2 * PI / 180) * sin (dLon / 2) ^ 2 in
  6371 * 2 * JsMath.atan2 (sqrt a) (sqrt (1 - a)).

(** The callback of [results.reduce]: keep [a] unless [b] is strictly
    nearer to the anchor.  The distances are compared as real numbers; the
    source compares their double-precision values, which can order two
    candidates the other way when their distances are equal or agree up to
    rounding. *)
Definition nearer (anchorLat anchorLon : R) (a b : Candidate) : Candidate :=
  if Rle_dec (haversine anchorLat anchorLon (cand_lat a) (cand_lon a))
             (haversine anchorLat anchorLon (cand_lat b) (cand_lon b))
  then a else b.

(** [let best = results[0]; if (anchor && results.length > 1) best = results.reduce(...)]
    for a non-empty [results] given as head and tail. *)
Definition pick_best (anchor : option (R * R)) (first : Candidate)
    (others : list Candidate) : Candidate :=
  match anchor, others with
  | Some (alat, alon), _ :: _ => fold_left (nearer alat alon) others first
  | _, _ => first
  end.

End Nominatim.

(** ** services/geoValidator.ts *)

Module GeoValidator.
Local Open Scope R_scope.
Import Nominatim.

Record GeocodeResult : Type := mkResult {
  lat : R;
  lon : R;
  corrected : string
}.

(** What the module does to the outside, in order. *)
Inductive Event : Type :=
| Sleep (ms : Z)
| Fetch (q : string).

(** The module-level [_cache] and the trace of the session so far. *)
Record Session : Type := mkSession {
  cache : gmap string (option GeocodeResult);
  trace : list Event
}.

Definition empty_session : Session := mkSession ∅ [].

Definition is_fetch (e : Event) : bool :=
  match e with Fetch _ => true | Sleep _ => false end.

(** How a call of the module ends: it returns, or it raises a TypeError.
    Nothing else leaves it: a failed request is caught. *)
Inductive Outcome (A : Type) : Type :=
| Returns (a : A)
| Raises.

Arguments Returns {A} a.
Arguments Raises {A}.

(** The provider requests of a trace. *)
Definition fetches (t : list Event) : list Event := List.filter is_fetch t.

Section Provider.

(** The provider answers a query knowing everything that happened before. *)
Variable nominatim : list Event -> string -> Reply.

(** [fetch(url, ...).then(r => r.json()).catch(() => [])]: the value of
    [results], nothing standing for [null]. *)
Definition fetch_results (t : list Event) (q : string) : option (list Candidate) :=
  match nominatim t q with
  | Candidates rs => Some rs
  | FetchRejects | JsonRejects => Some []
  | NullBody => None
  end.

(** [for (const q of queries)]: the first query with a candidate decides.
    On [null] the test [!results.length] raises, and so does the missing
    [display_name] of a chosen candidate without names. *)
Fixpoint query_loop (queries : list string) (anchor : option (R * R))
    (t : list Event) : Outcome (option GeocodeResult) * list Event :=
  match queries with
  | [] => (Returns None, t)
  | q :: rest =>
      let t1 := t ++ [Sleep 250] in
      let results := fetch_results t1 q in
      let t2 := t1 ++ [Fetch q] in
      match results with
      | None => (Raises, t2)
      | Some [] => query_loop rest anchor t2
      | Some (first :: others) =>
          let best := pick_best anchor first others in
          match corrected_name best with
          | Some name =>
              (Returns (Some (mkResult (cand_lat best) (cand_lon best) name)), t2)
          | None => (Raises, t2)
          end
      end
  end.

Definition queries_for (name : string) : list string :=
  [ name +:+ " bus stand Tamil Nadu India";
    name +:+ " bus stand India";
    name +:+ " India" ].

Definition cache_key (name : string) : string :=
  JsString.toLowerCase (JsString.trim name).

Definition geocodeStop (name : string) (anchor : option (R * R)) (st : Session)
  : Outcome (option GeocodeResult) * Session :=
  let cacheKey := cache_key name in
  match cache st !! cacheKey with
  | Some v => (Returns v, st)
  | None =>
      match query_loop (queries_for name) anchor (trace st) with
      | (Returns r, t) => (Returns r, mkSession (<[cacheKey := r]> (cache st)) t)
      | (Raises, t) => (Raises, mkSession (cache st) t)
      end
  end.

Definition coordinate (r : GeocodeResult) : R * R := (lat r, lon r).

(** [for (const name of names)] with the variables [results] and [anchor]. *)
Fixpoint sequence_loop (names : list string)
    (results : list (option GeocodeResult)) (anchor : option (R * R))
    (st : Session) : Outcome (list (option GeocodeResult)) * Session :=
  match names with
  | [] => (Returns results, st)
  | name :: rest =>
      match geocodeStop name anchor st with
      | (Returns r, st1) =>
          let anchor' := match r, anchor with
                         | Some g, None => Some (coordinate g)
                         | _, _ => anchor
                         end in
          sequence_loop rest (results ++ [r]) anchor' st1
      | (Raises, st1) => (Raises, st1)
      end
  end.

Definition geocodeStopSequence (names : list string) (st : Session)
  : Outcome (list (option GeocodeResult)) * Session :=
  sequence_loop names [] None st.

(** [await geocodeStopSequence(names)]: the results are dropped. *)
Definition prewarmCache (names : list string) (st : Session) : Outcome unit * Session :=
  match geocodeStopSequence names st with
  | (Returns _, st') => (Returns tt, st')
  | (Raises, st') => (Raises, st')
  end.

(** The sequence as the specification words it: the anchor of a stop is the
    coordinate of the first stop resolved before it, if there is one. *)
Definition first_resolved (results : list (option GeocodeResult)) : option (R * R) :=
  coordinate <$> head (omap (fun r => r) results).

Fixpoint anchored_loop (names : list string)
    (results : list (option GeocodeResult)) (st : Session)
  : Outcome (list (option GeocodeResult)) * Session :=
  match names with
  | [] => (Returns results, st)
  | name :: rest =>
      match geocodeStop name (first_resolved results) st with
      | (Returns r, st1) => anchored_loop rest (results ++ [r]) st1
      | (Raises, st1) => (Raises, st1)
      end
  end.

Definition resolveSequence_spec (names : list string) (st : Session)
  : Outcome (list (option GeocodeResult)) * Session :=
  anchored_loop names [] st.


End Provider.

(** A scripted provider for the examples: it knows one town. *)
Definition demo_provider (t : list Event) (q : string) : Reply :=
  if String.eqb q "Salem bus stand Tamil Nadu India"
  then Candidates [mkCandidate (116643 / 10000) (781460 / 10000) (Some "Salem") None
                               (Some "Salem, Tamil Nadu, India")]
  else Candidates [].



(** The pause and the request of each query, in order. *)
Definition paced (queries : list string) : list Event :=
  flat_map (fun q => [Sleep 250; Fetch q]) queries.

(** Every query of the list is asked in turn from the trace [t] on and
    comes back without a candidate. *)
Fixpoint all_empty (nominatim : list Event -> string -> Reply) (t : list Event)
    (queries : list string) : Prop :=
  match queries with
  | [] => True
  | q :: rest =>
      fetch_results nominatim (t ++ [Sleep 250]) q = Some [] /\
      all_empty nominatim (t ++ [Sleep 250; Fetch q]) rest
  end.


End GeoValidator.

(** ** supabase/functions/route-resolver/index.ts *)

Module EdgeResolver.
Local Open Scope R_scope.
Import Nominatim.

Record ResolvedStop : Type := mkResolved {
  name : string;
  corrected : string;
  lat : R;
  lon : R
}.

(** [interface RouteResponse]; [cachedAt] is the time of the clock. *)
Record RouteResponse : Type := mkRoute {
  busId : option Z;
  busName : option string;
  stops : list ResolvedStop;
  geometry : list (R * R);
  distanceKm : R;
  durationSec : R;
  cachedAt : Z;
  fromCache : bool
}.

(** [{ ...cached.value, fromCache: true }]. *)
Definition mark_cached (r : RouteResponse) : RouteResponse :=
  mkRoute (busId r) (busName r) (stops r) (geometry r) (distanceKm r)
          (durationSec r) (cachedAt r) true.

Inductive Payload : Type :=
| NoBody
| ErrorBody (error : string) (detail : option string)
| RouteBody (r : RouteResponse).

Record HttpResponse : Type := mkHttp {
  status : Z;
  payload : Payload
}.

Inductive Method : Type := OPTIONS | POST | OtherMethod.

(** What [req.json()] yields when it does not reject: [null], or an object
    with the three optional fields (a primitive behaves as an object without
    fields). *)
Inductive Parsed : Type :=
| JsonNull
| JsonObject (busId : option Z) (busName : option string) (stops : option (list string)).

(** [body] is absent when [req.json()] rejects. *)
Record Request : Type := mkRequest {
  method : Method;
  body : option Parsed
}.

Inductive Exn : Type :=
| NetworkError
| SyntaxError
| TypeError
| KvError.

(** [err.message]; the texts stand for whatever the runtime reports. *)
Definition message (e : Exn) : string :=
  match e with
  | NetworkError => "network error"
  | SyntaxError => "Unexpected token"
  | TypeError => "Cannot read properties"
  | KvError => "kv error"
  end.

(** The column [stops] of a row: an array, or a text that [JSON.parse]
    turns into an array or rejects. *)
Inductive DbStops : Type :=
| StopsArray (l : list string)
| StopsText (parsed : option (list string)).

Inductive DbReply : Type :=
| DbRejects
| DbRows (rows : list DbStops).

Record OsrmRoute : Type := mkOsrmRoute {
  coordinates : option (list (R * R));
  distance : R;
  duration : R
}.

Inductive OsrmReply : Type :=
| OsrmFetchRejects
| OsrmJsonRejects
| OsrmRoutes (routes : list OsrmRoute).

(** What the handler does to the outside, in order. *)
Inductive Event : Type :=
| EvDb (busId : Z)
| EvOpenKv
| EvKvGet (key : string)
| EvKvSet (key : string) (expireIn : Z)
| EvSleep (ms : Z)
| EvGeocode (q : string)
| EvRoute (waypoints : list (R * R))
| EvWarn (rawName : string)
| EvError (e : Exn).

(** An entry of the durable store, written with [expireIn]: the store keeps
    it at least until the clock reaches [expires_at] and may delete it at any
    time from then on. *)
Record KvEntry : Type := mkEntry {
  value : RouteResponse;
  expires_at : Z
}.

(** What the durable store holds, the clock in milliseconds (it advances
    with every [sleep]; the time a request takes is left open) and the
    trace. *)
Record World : Type := mkWorld {
  kv : gmap string KvEntry;
  clock : Z;
  trace : list Event
}.

(** The collaborators.  Each one answers knowing the trace so far; a
    geocoding request is identified by its query text and a routing request
    by its waypoints, which is what the URL is built from. *)
Record Env : Type := mkEnv {
  db : list Event -> Z -> DbReply;
  kv_opens : bool;
  kv_get_rejects : list Event -> bool;
  kv_set_rejects : list Event -> bool;
  nominatim : list Event -> string -> Reply;
  osrm : list Event -> list (R * R) -> OsrmReply
}.

(** *** normalizeName

    The three patterns, matched at the head of a text:
    [st(?:and|op)?\b], [bus\s*st(?:and|op)?\b] and
    [(old|new)\s+bus\s*st(?:and|op)?\b]. *)

Definition chars (s : string) : list ascii := list_ascii_of_string s.

Definition match_st (s : list ascii) : option (list ascii) :=
  match JsString.prefix_ci (chars "st") s with
  | None => None
  | Some r =>
      let ending (p : string) :=
        match JsString.prefix_ci (chars p) r with
        | Some r' => if JsString.ends_word r' then Some r' else None
        | None => None
        end in
      match ending "and" with
      | Some r' => Some r'
      | None =>
          match ending "op" with
          | Some r' => Some r'
          | None => if JsString.ends_word r then Some r else None
          end
      end
  end.

Definition match_bus (s : list ascii) : option (list ascii) :=
  match JsString.prefix_ci (chars "bus") s with
  | Some r => match_st (JsString.drop_while JsString.is_space r)
  | None => None
  end.

Definition match_old_new_bus (s : list ascii) : option (list ascii) :=
  let after_word (r : list ascii) :=
    match r with
    | c :: _ =>
        if JsString.is_space c
        then match_bus (JsString.drop_while JsString.is_space r)
        else None
    | [] => None
    end in
  match JsString.prefix_ci (chars "old") s with
  | Some r => after_word r
  | None =>
      match JsString.prefix_ci (chars "new") s with
      | Some r => after_word r
      | None => None
      end
  end.

Definition normalizeName (raw : string) : string :=
  let trimmed := JsString.trim_chars (chars raw) in
  let spaced := JsString.collapse_spaces false trimmed in
  let first := JsString.replace_first match_old_new_bus (chars "bus stand") false spaced in
  string_of_list_ascii
    (JsString.replace_first match_bus (chars "bus stand") false first).

(** *** Control flow of the [try] block: go on, [return] a response, or raise *)

Inductive Step (A : Type) : Type :=
| Next (a : A)
| Return (r : HttpResponse)
| Throw (e : Exn).

Arguments Next {A} a.
Arguments Return {A} r.
Arguments Throw {A} e.

Definition M (A : Type) : Type := World -> Step A * World.

Definition ret {A} (a : A) : M A := fun w => (Next a, w).

Definition bind {A B} (m : M A) (f : A -> M B) : M B :=
  fun w =>
    match m w with
    | (Next a, w') => f a w'
    | (Return r, w') => (Return r, w')
    | (Throw e, w') => (Throw e, w')
    end.

Definition respond {A} (r : HttpResponse) : M A := fun w => (Return r, w).

Definition throw {A} (e : Exn) : M A := fun w => (Throw e, w).

Definition emit (ev : Event) : M unit :=
  fun w => (Next tt, mkWorld (kv w) (clock w) (trace w ++ [ev])).

(** The trace before the current request, for the collaborator to see. *)
Definition history : M (list Event) := fun w => (Next (trace w), w).

Definition sleep (ms : Z) : M unit :=
  fun w => (Next tt, mkWorld (kv w) (clock w + ms) (trace w ++ [EvSleep ms])).

Notation "'let!' x ':=' m 'in' k" := (bind m (fun x => k))
  (at level 10, x name, m at level 100, k at level 200).
Notation "'do!' m 'in' k" := (bind m (fun _ => k))
  (at level 10, m at level 100, k at level 200).

Definition RATE_LIMIT_MS : Z := 250.

Definition error_response (st : Z) (msg : string) : HttpResponse :=
  mkHttp st (ErrorBody msg None).

Section Handler.

Variable env : Env.

(** **** Step 1: the stop names *)

Definition truthy_id (b : option Z) : option Z :=
  match b with
  | Some n => if (n =? 0)%Z then None else Some n
  | None => None
  end.

Definition lookup_stops (id : Z) : M (list string) :=
  let! h := history in
  do! emit (EvDb id) in
  match db env h id with
  | DbRejects => throw NetworkError
  | DbRows [] => respond (error_response 404 "Bus not found")
  | DbRows (StopsArray l :: _) => ret l
  | DbRows (StopsText (Some l) :: _) => ret l
  | DbRows (StopsText None :: _) => throw SyntaxError
  end.

Definition stage_stops (b : Parsed) : M (list string) :=
  match b with
  | JsonNull => throw TypeError
  | JsonObject bid _ direct =>
      match default [] direct, truthy_id bid with
      | [], Some id => lookup_stops id
      | given, _ => ret given
      end
  end.

(** **** Step 2: the edge cache *)

Definition key_char (c : ascii) : ascii :=
  let n := JsString.code c in
  if ((97 <=? n) && (n <=? 122)) || ((65 <=? n) && (n <=? 90))
     || ((48 <=? n) && (n <=? 57)) || (n =? 124)
  then c else "_"%char.

Fixpoint join_names (l : list string) : list ascii :=
  match l with
  | [] => []
  | [s] => list_ascii_of_string s
  | s :: rest => list_ascii_of_string s ++ "|"%char :: join_names rest
  end.

Definition cache_key (stop_names : list string) : string :=
  "route_" +:+ string_of_list_ascii (take 200 (map key_char (join_names stop_names))).

(** [Deno.openKv()]: a failure leaves [kv] null. *)
Definition open_kv : M bool :=
  do! emit EvOpenKv in ret (kv_opens env).

(** [cached.value]: what the store holds under the key.  The handler has no
    test of its own for the age of an entry: deleting an entry whose time to
    live has elapsed is left to the store. *)
Definition stored_route (key : string) (w : World) : option RouteResponse :=
  value <$> kv w !! key.

Definition stage_cache (key : string) : M bool :=
  let! have_kv := open_kv in
  if have_kv then
    let! h := history in
    do! emit (EvKvGet key) in
    if kv_get_rejects env h then throw KvError
    else fun w =>
      match stored_route key w with
      | Some v => (Return (mkHttp 200 (RouteBody (mark_cached v))), w)
      | None => (Next true, w)
      end
  else ret false.

(** **** Step 3: geocoding *)

Definition queries_for (rawName : string) : list string :=
  let normalized := normalizeName rawName in
  [ normalized +:+ " bus stand Tamil Nadu India";
    normalized +:+ " bus stand India";
    normalized +:+ " India";
    rawName +:+ " India" ].

(** [for (const q of queries)]: a rejected [fetch] is not caught here, and
    neither is the TypeError that the body [null] ([results.length]) or a
    chosen candidate without names and [display_name] raises. *)
Fixpoint query_loop (queries : list string) (anchor : option (R * R))
    (rawName : string) : M (option ResolvedStop) :=
  match queries with
  | [] => ret None
  | q :: rest =>
      let! h := history in
      do! emit (EvGeocode q) in
      match nominatim env h q with
      | FetchRejects => throw NetworkError
      | NullBody => throw TypeError
      | JsonRejects | Candidates [] => query_loop rest anchor rawName
      | Candidates (first :: others) =>
          let best := pick_best anchor first others in
          match corrected_name best with
          | Some corrected =>
              ret (Some (mkResolved rawName corrected (cand_lat best) (cand_lon best)))
          | None => throw TypeError
          end
      end
  end.

Definition geocode_one (anchor : option (R * R)) (stop : string)
  : M (option ResolvedStop) :=
  let rawName := JsString.trim stop in
  let! found := query_loop (queries_for rawName) anchor rawName in
  match found with
  | Some r => ret (Some r)
  | None => do! emit (EvWarn rawName) in ret None
  end.

Definition coordinate (r : ResolvedStop) : R * R := (lat r, lon r).

(** [for (let i = 0; i < stops.length; i++)] with the variables
    [resolvedStops] and [anchorLat], [anchorLon]. *)
Fixpoint geocode_loop (i : nat) (stop_names : list string)
    (resolvedStops : list ResolvedStop) (anchor : option (R * R))
  : M (list ResolvedStop) :=
  match stop_names with
  | [] => ret resolvedStops
  | stop :: rest =>
      do! (if (0 <? i)%nat then sleep RATE_LIMIT_MS else ret tt) in
      let! found := geocode_one anchor stop in
      match found with
      | Some r => geocode_loop (S i) rest (resolvedStops ++ [r]) (Some (coordinate r))
      | None => geocode_loop (S i) rest resolvedStops anchor
      end
  end.

(** **** Steps 4 to 6: routing, response, store *)

Definition flip (c : R * R) : R * R := (snd c, fst c).

Definition fetch_route (resolved : list ResolvedStop) : M OsrmRoute :=
  let! h := history in
  let waypoints := map (fun s => (lon s, lat s)) resolved in
  do! emit (EvRoute waypoints) in
  match osrm env h waypoints with
  | OsrmFetchRejects => throw NetworkError
  | OsrmJsonRejects => throw SyntaxError
  | OsrmRoutes [] => respond (error_response 502 "OSRM returned no routes")
  | OsrmRoutes (route :: _) => ret route
  end.

Definition TTL_MS : Z := 86400000.

Definition store (key : string) (response : RouteResponse) : M unit :=
  let! h := history in
  do! emit (EvKvSet key TTL_MS) in
  if kv_set_rejects env h then throw KvError
  else fun w =>
    (Next tt,
     mkWorld (<[key := mkEntry response (clock w + TTL_MS)]> (kv w)) (clock w) (trace w)).

Definition now : M Z := fun w => (Next (clock w), w).

Definition busId_of (b : Parsed) : option Z :=
  match b with JsonObject bid _ _ => bid | JsonNull => None end.

Definition busName_of (b : Parsed) : option string :=
  match b with JsonObject _ bn _ => bn | JsonNull => None end.

(** Steps 3 to 6 of the [try] block: what happens after a cache miss. *)
Definition resolve_fresh (b : Parsed) (stop_names : list string)
    (cacheKey : string) (have_kv : bool) : M HttpResponse :=
  let! resolvedStops := geocode_loop 0 stop_names [] None in
  if (length resolvedStops <? 2)%nat
  then respond (error_response 422 "Could not geocode enough stops")
  else
    let! route := fetch_route resolvedStops in
    match coordinates route with
    | None => throw TypeError
    | Some cs =>
        let! t := now in
        let response :=
          mkRoute (busId_of b) (busName_of b) resolvedStops (map flip cs)
                  (distance route / 1000) (duration route) t false in
        do! (if have_kv then store cacheKey response else ret tt) in
        ret (mkHttp 200 (RouteBody response))
    end.

(** The body of the [try] block. *)
Definition try_body (b : Parsed) : M HttpResponse :=
  let! stop_names := stage_stops b in
  if (length stop_names <? 2)%nat
  then respond (error_response 400 "At least 2 stops required")
  else
    let cacheKey := cache_key stop_names in
    let! have_kv := stage_cache cacheKey in
    resolve_fresh b stop_names cacheKey have_kv.

(** [handler]: the [catch] clause turns anything raised into a 500. *)
Definition handler (req : Request) (w : World) : HttpResponse * World :=
  match method req with
  | OPTIONS => (mkHttp 204 NoBody, w)
  | OtherMethod => (error_response 405 "Method not allowed", w)
  | POST =>
      match body req with
      | None => (error_response 400 "Invalid JSON body", w)
      | Some b =>
          match try_body b w with
          | (Next r, w') => (r, w')
          | (Return r, w') => (r, w')
          | (Throw e, w') =>
              (mkHttp 500 (ErrorBody "Internal server error" (Some (message e))),
               mkWorld (kv w') (clock w') (trace w' ++ [EvError e]))
          end
      end
  end.

(** *** The geocoding loop with the anchor given as a function of the stops
    resolved so far *)

Fixpoint loop_with (policy : list ResolvedStop -> option (R * R)) (i : nat)
    (stop_names : list string) (resolvedStops : list ResolvedStop)
  : M (list ResolvedStop) :=
  match stop_names with
  | [] => ret resolvedStops
  | stop :: rest =>
      do! (if (0 <? i)%nat then sleep RATE_LIMIT_MS else ret tt) in
      let! found := geocode_one (policy resolvedStops) stop in
      match found with
      | Some r => loop_with policy (S i) rest (resolvedStops ++ [r])
      | None => loop_with policy (S i) rest resolvedStops
      end
  end.

(** The anchor of the specification: the first stop resolved. *)
Definition first_anchor (resolved : list ResolvedStop) : option (R * R) :=
  coordinate <$> head resolved.

(** The anchor of the handler: the stop resolved last. *)
Definition latest_anchor (resolved : list ResolvedStop) : option (R * R) :=
  coordinate <$> last resolved.

End Handler.

(** *** Vocabulary of the statements *)

Definition is_external (e : Event) : bool :=
  match e with
  | EvGeocode _ | EvRoute _ => true
  | _ => false
  end.

Definition is_open_kv (e : Event) : bool :=
  match e with EvOpenKv => true | _ => false end.

Definition is_kv_get (e : Event) : bool :=
  match e with EvKvGet _ => true | _ => false end.

(** No geocoding or routing request comes before the first event that
    [marker] recognises. *)
Fixpoint precedes (marker : Event -> bool) (t : list Event) : bool :=
  match t with
  | [] => true
  | e :: t' => marker e || (negb (is_external e) && precedes marker t')
  end.

(** The events a run added to the trace of [w]. *)
Definition added (w w' : World) : list Event := drop (length (trace w)) (trace w').

(** A computation that leaves the store and the clock alone and only adds
    events [t] to the trace. *)
Definition logs (w : World) (t : list Event) : World :=
  mkWorld (kv w) (clock w) (trace w ++ t).

(** A computation that goes on or raises, but never returns a response. *)
Definition never_returns {A : Type} (m : M A) : Prop :=
  forall w r, fst (m w) <> Return r.

(** A computation only ever adds to the trace. *)
Definition appends {A : Type} (m : M A) : Prop :=
  forall w, exists t, trace (snd (m w)) = trace w ++ t.

(** A scripted provider for the examples: two stops with one candidate each
    on the equator, one degree apart, and a third stop with a candidate at
    either place. *)
Definition candidate_at (la lo : R) (label : string) : Candidate :=
  mkCandidate la lo (Some label) None (Some label).

Definition demo_nominatim (h : list Event) (q : string) : Reply :=
  if String.eqb q "A bus stand Tamil Nadu India"
  then Candidates [candidate_at 0 0 "A"]
  else if String.eqb q "B bus stand Tamil Nadu India"
  then Candidates [candidate_at 0 1 "B"]
  else if String.eqb q "C bus stand Tamil Nadu India"
  then Candidates [candidate_at 0 0 "C near A"; candidate_at 0 1 "C near B"]
  else Candidates [].

Definition demo_route : OsrmRoute :=
  mkOsrmRoute (Some [(0, 0); (1, 0)]) 111195 7200.

Definition demo_env : Env :=
  mkEnv (fun _ _ => DbRows []) true (fun _ => false) (fun _ => false)
        demo_nominatim (fun _ _ => OsrmRoutes [demo_route]).

Definition demo_world : World := mkWorld ∅ 0 [].

(** The same collaborators with a routing provider that finds no route. *)
Definition demo_env_no_route : Env :=
  mkEnv (fun _ _ => DbRows []) true (fun _ => false) (fun _ => false)
        demo_nominatim (fun _ _ => OsrmRoutes []).

(** The same collaborators on a deployment whose durable store does not
    open, and on one whose store rejects every write. *)
Definition demo_env_no_kv : Env :=
  mkEnv (fun _ _ => DbRows []) false (fun _ => false) (fun _ => false)
        demo_nominatim (fun _ _ => OsrmRoutes [demo_route]).

Definition demo_env_set_rejects : Env :=
  mkEnv (fun _ _ => DbRows []) true (fun _ => false) (fun _ => true)
        demo_nominatim (fun _ _ => OsrmRoutes [demo_route]).

Definition demo_request : Parsed := JsonObject None None (Some ["A"; "B"]).

(** The world the first request leaves behind. *)
Definition demo_world_after : World :=
  snd (handler demo_env (mkRequest POST (Some demo_request)) demo_world).

Definition demo_response : RouteResponse :=
  mkRoute None None [mkResolved "A" "A" 0 0; mkResolved "B" "B" 0 1]
          [(0, 0); (0, 1)] (111195 / 1000) 7200 250 false.

Definition is_geocode (e : Event) : bool :=
  match e with EvGeocode _ => true | _ => false end.

Definition is_sleep (e : Event) : bool :=
  match e with EvSleep _ => true | _ => false end.

(** The geocoding requests and the pauses of a trace. *)
Definition geocodes (t : list Event) : nat := length (List.filter is_geocode t).

Definition sleeps (t : list Event) : nat := length (List.filter is_sleep t).

(** The characters of a key: [a-z0-9|] without case, and the underscore
    that replaces every other character. *)
Definition is_key_char (c : ascii) : bool :=
  let n := JsString.code c in
  ((97 <=? n) && (n <=? 122)) || ((65 <=? n) && (n <=? 90))
  || ((48 <=? n) && (n <=? 57)) || (n =? 124) || (n =? 95).

(** The text of the key after [route_]. *)
Definition key_body (stop_names : list string) : list ascii :=
  take 200 (map key_char (join_names stop_names)).

(** [w'] continues [w]: the same store, a clock that did not go back and a
    longer trace. *)
Definition continues (w w' : World) : Prop :=
  kv w' = kv w /\ (clock w <= clock w')%Z /\ exists t, trace w' = trace w ++ t.


End EdgeResolver.

(** * Properties *)

(** ** The worker *)

Section WorkerFacts.
Import RouteWorker.
Local Open Scope R_scope.

Lemma atan2_pos_x (y x : R) : 0 < x -> JsMath.atan2 y x = atan (y / x).
Proof.
  intros Hx. unfold JsMath.atan2. destruct (Rlt_dec 0 x); [reflexivity | contradiction].
Qed.

Lemma atan2_zero_one : JsMath.atan2 0 1 = 0.
Proof.
  rewrite atan2_pos_x by lra. replace (0 / 1) with 0 by field. apply atan_0.
Qed.

Lemma atan2_positive (y x : R) : 0 < y -> 0 < JsMath.atan2 y x.
Proof.
  intros Hy. pose proof PI_RGT_0 as Hpi. pose proof (atan_bound (y / x)) as [Hlo Hhi].
  unfold JsMath.atan2.
  destruct (Rlt_dec 0 x) as [Hx | Hx].
  - rewrite <- atan_0. apply atan_increasing. apply Rdiv_lt_0_compat; assumption.
  - destruct (Rlt_dec x 0) as [Hx' | Hx'].
    + destruct (Rle_dec 0 y); lra.
    + destruct (Rlt_dec 0 y); lra.
Qed.

Lemma atan2_nonneg (y x : R) : 0 <= y -> 0 <= JsMath.atan2 y x.
Proof.
  intros [Hy | <-]; [left; apply atan2_positive; exact Hy |].
  pose proof PI_RGT_0 as Hpi. unfold JsMath.atan2.
  replace (0 / x) with 0 by (unfold Rdiv; ring). rewrite atan_0.
  destruct (Rlt_dec 0 x); [lra |]. destruct (Rlt_dec x 0).
  - destruct (Rle_dec 0 0); lra.
  - destruct (Rlt_dec 0 0); lra.
Qed.

Lemma atan2_bounds (y x : R) : - PI < JsMath.atan2 y x <= PI.
Proof.
  pose proof PI_RGT_0 as Hpi.
  pose proof (atan_bound (y / x)) as [Hlo Hhi].
  unfold JsMath.atan2.
  destruct (Rlt_dec 0 x) as [Hx | Hx]; [lra |].
  destruct (Rlt_dec x 0) as [Hx' | Hx'].
  - assert (Hinv : / x < 0) by (apply Rinv_lt_0_compat; exact Hx').
    destruct (Rle_dec 0 y) as [Hy | Hy].
    + assert (y / x <= 0) by (unfold Rdiv; nra).
      assert (atan (y / x) <= 0).
      { destruct (Req_dec (y / x) 0) as [E | E].
        - rewrite E, atan_0. lra.
        - left. rewrite <- atan_0. apply atan_increasing. lra. }
      lra.
    + assert (0 < y / x) by (unfold Rdiv; nra).
      assert (0 < atan (y / x)) by (rewrite <- atan_0; apply atan_increasing; lra).
      lra.
  - destruct (Rlt_dec 0 y); [lra |]. destruct (Rlt_dec y 0); lra.
Qed.

Lemma rem_360_range (v : R) : 0 <= v < 720 -> 0 <= JsMath.rem v 360 < 360.
Proof.
  intros [Hlo Hhi]. unfold JsMath.rem, JsMath.trunc.
  assert (Hq : 0 <= v / 360) by lra.
  destruct (Rle_dec 0 (v / 360)) as [_ | n]; [| contradiction].
  destruct (Rlt_dec v 360) as [Hlt | Hge].
  - replace (Int_part (v / 360)) with 0%Z.
    + simpl. lra.
    + apply Int_part_spec. simpl. lra.
  - replace (Int_part (v / 360)) with 1%Z.
    + simpl. lra.
    + apply Int_part_spec. simpl. lra.
Qed.

(** Every bearing is normalised into [0, 360). *)
Lemma bearing_range (p1 p2 : LatLon) : 0 <= bearing p1 p2 < 360.
Proof.
  unfold bearing. cbv zeta. apply rem_360_range.
  set (a := JsMath.atan2 _ _).
  pose proof (atan2_bounds
    (sin ((snd p2 - snd p1) * PI / 180) * cos (fst p2 * PI / 180))
    (cos (fst p1 * PI / 180) * sin (fst p2 * PI / 180)
     - sin (fst p1 * PI / 180) * cos (fst p2 * PI / 180) * cos ((snd p2 - snd p1) * PI / 180)))
    as [Hlo Hhi].
  fold a in Hlo, Hhi.
  pose proof PI_RGT_0 as Hpi.
  assert (E : a * 180 / PI = a / PI * 180) by (field; lra).
  rewrite E.
  assert (-1 < a / PI <= 1).
  { split.
    - apply Rmult_lt_reg_r with PI; [lra |]. unfold Rdiv. rewrite Rmult_assoc, Rinv_l by lra. lra.
    - apply Rmult_le_reg_r with PI; [lra |]. unfold Rdiv. rewrite Rmult_assoc, Rinv_l by lra. lra. }
  lra.
Qed.

Lemma stride_pos (pts : list LatLon) : (1 <= stride pts)%Z.
Proof. unfold stride. lia. Qed.

Lemma div_shift (a s : Z) : (0 < s)%Z -> ((a + s) / s = a / s + 1)%Z.
Proof.
  intros Hs. replace (a + s)%Z with (a + 1 * s)%Z by lia.
  rewrite Z.div_add by lia. reflexivity.
Qed.

(** The loop stops on its guard, never on the fuel, and runs once for every
    index [i, i + s, i + 2 s, ...] below [length pts - 1]. *)
Lemma arrows_loop_length (fuel : nat) (pts : list LatLon) (s i : Z) (acc : list Arrow) :
  (1 <= s)%Z -> (0 <= i)%Z ->
  (Z.of_nat (length pts) - 1 - i <= Z.of_nat fuel)%Z ->
  length (arrows_loop fuel pts s i acc)
  = (length acc + Z.to_nat ((Z.of_nat (length pts) - 2 - i + s) / s))%nat.
Proof.
  revert i acc. induction fuel as [| fuel IH]; intros i acc Hs Hi Hfuel.
  - simpl.
    assert (H : ((Z.of_nat (length pts) - 2 - i + s) / s <= 0)%Z).
    { apply Z.lt_succ_r. apply Z.div_lt_upper_bound; lia. }
    replace (Z.to_nat _) with 0%nat by lia. lia.
  - simpl. destruct (Z.ltb_spec i (Z.of_nat (length pts) - 1)) as [Hlt | Hge].
    + rewrite IH by lia. rewrite length_app. simpl.
      replace (Z.of_nat (length pts) - 2 - (i + s) + s)%Z
        with (Z.of_nat (length pts) - 2 - i)%Z by lia.
      rewrite (div_shift (Z.of_nat (length pts) - 2 - i) s) by lia.
      assert (0 <= (Z.of_nat (length pts) - 2 - i) / s)%Z
        by (apply Z.div_pos; lia).
      lia.
    + assert (H : ((Z.of_nat (length pts) - 2 - i + s) / s <= 0)%Z).
      { apply Z.lt_succ_r. apply Z.div_lt_upper_bound; lia. }
      replace (Z.to_nat _) with 0%nat by lia. lia.
Qed.

(** The number of arrows, for every input. *)
Lemma computeArrowBearings_length (pts : list LatLon) :
  length (computeArrowBearings pts)
  = Z.to_nat ((Z.of_nat (length pts) - 2) / stride pts).
Proof.
  unfold computeArrowBearings.
  pose proof (stride_pos pts) as Hs.
  rewrite arrows_loop_length by lia. simpl.
  f_equal. f_equal. lia.
Qed.

(** The bound the stride does guarantee. *)
Lemma computeArrowBearings_at_most_13 (pts : list LatLon) :
  (length (computeArrowBearings pts) <= 13)%nat.
Proof.
  rewrite computeArrowBearings_length. unfold stride.
  set (n := Z.of_nat (length pts)).
  assert (Hn : (0 <= n)%Z) by (unfold n; lia).
  destruct (Z.max_spec 1 (n / 8)) as [[Hlt ->] | [Hge ->]].
  - assert ((n - 2) / (n / 8) < 14)%Z; [| lia].
    apply Z.div_lt_upper_bound; [lia |].
    pose proof (Z.div_mod n 8 ltac:(lia)). pose proof (Z.mod_pos_bound n 8 ltac:(lia)). lia.
  - rewrite Z.div_1_r.
    pose proof (Z.div_mod n 8 ltac:(lia)). pose proof (Z.mod_pos_bound n 8 ltac:(lia)). lia.
Qed.

Lemma north_path_length (n : nat) : length (north_path n) = n.
Proof. unfold north_path. rewrite length_map, length_seq. reflexivity. Qed.

(** C1.  On a path of fifteen points the stride is
    max(1, floor(15 / 8)) = 1 and the worker answers with thirteen arrows, five
    more than the eight that the specification and the comment in the source
    ("Returns max 8 arrow positions") allow. *)
Theorem arrows_on_fifteen_points :
  stride (north_path 15) = 1%Z /\
  length (computeArrowBearings (north_path 15)) = 13%nat /\
  onmessage (ComputeArrowBearings (north_path 15))
  = Some (ArrowBearings (computeArrowBearings (north_path 15))).
Proof.
  split; [| split].
  - unfold stride. rewrite north_path_length. reflexivity.
  - rewrite computeArrowBearings_length. unfold stride.
    rewrite north_path_length. reflexivity.
  - reflexivity.
Qed.

Lemma filter_fold (md : R) (rest acc : list GpsFix) (kept : GpsFix) :
  fold_left (filter_step md) rest (acc ++ [kept]) = acc ++ kept :: greedy_keep md kept rest.
Proof.
  revert acc kept. induction rest as [| cur rest IH]; intros acc kept; simpl.
  - reflexivity.
  - unfold filter_step at 2. rewrite last_snoc.
    destruct (Rge_dec (gps_dist kept cur) md).
    + rewrite IH. rewrite <- app_assoc. reflexivity.
    + apply IH.
Qed.

Lemma filterNoisyGps_greedy (raw : list GpsFix) (md : option R) :
  filterNoisyGps raw md = filterNoisyGps_spec raw (default 20 md).
Proof.
  unfold filterNoisyGps, filterNoisyGps_spec. destruct raw as [| first rest]; [reflexivity |].
  replace (match md with Some m => m | None => 20 end) with (default 20 md)
    by (destruct md; reflexivity).
  apply (filter_fold _ rest [] first).
Qed.



End WorkerFacts.

(** ** The route cache *)

Section KeyFacts.
Import RouteCache.

Variable nts : Q -> string.

(** Splitting at the first separator is unambiguous. *)
Lemma split_at_sep (c : ascii) (a1 a2 r1 r2 : list ascii) :
  c ∉ a1 -> c ∉ a2 -> a1 ++ c :: r1 = a2 ++ c :: r2 -> a1 = a2 /\ r1 = r2.
Proof.
  revert a2. induction a1 as [| x a1 IH]; intros [| y a2] H1 H2 E; simpl in E.
  - injection E as E. auto.
  - injection E as E _. subst. exfalso. apply H2. left.
  - injection E as E _. subst. exfalso. apply H1. left.
  - injection E as -> E.
    destruct (IH a2) as [-> ->]; auto.
    + intros Hin. apply H1. right. exact Hin.
    + intros Hin. apply H2. right. exact Hin.
Qed.

Lemma string_of_list_ascii_inj (a b : list ascii) :
  string_of_list_ascii a = string_of_list_ascii b -> a = b.
Proof.
  intros E. rewrite <- (list_ascii_of_string_of_list_ascii a),
    <- (list_ascii_of_string_of_list_ascii b), E. reflexivity.
Qed.

Lemma uint_digits (d : Decimal.uint) :
  Forall (fun c => is_digit c = true) (list_ascii_of_string (NilEmpty.string_of_uint d)).
Proof. induction d; simpl; constructor; auto. Qed.

Lemma digits_are_digits (n : N) : Forall (fun c => is_digit c = true) (digits n).
Proof. apply uint_digits. Qed.

Lemma value_of_digits (n : N) : value_of (digits n) = Some n.
Proof.
  unfold value_of, digits. rewrite string_of_list_ascii_of_string, NilEmpty.usu.
  simpl. f_equal. apply DecimalN.Unsigned.of_to.
Qed.

Lemma value_of_zero (cs : list ascii) : value_of ("0"%char :: cs) = value_of cs.
Proof.
  unfold value_of. simpl.
  destruct (NilEmpty.uint_of_string (string_of_list_ascii cs)); reflexivity.
Qed.

Lemma value_of_zeros (k : nat) (cs : list ascii) :
  value_of (replicate k "0"%char ++ cs) = value_of cs.
Proof. induction k; simpl; [reflexivity |]. rewrite value_of_zero. exact IHk. Qed.

Lemma value_of_pad6 (n : N) : value_of (pad6 (digits n)) = Some n.
Proof.
  unfold pad6. destruct (length (digits n) <=? 5)%nat.
  - rewrite value_of_zeros. apply value_of_digits.
  - apply value_of_digits.
Qed.

Lemma pad6_digits (n : N) : Forall (fun c => is_digit c = true) (pad6 (digits n)).
Proof.
  unfold pad6. destruct (length (digits n) <=? 5)%nat.
  - apply Forall_app. split; [| apply digits_are_digits].
    apply Forall_replicate. reflexivity.
  - apply digits_are_digits.
Qed.

Lemma pad6_length (m : list ascii) : (6 <= length (pad6 m))%nat.
Proof.
  unfold pad6. destruct (Nat.leb_spec (length m) 5).
  - rewrite length_app, length_replicate. lia.
  - lia.
Qed.

Lemma not_digit_notin (c : ascii) (l : list ascii) :
  is_digit c = false -> Forall (fun c => is_digit c = true) l -> c ∉ l.
Proof.
  intros Hc Hl Hin. rewrite Forall_forall in Hl. apply Hl in Hin. congruence.
Qed.

(** The shape of a fixed-point rendering: digits, a point, five digits. *)
Lemma insert_point_shape (m : list ascii) :
  Forall (fun c => is_digit c = true) m -> (6 <= length m)%nat ->
  exists d a b, insert_point m = d :: a ++ "."%char :: b /\ is_digit d = true /\
    Forall (fun c => is_digit c = true) a /\ Forall (fun c => is_digit c = true) b /\
    m = d :: a ++ b.
Proof.
  intros Hm Hlen. unfold insert_point.
  destruct m as [| d m']; [simpl in Hlen; lia |].
  assert (E : (length (d :: m') - 5 = S (length m' - 5))%nat) by (simpl in *; lia).
  rewrite E. simpl.
  exists d, (take (length m' - 5) m'), (drop (length m' - 5) m').
  inversion Hm; subst.
  repeat split; auto.
  - apply Forall_take. assumption.
  - apply Forall_drop. assumption.
  - rewrite take_drop. reflexivity.
Qed.

Lemma insert_point_inj (m1 m2 : list ascii) :
  Forall (fun c => is_digit c = true) m1 -> (6 <= length m1)%nat ->
  Forall (fun c => is_digit c = true) m2 -> (6 <= length m2)%nat ->
  insert_point m1 = insert_point m2 -> m1 = m2.
Proof.
  intros D1 L1 D2 L2 E.
  destruct (insert_point_shape m1 D1 L1) as (d1 & a1 & b1 & E1 & _ & Ha1 & _ & ->).
  destruct (insert_point_shape _ D2 L2) as (d2 & a2 & b2 & E2 & _ & Ha2 & _ & ->).
  rewrite E1, E2 in E. injection E as -> E.
  apply split_at_sep in E as [-> ->]; [reflexivity | |];
    apply not_digit_notin; auto.
Qed.

Lemma toFixed5_in_range (x : Q) :
  too_large (magnitude x) = false ->
  toFixed5 nts x = (if is_negative x then ["-"%char] else []) ++ fixed_text x.
Proof. intros H. unfold toFixed5. rewrite H. reflexivity. Qed.

Lemma fixed_text_head (x : Q) :
  exists d rest, fixed_text x = d :: rest /\ is_digit d = true.
Proof.
  destruct (insert_point_shape _ (pad6_digits (cell_index (magnitude x))) (pad6_length _))
    as (d & a & b & E & Hd & _).
  exists d, (a ++ "."%char :: b). split; [exact E | exact Hd].
Qed.

Lemma fixed_text_chars (x : Q) :
  Forall (fun c => is_fixed_char c = true) (fixed_text x).
Proof.
  destruct (insert_point_shape _ (pad6_digits (cell_index (magnitude x))) (pad6_length _))
    as (d & a & b & E & Hd & Ha & Hb & _).
  unfold fixed_text. rewrite E.
  assert (W : forall l, Forall (fun c => is_digit c = true) l ->
                        Forall (fun c => is_fixed_char c = true) l).
  { intros l Hl. eapply Forall_impl; [exact Hl |].
    intros c Hc. unfold is_fixed_char. rewrite Hc. reflexivity. }
  constructor; [unfold is_fixed_char; rewrite Hd; reflexivity |].
  apply Forall_app. split; [auto |]. constructor; [reflexivity | auto].
Qed.

Lemma toFixed5_chars (x : Q) :
  too_large (magnitude x) = false ->
  Forall (fun c => is_fixed_char c = true) (toFixed5 nts x).
Proof.
  intros H. rewrite toFixed5_in_range by exact H.
  apply Forall_app. split; [| apply fixed_text_chars].
  destruct (is_negative x); constructor; [reflexivity | constructor].
Qed.

Lemma toFixed5_nonempty (x : Q) : too_large (magnitude x) = false -> toFixed5 nts x <> [].
Proof.
  intros H. rewrite toFixed5_in_range by exact H.
  destruct (fixed_text_head x) as (d & rest & -> & _).
  destruct (is_negative x); discriminate.
Qed.

(** Below [10^21] the rendering determines the sign and the rounding cell,
    and nothing else. *)
Lemma toFixed5_cell (x y : Q) :
  too_large (magnitude x) = false -> too_large (magnitude y) = false ->
  (toFixed5 nts x = toFixed5 nts y <-> cell x = cell y).
Proof.
  intros Hx Hy. rewrite !toFixed5_in_range by assumption. unfold cell. split.
  - intros E.
    destruct (fixed_text_head x) as (dx & rx & Ex & Hdx).
    destruct (fixed_text_head y) as (dy & ry & Ey & Hdy).
    assert (Hs : is_negative x = is_negative y).
    { destruct (is_negative x), (is_negative y); try reflexivity;
        rewrite Ex, Ey in E; simpl in E; injection E as E _; subst; discriminate. }
    f_equal; [exact Hs |].
    rewrite Hs in E. apply app_inv_head in E.
    unfold fixed_text in E.
    apply insert_point_inj in E; auto using pad6_digits, pad6_length.
    pose proof (value_of_pad6 (cell_index (magnitude x))) as V.
    rewrite E, value_of_pad6 in V. congruence.
  - intros [= Hs Hc]. unfold fixed_text. rewrite Hs, Hc. reflexivity.
Qed.

Lemma fixed_char_notin (c : ascii) (l : list ascii) :
  is_fixed_char c = false -> Forall (fun c => is_fixed_char c = true) l -> c ∉ l.
Proof.
  intros Hc Hl Hin. rewrite Forall_forall in Hl. apply Hl in Hin. congruence.
Qed.

Lemma stop_text_cell (a b : Stop) :
  in_range a -> in_range b ->
  (stop_text nts a = stop_text nts b <-> same_cell a b).
Proof.
  intros [Ha1 Ha2] [Hb1 Hb2]. unfold stop_text, same_cell.
  rewrite <- !(toFixed5_cell _ _) by assumption. split.
  - intros E. apply split_at_sep in E; [exact E | |];
      apply fixed_char_notin; auto using toFixed5_chars.
  - intros [-> ->]. reflexivity.
Qed.

Lemma stop_text_no_semicolon (a : Stop) : in_range a -> ";"%char ∉ stop_text nts a.
Proof.
  intros [H1 H2] Hin. unfold stop_text in Hin.
  apply elem_of_app in Hin as [Hin | Hin].
  - revert Hin. apply fixed_char_notin; [reflexivity | apply toFixed5_chars; assumption].
  - apply elem_of_cons in Hin as [Hin | Hin]; [discriminate |].
    revert Hin. apply fixed_char_notin; [reflexivity | apply toFixed5_chars; assumption].
Qed.

Lemma stop_text_nonempty (a : Stop) : in_range a -> stop_text nts a <> [].
Proof.
  intros [H1 H2]. unfold stop_text. intros E. apply app_eq_nil in E as [_ E]. discriminate.
Qed.

Lemma join_cons (sep : ascii) (p : list ascii) (rest : list (list ascii)) :
  join sep (p :: rest)
  = p ++ match rest with [] => [] | _ => sep :: join sep rest end.
Proof. destruct rest; simpl; [rewrite app_nil_r |]; reflexivity. Qed.

Lemma join_inj (sep : ascii) (l1 l2 : list (list ascii)) :
  Forall (fun p => (sep ∉ p) /\ p <> []) l1 ->
  Forall (fun p => (sep ∉ p) /\ p <> []) l2 ->
  join sep l1 = join sep l2 -> l1 = l2.
Proof.
  revert l2. induction l1 as [| p1 r1 IH]; intros [| p2 r2] H1 H2 E.
  - reflexivity.
  - exfalso. inversion H2 as [| ? ? [_ Hne] _]; subst.
    rewrite join_cons in E. simpl in E. destruct p2; [congruence | discriminate].
  - exfalso. inversion H1 as [| ? ? [_ Hne] _]; subst.
    rewrite join_cons in E. simpl in E. destruct p1; [congruence | discriminate].
  - inversion H1 as [| ? ? [Hs1 Hn1] Hr1]; subst.
    inversion H2 as [| ? ? [Hs2 Hn2] Hr2]; subst.
    rewrite !join_cons in E.
    destruct r1 as [| q1 r1], r2 as [| q2 r2].
    + rewrite !app_nil_r in E. congruence.
    + exfalso. rewrite app_nil_r in E. apply Hs1. rewrite E.
      apply elem_of_app. right. left.
    + exfalso. rewrite app_nil_r in E. apply Hs2. rewrite <- E.
      apply elem_of_app. right. left.
    + apply split_at_sep in E as [-> E]; auto.
      f_equal. apply IH; auto.
Qed.

Lemma makeKey_same_iff (profile : string) (s t : list Stop) :
  Forall in_range s -> Forall in_range t ->
  (makeKey nts s profile = makeKey nts t profile <-> Forall2 same_cell s t).
Proof.
  intros Hs Ht. unfold makeKey. split.
  - intros E. apply string_of_list_ascii_inj, app_inv_head in E.
    injection E as E. apply join_inj in E.
    + revert t Ht E. induction Hs as [| a s Ha Hs IH]; intros [| b t] Ht E;
        try discriminate; [constructor |].
      inversion Ht; subst. injection E as E1 E2. constructor.
      * apply stop_text_cell; assumption.
      * apply IH; assumption.
    + apply Forall_map. eapply Forall_impl; [exact Hs |].
      intros a Ha. split; [apply stop_text_no_semicolon | apply stop_text_nonempty]; exact Ha.
    + apply Forall_map. eapply Forall_impl; [exact Ht |].
      intros a Ha. split; [apply stop_text_no_semicolon | apply stop_text_nonempty]; exact Ha.
  - intros F.
    assert (E : map (stop_text nts) s = map (stop_text nts) t).
    { revert Hs Ht. induction F as [| a b s t Hab F IH]; intros Hs Ht; [reflexivity |].
      inversion Hs; subst. inversion Ht; subst. simpl. f_equal.
      - apply stop_text_cell; assumption.
      - apply IH; assumption. }
    rewrite E. reflexivity.
Qed.




(** *** get and set *)





Lemma run_op_present (o : Op) (st : Store) (k : string) (v : CachedRoute) :
  spares nts k o -> mem st !! k = Some v -> mem (run_op nts st o) !! k = Some v.
Proof.
  intros Hne Hm. destruct o as [s p | s d p now]; simpl in *.
  - unfold get.
    destruct (mem st !! makeKey nts s p) eqn:Em; simpl; [exact Hm |].
    destruct (session st !! (PREFIX +:+ makeKey nts s p)) as [[| v'] |]; simpl; auto.
    rewrite lookup_insert_ne; [exact Hm | congruence].
  - specialize (Hne eq_refl). unfold set.
    destruct (session_full st); simpl; rewrite lookup_insert_ne by exact Hne; exact Hm.
Qed.

Lemma run_present (ops : list Op) (st : Store) (k : string) (v : CachedRoute) :
  Forall (spares nts k) ops -> mem st !! k = Some v -> mem (run nts ops st) !! k = Some v.
Proof.
  intros F. revert st. induction F as [| o ops Ho F IH]; intros st Hm; simpl.
  - exact Hm.
  - apply IH. apply run_op_present; assumption.
Qed.


Lemma get_present (stops : list Stop) (profile : string) (st : Store) (v : CachedRoute) :
  mem st !! makeKey nts stops profile = Some v ->
  get nts stops profile st = (Some v, st).
Proof. intros Hm. unfold get. rewrite Hm. reflexivity. Qed.







Lemma get_restamp (f : Z -> Z) (stops : list Stop) (profile : string) (st : Store) :
  get nts stops profile (restamp f st)
  = (restamp_route f <$> fst (get nts stops profile st),
     restamp f (snd (get nts stops profile st))).
Proof.
  unfold get, restamp. simpl. rewrite !lookup_fmap.
  destruct (mem st !! makeKey nts stops profile) as [v |]; simpl; [reflexivity |].
  destruct (session st !! (PREFIX +:+ makeKey nts stops profile)) as [[| v] |]; simpl;
    try reflexivity.
  rewrite fmap_insert. reflexivity.
Qed.

Lemma get_promotes (stops : list Stop) (profile : string) (st : Store) (v : CachedRoute) :
  mem st !! makeKey nts stops profile = None ->
  session st !! (PREFIX +:+ makeKey nts stops profile) = Some (Json v) ->
  get nts stops profile st
  = (Some v, mkStore (<[makeKey nts stops profile := v]> (mem st)) (session st)
                     (session_full st) (requests st)).
Proof. intros Hm Hs. unfold get. rewrite Hm, Hs. reflexivity. Qed.

(** C10.  The client cache never expires an entry.  Once a key is set, every
    later [get] returns the entry, whatever is read or written under other
    keys and whatever time those operations carry; [get] commutes with any
    change of the [cachedAt] stamps, so it never reads them; and a tier-2 hit
    is returned and promoted into tier 1 whatever its age. *)
Theorem no_expiry (stops : list Stop) (data : RouteData) (profile : string)
    (t0 : Z) (st st' : Store) (ops : list Op) (f : Z -> Z) (v : CachedRoute) :
  Forall (spares nts (makeKey nts stops profile)) ops ->
  mem st' !! makeKey nts stops profile = None ->
  session st' !! (PREFIX +:+ makeKey nts stops profile) = Some (Json v) ->
  fst (get nts stops profile (run nts ops (set nts stops data profile t0 st)))
  = Some (mkCachedRoute (data_points data) (data_distanceKm data) t0) /\
  get nts stops profile (restamp f st)
  = (restamp_route f <$> fst (get nts stops profile st),
     restamp f (snd (get nts stops profile st))) /\
  get nts stops profile st'
  = (Some v, mkStore (<[makeKey nts stops profile := v]> (mem st')) (session st')
                     (session_full st') (requests st')).
Proof.
  intros F Hm Hs. split; [| split].
  - erewrite get_present; [reflexivity |].
    apply run_present; [exact F |].
    unfold set. destruct (session_full st); simpl; apply lookup_insert_eq.
  - apply get_restamp.
  - apply get_promotes; assumption.
Qed.

Variable osrm : list (string * list (Q * Q)) -> string * list (Q * Q) -> OsrmReply.

(** C3.  The promise of [prewarm] is fulfilled on a cache hit, on a body
    without routes and after a successful fetch (a failed tier-2 write
    included); it is rejected when the fetch fails, when the body is not
    JSON and when the first route has no coordinates.  The caller,
    [warmRouteCache], discards the rejection. *)
Theorem prewarm_settles (stops : list Stop) (profile : string) (now : Z) (st : Store)
    (rstops : list RouteStop) :
  fst (prewarm nts osrm stops profile now st)
  = match fst (get nts stops profile st) with
    | Some _ => Fulfilled
    | None =>
        match osrm (requests st) (profile, map (fun s => (lon s, lat s)) stops) with
        | FetchRejects => Rejected NetworkError
        | JsonRejects => Rejected SyntaxError
        | Routes [] => Fulfilled
        | Routes (r :: _) =>
            match coordinates r with
            | None => Rejected TypeError
            | Some _ => Fulfilled
            end
        end
    end /\
  fst (warmRouteCache nts osrm rstops now st) = Fulfilled.
Proof.
  split.
  - unfold prewarm.
    assert (R : requests (snd (get nts stops profile st)) = requests st).
    { unfold get. destruct (mem st !! _); [reflexivity |].
      destruct (session st !! _) as [[| v] |]; reflexivity. }
    destruct (get nts stops profile st) as [[v |] st1] eqn:G; simpl in *; [reflexivity |].
    rewrite R.
    destruct (osrm (requests st) _) as [| | [| r rs]]; try reflexivity.
    destruct (coordinates r); reflexivity.
  - unfold warmRouteCache.
    destruct (2 <=? length (resolved_stops rstops))%nat; [| reflexivity].
    destruct (prewarm nts osrm (resolved_stops rstops) "driving" now st). reflexivity.
Qed.

End KeyFacts.

Section CacheExamples.
Import RouteCache.







Lemma other_ops_spare_all :
  Forall (spares sample_number_to_string
            (makeKey sample_number_to_string [stopA; stopB] "driving"))
         other_ops.
Proof. repeat constructor; intros H; vm_compute in H |- *; discriminate. Qed.

Lemma reloaded_store_tiers :
  mem reloaded_store !! makeKey sample_number_to_string [stopA; stopB] "driving" = None /\
  session reloaded_store
    !! (PREFIX +:+ makeKey sample_number_to_string [stopA; stopB] "driving")
  = Some (Json old_route).
Proof. split; [reflexivity | apply lookup_singleton_eq]. Qed.

(** An entry survives operations stamped much later, and an old tier-2 entry
    is still served after a reload. *)
Lemma no_expiry_witness :
  Forall (spares sample_number_to_string
            (makeKey sample_number_to_string [stopA; stopB] "driving"))
         other_ops /\
  mem reloaded_store !! makeKey sample_number_to_string [stopA; stopB] "driving" = None /\
  session reloaded_store
    !! (PREFIX +:+ makeKey sample_number_to_string [stopA; stopB] "driving")
  = Some (Json old_route) /\
  fst (get sample_number_to_string [stopA; stopB] "driving"
         (run sample_number_to_string other_ops
            (set sample_number_to_string [stopA; stopB] sample_route "driving" 0
                 empty_store)))
  = Some (mkCachedRoute (data_points sample_route) (data_distanceKm sample_route) 0) /\
  fst (get sample_number_to_string [stopA; stopB] "driving" reloaded_store)
  = Some old_route.
Proof.
  destruct reloaded_store_tiers as [Hm Hs].
  split; [exact other_ops_spare_all |]. split; [exact Hm |]. split; [exact Hs |].
  pose proof (no_expiry sample_number_to_string [stopA; stopB] sample_route "driving" 0
                empty_store reloaded_store other_ops (fun z => z) old_route
                other_ops_spare_all Hm Hs) as (H1 & _ & H3).
  split; [exact H1 |]. rewrite H3. reflexivity.
Defined.

(** A failed fetch rejects the promise of [prewarm]. *)
Lemma prewarm_rejects_on_network_error :
  fst (prewarm sample_number_to_string (fun _ _ => FetchRejects)
         [stopA; stopB] "driving" 0 empty_store) = Rejected NetworkError.
Proof. reflexivity. Qed.

End CacheExamples.

(** ** The client geocoder *)

Section GeoFacts.
Import Nominatim GeoValidator.

Variable nominatim : list Event -> string -> Reply.


(** What a call returns is in the cache afterwards. *)
Lemma geocodeStop_records (name : string) (anchor : option (R * R)) (st : Session)
    (v : option GeocodeResult) :
  fst (geocodeStop nominatim name anchor st) = Returns v ->
  cache (snd (geocodeStop nominatim name anchor st)) !! cache_key name = Some v.
Proof.
  unfold geocodeStop. destruct (cache st !! cache_key name) as [v' |] eqn:E.
  - intros [= <-]. exact E.
  - destruct (query_loop nominatim (queries_for name) anchor (trace st)) as [[r |] t];
      cbn [fst snd cache]; [| discriminate].
    intros [= <-]. apply lookup_insert_eq.
Qed.

(** The cache only grows: an entry, once written, is never changed. *)
Lemma geocodeStop_keeps (name : string) (anchor : option (R * R)) (st : Session)
    (k : string) (v : option GeocodeResult) :
  cache st !! k = Some v ->
  cache (snd (geocodeStop nominatim name anchor st)) !! k = Some v.
Proof.
  intros H. unfold geocodeStop.
  destruct (cache st !! cache_key name) as [v' |] eqn:E; [exact H |].
  destruct (query_loop nominatim (queries_for name) anchor (trace st)) as [[r |] t];
    cbn [snd cache]; [| exact H].
  rewrite lookup_insert_ne; [exact H | congruence].
Qed.


(** *** The requests of one resolution *)

Lemma all_empty_snoc (t : list Event) (before : list string) (q : string) :
  all_empty nominatim t before ->
  fetch_results nominatim (t ++ paced before ++ [Sleep 250]) q = Some [] ->
  all_empty nominatim t (before ++ [q]).
Proof.
  revert t. induction before as [| b before IH]; intros t H Hq; cbn [app all_empty] in *.
  - split; [exact Hq | exact I].
  - destruct H as [Hb H]. split; [exact Hb |]. apply IH; [exact H |].
    rewrite <- Hq. f_equal. cbn [paced flat_map]. rewrite <- !app_assoc. reflexivity.
Qed.

(** The loop asks an initial part of its queries, each after a pause; every
    query before the last one asked came back empty, and the last one
    decides: it has a candidate to return, or it makes the loop raise, or
    it is empty too and the loop returns nothing. *)
Lemma query_loop_paced (queries : list string) (anchor : option (R * R)) (t : list Event) :
  exists asked,
    asked `prefix_of` queries /\
    snd (query_loop nominatim queries anchor t) = t ++ paced asked /\
    match fst (query_loop nominatim queries anchor t) with
    | Returns None => asked = queries /\ all_empty nominatim t queries
    | Returns (Some g) =>
        exists before q first others,
          asked = before ++ [q] /\ all_empty nominatim t before /\
          fetch_results nominatim (t ++ paced before ++ [Sleep 250]) q
            = Some (first :: others) /\
          let best := pick_best anchor first others in
          (fun name => mkResult (cand_lat best) (cand_lon best) name) <$> corrected_name best
            = Some g
    | Raises =>
        exists before q,
          asked = before ++ [q] /\ all_empty nominatim t before /\
          match fetch_results nominatim (t ++ paced before ++ [Sleep 250]) q with
          | None => True
          | Some [] => False
          | Some (first :: others) => corrected_name (pick_best anchor first others) = None
          end
    end.
Proof.
  revert t. induction queries as [| q rest IH]; intros t.
  - exists []. cbn. rewrite app_nil_r. split; [reflexivity |]. split; [reflexivity |]. tauto.
  - cbn [query_loop]. cbv zeta.
    destruct (fetch_results nominatim (t ++ [Sleep 250]) q) as [[| first others] |] eqn:E.
    + destruct (IH ((t ++ [Sleep 250]) ++ [Fetch q])) as (asked & Hp & Ht & Hr).
      assert (Shift : forall before,
                ((t ++ [Sleep 250]) ++ [Fetch q]) ++ paced before ++ [Sleep 250]
                = t ++ paced (q :: before) ++ [Sleep 250]).
      { intros before. cbn [paced flat_map]. rewrite <- !app_assoc. reflexivity. }
      assert (Lift : forall qs, all_empty nominatim ((t ++ [Sleep 250]) ++ [Fetch q]) qs ->
                                all_empty nominatim t (q :: qs)).
      { intros qs H. cbn [all_empty]. split; [exact E |].
        rewrite <- app_assoc in H. exact H. }
      exists (q :: asked). split; [apply prefix_cons, Hp |]. split.
      * rewrite Ht. cbn [paced flat_map]. rewrite <- !app_assoc. reflexivity.
      * destruct (fst (query_loop nominatim rest anchor ((t ++ [Sleep 250]) ++ [Fetch q])))
          as [[g |] |].
        -- destruct Hr as (before & q' & f & o & Ha & Hb & Hf & Hg).
           exists (q :: before), q', f, o. split; [rewrite Ha; reflexivity |].
           split; [apply Lift, Hb |]. split; [rewrite <- Shift; exact Hf | exact Hg].
        -- destruct Hr as [Ha Hb]. split; [congruence | apply Lift, Hb].
        -- destruct Hr as (before & q' & Ha & Hb & Hf).
           exists (q :: before), q'. split; [rewrite Ha; reflexivity |].
           split; [apply Lift, Hb |]. rewrite <- Shift. exact Hf.
    + destruct (corrected_name (pick_best anchor first others)) as [name |] eqn:N.
      * exists [q]. split; [apply prefix_cons, prefix_nil |]. split.
        -- cbn. rewrite <- app_assoc. reflexivity.
        -- cbn [fst]. exists [], q, first, others. split; [reflexivity |]. split; [exact I |].
           split; [exact E |]. cbv zeta. rewrite N. reflexivity.
      * exists [q]. split; [apply prefix_cons, prefix_nil |]. split.
        -- cbn. rewrite <- app_assoc. reflexivity.
        -- cbn [fst]. exists [], q. split; [reflexivity |]. split; [exact I |].
           cbn [paced flat_map app]. rewrite E. exact N.
    + exists [q]. split; [apply prefix_cons, prefix_nil |]. split.
      * cbn. rewrite <- app_assoc. reflexivity.
      * cbn [fst]. exists [], q. split; [reflexivity |]. split; [exact I |].
        cbn [paced flat_map app]. rewrite E. exact I.
Qed.

Lemma fetches_paced (t : list Event) (asked : list string) :
  fetches (t ++ paced asked) = fetches t ++ (Fetch <$> asked).
Proof.
  unfold fetches. rewrite List.filter_app. f_equal.
  induction asked as [| q asked IH]; [reflexivity |]. cbn. rewrite <- IH. reflexivity.
Qed.

Lemma queries_for_length (name : string) : length (queries_for name) = 3%nat.
Proof. reflexivity. Qed.

(** A call that finds its key asks nothing; a call that misses asks at
    least one query. *)
Lemma geocodeStop_asks (name : string) (anchor : option (R * R)) (st : Session) :
  exists asked,
    asked `prefix_of` queries_for name /\
    trace (snd (geocodeStop nominatim name anchor st)) = trace st ++ paced asked /\
    (asked = [] <-> is_Some (cache st !! cache_key name)).
Proof.
  unfold geocodeStop. destruct (cache st !! cache_key name) as [v |] eqn:E.
  - exists []. split; [apply prefix_nil |]. cbn. rewrite app_nil_r.
    split; [reflexivity |]. split; [eauto | reflexivity].
  - destruct (query_loop_paced (queries_for name) anchor (trace st)) as (asked & Hp & Ht & Hr).
    exists asked. split; [exact Hp |].
    destruct (query_loop nominatim (queries_for name) anchor (trace st)) as [[[g |] |] t];
      cbn [fst snd trace] in *; (split; [exact Ht |]); split;
      try (intros [? H]; discriminate H).
    + destruct Hr as (before & q & _ & _ & -> & _). intros H.
      apply app_eq_nil in H. destruct H as [_ H]. discriminate H.
    + destruct Hr as [-> _]. intros H. discriminate H.
    + destruct Hr as (before & q & -> & _). intros H.
      apply app_eq_nil in H. destruct H as [_ H]. discriminate H.
Qed.


(** *** The anchor of a sequence *)

Lemma first_resolved_snoc (results : list (option GeocodeResult))
    (r : option GeocodeResult) :
  first_resolved (results ++ [r])
  = match r, first_resolved results with
    | Some g, None => Some (coordinate g)
    | _, a => a
    end.
Proof.
  unfold first_resolved. rewrite omap_app. simpl.
  destruct (omap (fun r => r) results) as [| g0 gs]; simpl.
  - destruct r; reflexivity.
  - destruct r; reflexivity.
Qed.

(** Once a stop is resolved, the anchor no longer changes. *)
Lemma first_resolved_stable (results more : list (option GeocodeResult)) (a : R * R) :
  first_resolved results = Some a -> first_resolved (results ++ more) = Some a.
Proof.
  unfold first_resolved. rewrite omap_app.
  destruct (omap (fun r => r) results) as [| g gs]; simpl; [discriminate | auto].
Qed.

Lemma sequence_loop_anchored (names : list string)
    (results : list (option GeocodeResult)) (st : Session) :
  sequence_loop nominatim names results (first_resolved results) st
  = anchored_loop nominatim names results st.
Proof.
  revert results st. induction names as [| name rest IH]; intros results st; simpl.
  - reflexivity.
  - destruct (geocodeStop nominatim name (first_resolved results) st) as [[r |] st1];
      [| reflexivity].
    rewrite <- IH. f_equal. rewrite first_resolved_snoc.
    destruct r, (first_resolved results); reflexivity.
Qed.

Lemma geocodeStopSequence_fixed_anchor (names : list string) (st : Session) :
  geocodeStopSequence nominatim names st = resolveSequence_spec nominatim names st.
Proof. apply (sequence_loop_anchored names [] st). Qed.

End GeoFacts.

Section GeoExamples.
Import Nominatim GeoValidator.



End GeoExamples.

(** ** The edge resolver *)

Section HaversineFacts.
Import Nominatim.
Local Open Scope R_scope.

Lemma haversine_self (la lo : R) : haversine la lo la lo = 0.
Proof.
  unfold haversine.
  replace ((la - la) * PI / 180 / 2) with 0 by field.
  replace ((lo - lo) * PI / 180 / 2) with 0 by field.
  rewrite sin_0.
  replace (0 ^ 2 + cos (la * PI / 180) * cos (la * PI / 180) * 0 ^ 2) with 0 by ring.
  rewrite Rminus_0_r, sqrt_0, sqrt_1, atan2_zero_one. ring.
Qed.

Lemma haversine_one_degree : 0 < haversine 0 1 0 0.
Proof.
  unfold haversine. pose proof PI_RGT_0 as Hpi. pose proof PI_4 as Hpi4.
  apply Rmult_lt_0_compat; [lra |]. apply atan2_positive. apply sqrt_lt_R0.
  replace ((0 - 0) * PI / 180 / 2) with 0 by field.
  replace (0 * PI / 180) with 0 by field.
  replace ((0 - 1) * PI / 180 / 2) with (- (PI / 360)) by field.
  rewrite sin_0, cos_0, sin_neg.
  assert (0 < sin (PI / 360)) by (apply sin_gt_0; lra).
  nra.
Qed.

Lemma haversine_nonneg (lat1 lon1 lat2 lon2 : R) : 0 <= haversine lat1 lon1 lat2 lon2.
Proof.
  unfold haversine. apply Rmult_le_pos; [lra |]. apply atan2_nonneg, sqrt_pos.
Qed.

Lemma pick_best_single (anchor : option (R * R)) (a : Candidate) :
  pick_best anchor a [] = a.
Proof. destruct anchor as [[alat alon] |]; reflexivity. Qed.

Lemma pick_best_near_first (a b : Candidate) :
  pick_best (Some (cand_lat a, cand_lon a)) a [b] = a.
Proof.
  unfold pick_best, nearer. simpl. rewrite haversine_self.
  destruct (Rle_dec 0 _) as [_ | n]; [reflexivity |].
  exfalso. apply n. apply haversine_nonneg.
Qed.

Lemma pick_best_near_second (a b : Candidate) :
  0 < haversine (cand_lat b) (cand_lon b) (cand_lat a) (cand_lon a) ->
  pick_best (Some (cand_lat b, cand_lon b)) a [b] = b.
Proof.
  intros Hpos. unfold pick_best, nearer. simpl. rewrite haversine_self.
  destruct (Rle_dec _ 0) as [H | _]; [exfalso; lra | reflexivity].
Qed.

End HaversineFacts.

Section EdgeFacts.
Import Nominatim EdgeResolver.

Variable env : Env.

Lemma latest_anchor_snoc (resolved : list ResolvedStop) (r : ResolvedStop) :
  latest_anchor (resolved ++ [r]) = Some (coordinate r).
Proof. unfold latest_anchor. rewrite last_snoc. reflexivity. Qed.

Lemma geocode_loop_latest (stop_names : list string) (i : nat)
    (resolved : list ResolvedStop) (w : World) :
  geocode_loop env i stop_names resolved (latest_anchor resolved) w
  = loop_with env latest_anchor i stop_names resolved w.
Proof.
  revert i resolved w. induction stop_names as [| stop rest IH]; intros i resolved w.
  - reflexivity.
  - cbn [geocode_loop loop_with]. unfold bind.
    destruct ((if (0 <? i)%nat then sleep RATE_LIMIT_MS else ret ()) w) as [[[] | r0 | e0] w1];
      try reflexivity.
    destruct (geocode_one env (latest_anchor resolved) stop w1) as [[[r |] | r1 | e1] w2];
      try reflexivity.
    + rewrite <- IH, latest_anchor_snoc. reflexivity.
    + apply IH.
Qed.

Lemma logs_logs (w : World) (a b : list Event) : logs (logs w a) b = logs w (a ++ b).
Proof. unfold logs. simpl. rewrite app_assoc. reflexivity. Qed.

Lemma appends_ret {A} (a : A) : appends (ret a).
Proof. intros w. exists []. simpl. rewrite app_nil_r. reflexivity. Qed.

Lemma appends_respond {A} (r : HttpResponse) : appends (@respond A r).
Proof. intros w. exists []. simpl. rewrite app_nil_r. reflexivity. Qed.

Lemma appends_throw {A} (e : Exn) : appends (@throw A e).
Proof. intros w. exists []. simpl. rewrite app_nil_r. reflexivity. Qed.

Lemma appends_emit (ev : Event) : appends (emit ev).
Proof. intros w. exists [ev]. reflexivity. Qed.

Lemma appends_sleep (ms : Z) : appends (sleep ms).
Proof. intros w. exists [EvSleep ms]. reflexivity. Qed.

Lemma appends_history : appends history.
Proof. intros w. exists []. simpl. rewrite app_nil_r. reflexivity. Qed.

Lemma appends_now : appends now.
Proof. intros w. exists []. simpl. rewrite app_nil_r. reflexivity. Qed.

Lemma appends_bind {A B} (m : M A) (f : A -> M B) :
  appends m -> (forall a, appends (f a)) -> appends (bind m f).
Proof.
  intros Hm Hf w. unfold bind. destruct (Hm w) as [t1 E1].
  destruct (m w) as [[a | r | e] w1]; simpl in *.
  - destruct (Hf a w1) as [t2 E2]. exists (t1 ++ t2). rewrite E2, E1, app_assoc. reflexivity.
  - exists t1. exact E1.
  - exists t1. exact E1.
Qed.

Ltac appends_step :=
  first
    [ apply appends_ret | apply appends_respond | apply appends_throw
    | apply appends_emit | apply appends_sleep | apply appends_history
    | apply appends_now
    | apply appends_bind; [| intros ?]
    | match goal with
      | |- appends (if ?c then _ else _) => destruct c
      | |- appends (match ?x with _ => _ end) => destruct x
      end ].

Lemma appends_query_loop (queries : list string) (anchor : option (R * R)) (raw : string) :
  appends (query_loop env queries anchor raw).
Proof.
  induction queries as [| q rest IH]; cbn [query_loop]; [apply appends_ret |].
  apply appends_bind; [apply appends_history | intros h].
  apply appends_bind; [apply appends_emit | intros _].
  destruct (nominatim env h q) as [| | | [| first others]];
    try destruct (corrected_name (pick_best anchor first others));
    first [exact IH | apply appends_throw | apply appends_ret].
Qed.

Lemma appends_geocode_one (anchor : option (R * R)) (stop : string) :
  appends (geocode_one env anchor stop).
Proof.
  unfold geocode_one. apply appends_bind; [apply appends_query_loop | intros [r |]].
  - apply appends_ret.
  - repeat appends_step.
Qed.

Lemma appends_geocode_loop (stop_names : list string) (i : nat)
    (resolved : list ResolvedStop) (anchor : option (R * R)) :
  appends (geocode_loop env i stop_names resolved anchor).
Proof.
  revert i resolved anchor. induction stop_names as [| stop rest IH]; intros i resolved anchor;
    cbn [geocode_loop]; [apply appends_ret |].
  apply appends_bind; [destruct (0 <? i)%nat; [apply appends_sleep | apply appends_ret] |].
  intros _. apply appends_bind; [apply appends_geocode_one | intros [r |]]; apply IH.
Qed.

Lemma appends_fetch_route (resolved : list ResolvedStop) : appends (fetch_route env resolved).
Proof.
  unfold fetch_route. apply appends_bind; [apply appends_history | intros h].
  apply appends_bind; [apply appends_emit | intros _].
  destruct (osrm env h _) as [| | [| route rest]]; repeat appends_step.
Qed.

Lemma appends_store (key : string) (response : RouteResponse) :
  appends (store env key response).
Proof.
  unfold store. apply appends_bind; [apply appends_history | intros h].
  apply appends_bind; [apply appends_emit | intros _].
  destruct (kv_set_rejects env h); [apply appends_throw |].
  intros w. exists []. simpl. rewrite app_nil_r. reflexivity.
Qed.

Lemma appends_resolve_fresh (b : Parsed) (stop_names : list string) (key : string)
    (have_kv : bool) :
  appends (resolve_fresh env b stop_names key have_kv).
Proof.
  unfold resolve_fresh. apply appends_bind; [apply appends_geocode_loop | intros resolved].
  destruct (length resolved <? 2)%nat; [apply appends_respond |].
  apply appends_bind; [apply appends_fetch_route | intros route].
  destruct (coordinates route); [| apply appends_throw].
  apply appends_bind; [apply appends_now | intros t].
  apply appends_bind; [destruct have_kv; [apply appends_store | apply appends_ret] |].
  intros _. apply appends_ret.
Qed.

(** *** Computations that never return a response *)

Lemma never_returns_bind {A B} (m : M A) (f : A -> M B) :
  never_returns m -> (forall a, never_returns (f a)) -> never_returns (bind m f).
Proof.
  intros Hm Hf w r. unfold bind. specialize (Hm w).
  destruct (m w) as [[a | r' | e] w1]; simpl in *.
  - apply Hf.
  - exfalso. apply (Hm r'). reflexivity.
  - discriminate.
Qed.

Lemma never_returns_ret {A} (a : A) : never_returns (ret a).
Proof. intros w r. discriminate. Qed.

Lemma never_returns_throw {A} (e : Exn) : never_returns (@throw A e).
Proof. intros w r. discriminate. Qed.

Lemma never_returns_emit (ev : Event) : never_returns (emit ev).
Proof. intros w r. discriminate. Qed.

Lemma never_returns_query_loop (queries : list string) (anchor : option (R * R))
    (raw : string) :
  never_returns (query_loop env queries anchor raw).
Proof.
  induction queries as [| q rest IH]; cbn [query_loop]; [apply never_returns_ret |].
  apply never_returns_bind; [intros w r; discriminate | intros h].
  apply never_returns_bind; [apply never_returns_emit | intros _].
  destruct (nominatim env h q) as [| | | [| first others]];
    try destruct (corrected_name (pick_best anchor first others));
    first [exact IH | apply never_returns_throw | apply never_returns_ret].
Qed.

Lemma never_returns_geocode_one (anchor : option (R * R)) (stop : string) :
  never_returns (geocode_one env anchor stop).
Proof.
  unfold geocode_one.
  apply never_returns_bind; [apply never_returns_query_loop | intros [r |]].
  - apply never_returns_ret.
  - apply never_returns_bind; [apply never_returns_emit | intros _; apply never_returns_ret].
Qed.

Lemma never_returns_geocode_loop (stop_names : list string) (i : nat)
    (resolved : list ResolvedStop) (anchor : option (R * R)) :
  never_returns (geocode_loop env i stop_names resolved anchor).
Proof.
  revert i resolved anchor. induction stop_names as [| stop rest IH]; intros i resolved anchor;
    cbn [geocode_loop]; [apply never_returns_ret |].
  apply never_returns_bind.
  - destruct (0 <? i)%nat; intros w r; discriminate.
  - intros _. apply never_returns_bind; [apply never_returns_geocode_one |].
    intros [r |]; apply IH.
Qed.

(** *** How the stages run *)

Lemma stage_stops_direct (bid : option Z) (bn : option string) (s : string)
    (l : list string) (w : World) :
  stage_stops env (JsonObject bid bn (Some (s :: l))) w = (Next (s :: l), w).
Proof. reflexivity. Qed.

Lemma stage_stops_trace (b : Parsed) (w : World) :
  exists pre, trace (snd (stage_stops env b w)) = trace w ++ pre /\
              Forall (fun e => is_external e = false) pre.
Proof.
  destruct b as [| bid bn direct]; simpl.
  - exists []. rewrite app_nil_r. auto.
  - destruct (default [] direct) as [| s l]; [| exists []; simpl; rewrite app_nil_r; auto].
    destruct (truthy_id bid) as [id |]; [| exists []; simpl; rewrite app_nil_r; auto].
    exists [EvDb id]. split; [| repeat constructor].
    unfold lookup_stops, bind, history, emit. simpl.
    destruct (db env (trace w) id) as [| [| [l | [l |]] rows]]; reflexivity.
Qed.

Lemma stage_stops_return (b : Parsed) (w : World) (r : HttpResponse) :
  fst (stage_stops env b w) = Return r -> r = error_response 404 "Bus not found".
Proof.
  destruct b as [| bid bn direct]; simpl; [discriminate |].
  destruct (default [] direct) as [| s l]; [| discriminate].
  destruct (truthy_id bid) as [id |]; [| discriminate].
  unfold lookup_stops, bind, history, emit. simpl.
  destruct (db env (trace w) id) as [| [| [l | [l |]] rows]]; simpl; try discriminate.
  intros [= <-]. reflexivity.
Qed.

Lemma stage_cache_opens (key : string) (w : World) :
  kv_opens env = true ->
  stage_cache env key w
  = if kv_get_rejects env (trace w ++ [EvOpenKv])
    then (Throw KvError, logs w [EvOpenKv; EvKvGet key])
    else match stored_route key w with
         | Some v => (Return (mkHttp 200 (RouteBody (mark_cached v))),
                      logs w [EvOpenKv; EvKvGet key])
         | None => (Next true, logs w [EvOpenKv; EvKvGet key])
         end.
Proof.
  intros H. unfold stage_cache, open_kv, bind, emit, ret, history, throw. simpl.
  rewrite H. simpl.
  destruct (kv_get_rejects env (trace w ++ [EvOpenKv]));
    unfold logs, stored_route; simpl; rewrite <- app_assoc; simpl; [reflexivity |].
  destruct (kv w !! key) as [e |]; [destruct (clock w <? expires_at e)%Z |]; reflexivity.
Qed.

Lemma stage_cache_closed (key : string) (w : World) :
  kv_opens env = false -> stage_cache env key w = (Next false, logs w [EvOpenKv]).
Proof.
  intros H. unfold stage_cache, open_kv, bind, emit, ret. simpl. rewrite H. reflexivity.
Qed.

Lemma handler_post (b : Parsed) (w : World) :
  handler env (mkRequest POST (Some b)) w
  = match try_body env b w with
    | (Next r, w') => (r, w')
    | (Return r, w') => (r, w')
    | (Throw e, w') =>
        (mkHttp 500 (ErrorBody "Internal server error" (Some (message e))),
         logs w' [EvError e])
    end.
Proof. reflexivity. Qed.

Lemma try_body_from_stops (b : Parsed) (w w1 : World) (stop_names : list string) :
  stage_stops env b w = (Next stop_names, w1) ->
  try_body env b w
  = if (length stop_names <? 2)%nat
    then (Return (error_response 400 "At least 2 stops required"), w1)
    else bind (stage_cache env (cache_key stop_names))
              (resolve_fresh env b stop_names (cache_key stop_names)) w1.
Proof.
  intros E. unfold try_body, bind at 1. rewrite E.
  destruct (length stop_names <? 2)%nat; reflexivity.
Qed.

Lemma resolve_fresh_from_stops (b : Parsed) (stop_names : list string) (key : string)
    (hk : bool) (w2 w3 : World) (resolved : list ResolvedStop) :
  geocode_loop env 0 stop_names [] None w2 = (Next resolved, w3) ->
  resolve_fresh env b stop_names key hk w2
  = if (length resolved <? 2)%nat
    then (Return (error_response 422 "Could not geocode enough stops"), w3)
    else bind (fetch_route env resolved)
           (fun route =>
              match coordinates route with
              | None => throw TypeError
              | Some cs =>
                  bind now (fun t =>
                    bind (if hk
                          then store env key
                                 (mkRoute (busId_of b) (busName_of b) resolved (map flip cs)
                                    (distance route / 1000) (duration route) t false)
                          else ret tt)
                      (fun _ => ret (mkHttp 200 (RouteBody
                                 (mkRoute (busId_of b) (busName_of b) resolved (map flip cs)
                                    (distance route / 1000) (duration route) t false)))))
              end) w3.
Proof.
  intros E. unfold resolve_fresh, bind at 1. rewrite E.
  destruct (length resolved <? 2)%nat; reflexivity.
Qed.

(** A response that comes out of the fresh path carries one of three
    statuses; a 200 is a new route. *)
Lemma resolve_fresh_outcome (b : Parsed) (stop_names : list string) (key : string)
    (hk : bool) (w : World) :
  match resolve_fresh env b stop_names key hk w with
  | (Next r, w') =>
      exists resp, r = mkHttp 200 (RouteBody resp) /\ fromCache resp = false /\
        cachedAt resp = clock w' /\
        (hk = true -> kv w' !! key = Some (mkEntry resp (cachedAt resp + 86400000)) /\
                      last (trace w') = Some (EvKvSet key 86400000))
  | (Return r, _) => status r = 422%Z \/ status r = 502%Z
  | (Throw _, _) => True
  end.
Proof.
  destruct (geocode_loop env 0 stop_names [] None w) as [[resolved | r | e] w3] eqn:G.
  - rewrite (resolve_fresh_from_stops b stop_names key hk w w3 resolved G).
    destruct (length resolved <? 2)%nat; [left; reflexivity |].
    cbv [bind fetch_route history emit now]. cbn [trace].
    destruct (osrm env (trace w3) (map (fun s => (lon s, lat s)) resolved))
      as [| | [| route rest]]; simpl; auto.
    destruct (coordinates route) as [cs |]; simpl; [| exact I].
    destruct hk; simpl.
    + cbv [store bind history emit]. cbn [trace kv clock].
      destruct (kv_set_rejects env _); simpl; [exact I |].
      eexists. split; [reflexivity |]. split; [reflexivity |]. split; [reflexivity |].
      intros _. split; [apply lookup_insert_eq |]. apply last_snoc.
    + eexists. split; [reflexivity |]. split; [reflexivity |]. split; [reflexivity |].
      discriminate.
  - exfalso. apply (never_returns_geocode_loop stop_names 0 [] None w r). rewrite G.
    reflexivity.
  - unfold resolve_fresh, bind. rewrite G. exact I.
Qed.

Lemma try_body_outcome (b : Parsed) (w : World) :
  match try_body env b w with
  | (Next r, _) | (Return r, _) => In (status r) [200; 400; 404; 422; 502]%Z
  | (Throw _, _) => True
  end.
Proof.
  destruct (stage_stops env b w) as [[names | r | e0] w0] eqn:Hs.
  - rewrite (try_body_from_stops b w w0 names Hs).
    destruct (length names <? 2)%nat; [simpl; auto 10 |].
    unfold bind.
    destruct (kv_opens env) eqn:Hk.
    + rewrite (stage_cache_opens (cache_key names) w0 Hk).
      destruct (kv_get_rejects env _); [exact I |].
      destruct (stored_route (cache_key names) w0); [simpl; auto 10 |].
      pose proof (resolve_fresh_outcome b names (cache_key names) true
                    (logs w0 [EvOpenKv; EvKvGet (cache_key names)])) as O.
      destruct (resolve_fresh env b names _ true _) as [[r | r | e1] w4].
      * destruct O as (resp & -> & _). simpl. auto 10.
      * destruct O as [-> | ->]; simpl; auto 10.
      * exact I.
    + rewrite (stage_cache_closed (cache_key names) w0 Hk).
      pose proof (resolve_fresh_outcome b names (cache_key names) false
                    (logs w0 [EvOpenKv])) as O.
      destruct (resolve_fresh env b names _ false _) as [[r | r | e1] w4].
      * destruct O as (resp & -> & _). simpl. auto 10.
      * destruct O as [-> | ->]; simpl; auto 10.
      * exact I.
  - unfold try_body, bind at 1. rewrite Hs.
    pose proof (stage_stops_return b w r) as R. rewrite Hs in R.
    rewrite (R eq_refl). simpl. auto 10.
  - unfold try_body, bind at 1. rewrite Hs. exact I.
Qed.


(** *** The cache comes first *)

Lemma precedes_after (marker : Event -> bool) (pre l : list Event) :
  Forall (fun e => is_external e = false) pre ->
  precedes marker l = true -> precedes marker (pre ++ l) = true.
Proof.
  intros F H. induction F as [| e pre He F IH]; simpl; [exact H |].
  rewrite He, IH. destruct (marker e); reflexivity.
Qed.

Lemma precedes_internal (marker : Event -> bool) (l : list Event) :
  Forall (fun e => is_external e = false) l -> precedes marker l = true.
Proof.
  intros F. rewrite <- (app_nil_r l). apply precedes_after; [exact F | reflexivity].
Qed.

(** The cache stage and whatever follows it begin by opening the store and,
    when it opens, by reading the key. *)
Lemma cache_stage_trace (key : string) (f : bool -> M HttpResponse) (w0 : World) :
  (forall a, appends (f a)) ->
  exists t, trace (snd (bind (stage_cache env key) f w0)) = trace w0 ++ EvOpenKv :: t /\
            (kv_opens env = true -> exists t', t = EvKvGet key :: t').
Proof.
  intros Hf. unfold bind. destruct (kv_opens env) eqn:Hk.
  - rewrite (stage_cache_opens key w0 Hk).
    destruct (kv_get_rejects env _); [exists [EvKvGet key]; eauto |].
    destruct (stored_route key w0); [exists [EvKvGet key]; eauto |].
    destruct (Hf true (logs w0 [EvOpenKv; EvKvGet key])) as [t Et].
    exists (EvKvGet key :: t). split; [| eauto].
    rewrite Et. simpl. rewrite <- app_assoc. reflexivity.
  - rewrite (stage_cache_closed key w0 Hk).
    destruct (Hf false (logs w0 [EvOpenKv])) as [t Et].
    exists t. split; [| discriminate].
    rewrite Et. simpl. rewrite <- app_assoc. reflexivity.
Qed.

Lemma try_body_trace (b : Parsed) (w : World) :
  exists pre post,
    trace (snd (try_body env b w)) = trace w ++ pre ++ post /\
    Forall (fun e => is_external e = false) pre /\
    (post = [] \/
     exists t, post = EvOpenKv :: t /\
               (kv_opens env = true -> exists k t', t = EvKvGet k :: t')).
Proof.
  destruct (stage_stops_trace b w) as (pre & E & F).
  destruct (stage_stops env b w) as [[names | r | e] w0] eqn:Hs; simpl in E.
  - rewrite (try_body_from_stops b w w0 names Hs).
    destruct (length names <? 2)%nat.
    + exists pre, []. rewrite app_nil_r. auto.
    + destruct (cache_stage_trace (cache_key names)
                  (resolve_fresh env b names (cache_key names)) w0
                  (appends_resolve_fresh b names (cache_key names)))
        as (t & Et & Hk).
      exists pre, (EvOpenKv :: t). split; [| split; [exact F | right]].
      * rewrite Et, E, <- app_assoc. reflexivity.
      * exists t. split; [reflexivity |]. intros K. destruct (Hk K) as [t' ->]. eauto.
  - exists pre, []. unfold try_body, bind. rewrite Hs, app_nil_r. auto.
  - exists pre, []. unfold try_body, bind. rewrite Hs, app_nil_r. auto.
Qed.

Lemma handler_added (b : Parsed) (w : World) :
  exists pre post tail,
    added w (snd (handler env (mkRequest POST (Some b)) w)) = pre ++ post ++ tail /\
    Forall (fun e => is_external e = false) pre /\
    Forall (fun e => is_external e = false) tail /\
    (post = [] \/
     exists t, post = EvOpenKv :: t /\
               (kv_opens env = true -> exists k t', t = EvKvGet k :: t')).
Proof.
  destruct (try_body_trace b w) as (pre & post & E & F & P).
  rewrite handler_post. unfold added.
  destruct (try_body env b w) as [[r | r | e] w']; simpl in *.
  - exists pre, post, []. rewrite E, drop_app_length, app_nil_r. auto.
  - exists pre, post, []. rewrite E, drop_app_length, app_nil_r. auto.
  - exists pre, post, [EvError e].
    rewrite E, <- !app_assoc, drop_app_length. repeat split; auto.
Qed.

Lemma handler_cache_first (b : Parsed) (w : World) :
  precedes is_open_kv (added w (snd (handler env (mkRequest POST (Some b)) w))) = true /\
  (kv_opens env = true ->
   precedes is_kv_get (added w (snd (handler env (mkRequest POST (Some b)) w))) = true).
Proof.
  destruct (handler_added b w) as (pre & post & tail & -> & F & Ft & P).
  destruct P as [-> | (t & -> & Hk)].
  - split; [| intros _]; apply precedes_after; auto; apply precedes_internal; exact Ft.
  - split.
    + apply precedes_after; [exact F | reflexivity].
    + intros K. destruct (Hk K) as (k & t' & ->).
      apply precedes_after; [exact F | reflexivity].
Qed.

(** What the first stage does when the request names a record and carries
    no stop of its own: it asks the record store. *)
Lemma stage_stops_lookup (id : Z) (bn : option string) (direct : option (list string))
    (w : World) :
  default [] direct = [] -> id <> 0%Z ->
  snd (stage_stops env (JsonObject (Some id) bn direct) w) = logs w [EvDb id].
Proof.
  intros Hd Hid. cbn [stage_stops]. rewrite Hd.
  assert (T : truthy_id (Some id) = Some id).
  { unfold truthy_id. destruct (Z.eqb_spec id 0); [contradiction | reflexivity]. }
  rewrite T. cbv [lookup_stops bind history emit]. cbn [trace].
  destruct (db env (trace w) id) as [| [| [l | [l |]] rows]]; reflexivity.
Qed.

(** The handler only adds to what its first stage left in the trace. *)
Lemma handler_extends_stage (b : Parsed) (w : World) :
  exists t, trace (snd (handler env (mkRequest POST (Some b)) w))
            = trace (snd (stage_stops env b w)) ++ t.
Proof.
  assert (T : exists t, trace (snd (try_body env b w))
                        = trace (snd (stage_stops env b w)) ++ t).
  { destruct (stage_stops env b w) as [[names | r | e] w0] eqn:Hs; cbn [snd].
    - rewrite (try_body_from_stops b w w0 names Hs).
      destruct (length names <? 2)%nat; [exists []; rewrite app_nil_r; reflexivity |].
      destruct (cache_stage_trace (cache_key names)
                  (resolve_fresh env b names (cache_key names)) w0
                  (appends_resolve_fresh b names (cache_key names))) as (t & Et & _).
      exists (EvOpenKv :: t). exact Et.
    - exists []. unfold try_body, bind. rewrite Hs, app_nil_r. reflexivity.
    - exists []. unfold try_body, bind. rewrite Hs, app_nil_r. reflexivity. }
  destruct T as [t T]. rewrite handler_post.
  destruct (try_body env b w) as [[r | r | e] w']; cbn [snd trace logs] in *.
  - exists t. exact T.
  - exists t. exact T.
  - exists (t ++ [EvError e]). rewrite T, app_assoc. reflexivity.
Qed.

(** C8.  The error taxonomy of the handler.  A non-empty direct stop list is
    used without a look at the record store.  An empty list counts like a
    missing one: with an identifier other than 0 the record store is asked
    first, and an identifier without a record answers 404 (NotFound); with
    no identifier, or the identifier 0, the request answers 400 at once.
    Fewer than two stops, given or looked up, answer 400 (InvalidRequest);
    fewer than two geocoded stops answer 422 (GeocodeInsufficient); a routing
    reply without routes answers 502 (RoutingUnavailable); whatever is raised
    in the [try] block answers 500 (Internal); and every request is answered
    with one of the statuses of the contract. *)
Theorem error_taxonomy :
  (forall bid bn s l w,
     stage_stops env (JsonObject bid bn (Some (s :: l))) w = (Next (s :: l), w)) /\
  (forall id bn direct w,
     default [] direct = [] -> id <> 0%Z ->
     exists t,
       trace (snd (handler env (mkRequest POST (Some (JsonObject (Some id) bn direct))) w))
       = trace w ++ EvDb id :: t) /\
  (forall bid bn direct w,
     default [] direct = [] -> bid = None \/ bid = Some 0%Z ->
     handler env (mkRequest POST (Some (JsonObject bid bn direct))) w
     = (mkHttp 400 (ErrorBody "At least 2 stops required" None), w)) /\
  (forall id bn direct w,
     default [] direct = [] -> id <> 0%Z -> db env (trace w) id = DbRows [] ->
     handler env (mkRequest POST (Some (JsonObject (Some id) bn direct))) w
     = (mkHttp 404 (ErrorBody "Bus not found" None), logs w [EvDb id])) /\
  (forall b w stop_names w1,
     stage_stops env b w = (Next stop_names, w1) -> (length stop_names < 2)%nat ->
     handler env (mkRequest POST (Some b)) w
     = (mkHttp 400 (ErrorBody "At least 2 stops required" None), w1)) /\
  (forall b w stop_names w1 hk w2 resolved w3,
     stage_stops env b w = (Next stop_names, w1) -> (2 <= length stop_names)%nat ->
     stage_cache env (cache_key stop_names) w1 = (Next hk, w2) ->
     geocode_loop env 0 stop_names [] None w2 = (Next resolved, w3) ->
     (length resolved < 2)%nat ->
     handler env (mkRequest POST (Some b)) w
     = (mkHttp 422 (ErrorBody "Could not geocode enough stops" None), w3)) /\
  (forall b w stop_names w1 hk w2 resolved w3,
     stage_stops env b w = (Next stop_names, w1) -> (2 <= length stop_names)%nat ->
     stage_cache env (cache_key stop_names) w1 = (Next hk, w2) ->
     geocode_loop env 0 stop_names [] None w2 = (Next resolved, w3) ->
     (2 <= length resolved)%nat ->
     osrm env (trace w3) (map (fun r => (lon r, lat r)) resolved) = OsrmRoutes [] ->
     handler env (mkRequest POST (Some b)) w
     = (mkHttp 502 (ErrorBody "OSRM returned no routes" None),
        logs w3 [EvRoute (map (fun r => (lon r, lat r)) resolved)])) /\
  (forall b w e w',
     try_body env b w = (Throw e, w') ->
     handler env (mkRequest POST (Some b)) w
     = (mkHttp 500 (ErrorBody "Internal server error" (Some (message e))),
        logs w' [EvError e])) /\
  (forall req w,
     In (status (fst (handler env req w))) [200; 204; 400; 404; 405; 422; 500; 502]%Z).
Proof.
  assert (Fresh : forall b w stop_names w1 hk w2,
            stage_stops env b w = (Next stop_names, w1) -> (2 <= length stop_names)%nat ->
            stage_cache env (cache_key stop_names) w1 = (Next hk, w2) ->
            try_body env b w = resolve_fresh env b stop_names (cache_key stop_names) hk w2).
  { intros b w stop_names w1 hk w2 Hs Hlen Hc.
    rewrite (try_body_from_stops b w w1 stop_names Hs).
    destruct (Nat.ltb_spec (length stop_names) 2); [lia |].
    unfold bind at 1. rewrite Hc. reflexivity. }
  assert (Few : forall b w stop_names w1,
            stage_stops env b w = (Next stop_names, w1) -> (length stop_names < 2)%nat ->
            handler env (mkRequest POST (Some b)) w
            = (mkHttp 400 (ErrorBody "At least 2 stops required" None), w1)).
  { intros b w stop_names w1 Hs Hlen.
    rewrite handler_post, (try_body_from_stops b w w1 stop_names Hs).
    destruct (Nat.ltb_spec (length stop_names) 2); [reflexivity | lia]. }
  split; [reflexivity |].
  split; [| split; [| split; [| split; [| split; [| split; [| split]]]]]].
  - intros id bn direct w Hd Hid.
    destruct (handler_extends_stage (JsonObject (Some id) bn direct) w) as [t Et].
    rewrite (stage_stops_lookup id bn direct w Hd Hid) in Et.
    exists t. rewrite Et. cbn [logs trace]. rewrite <- app_assoc. reflexivity.
  - intros bid bn direct w Hd Hb. apply (Few _ w []); [| cbn; lia].
    cbn [stage_stops]. rewrite Hd. destruct Hb as [-> | ->]; reflexivity.
  - intros id bn direct w Hd Hid Hdb. rewrite handler_post.
    assert (T : truthy_id (Some id) = Some id).
    { unfold truthy_id. destruct (Z.eqb_spec id 0); [contradiction | reflexivity]. }
    assert (S : stage_stops env (JsonObject (Some id) bn direct) w
                = (Return (error_response 404 "Bus not found"), logs w [EvDb id])).
    { cbn [stage_stops]. rewrite Hd, T.
      cbv [lookup_stops bind history emit]. cbn [trace]. rewrite Hdb. reflexivity. }
    unfold try_body. cbv [bind]. rewrite S. reflexivity.
  - exact Few.
  - intros b w stop_names w1 hk w2 resolved w3 Hs Hlen Hc Hg Hr.
    rewrite handler_post, (Fresh b w stop_names w1 hk w2 Hs Hlen Hc),
      (resolve_fresh_from_stops b stop_names _ hk w2 w3 resolved Hg).
    destruct (Nat.ltb_spec (length resolved) 2); [reflexivity | lia].
  - intros b w stop_names w1 hk w2 resolved w3 Hs Hlen Hc Hg Hr Ho.
    rewrite handler_post, (Fresh b w stop_names w1 hk w2 Hs Hlen Hc),
      (resolve_fresh_from_stops b stop_names _ hk w2 w3 resolved Hg).
    destruct (Nat.ltb_spec (length resolved) 2); [lia |].
    cbv [bind fetch_route history emit]. cbn [trace]. rewrite Ho. reflexivity.
  - intros b w e w' Ht. rewrite handler_post, Ht. reflexivity.
  - intros req w. destruct req as [[| |] [b0 |]]; try (simpl; auto 10; fail).
    rewrite handler_post. pose proof (try_body_outcome b0 w) as O.
    destruct (try_body env b0 w) as [[r | r | e0] w4]; simpl in *; intuition.
Qed.

(** C9.  The handler turns to the durable store before any geocoding or
    routing request: opening it is the first thing after the stop names are
    known and, when it opens, the read of the key comes next.  An entry the
    store returns is answered at once, marked [fromCache = true], with no
    request to a provider.  When the store does not open, nothing is read.
    After a miss, when geocoding and routing succeed, the new route has
    [fromCache = false]; with the store open it is written under the key
    with [expireIn] = 86 400 000 ms (24 hours from its [cachedAt]) before it
    is returned, and a rejected write turns the answer into a 500; with the
    store not open it is returned and nothing is written. *)
Theorem cache_consulted_first :
  (forall b w,
     precedes is_open_kv (added w (snd (handler env (mkRequest POST (Some b)) w))) = true /\
     (kv_opens env = true ->
      precedes is_kv_get (added w (snd (handler env (mkRequest POST (Some b)) w)))
      = true)) /\
  (forall b w stop_names w1 e,
     kv_opens env = true ->
     stage_stops env b w = (Next stop_names, w1) -> (2 <= length stop_names)%nat ->
     kv_get_rejects env (trace w1 ++ [EvOpenKv]) = false ->
     kv w1 !! cache_key stop_names = Some e ->
     handler env (mkRequest POST (Some b)) w
     = (mkHttp 200 (RouteBody (mark_cached (value e))),
        logs w1 [EvOpenKv; EvKvGet (cache_key stop_names)]) /\
     fromCache (mark_cached (value e)) = true) /\
  (forall key w,
     kv_opens env = false -> stage_cache env key w = (Next false, logs w [EvOpenKv])) /\
  (forall b w stop_names w1 hk w2 resolved w3 route rest cs,
     stage_stops env b w = (Next stop_names, w1) -> (2 <= length stop_names)%nat ->
     stage_cache env (cache_key stop_names) w1 = (Next hk, w2) ->
     geocode_loop env 0 stop_names [] None w2 = (Next resolved, w3) ->
     (2 <= length resolved)%nat ->
     osrm env (trace w3) (map (fun r => (lon r, lat r)) resolved)
       = OsrmRoutes (route :: rest) ->
     coordinates route = Some cs ->
     let key := cache_key stop_names in
     let waypoints := map (fun r => (lon r, lat r)) resolved in
     let response :=
       mkRoute (busId_of b) (busName_of b) resolved (map flip cs)
               (distance route / 1000) (duration route) (clock w3) false in
     hk = kv_opens env /\
     handler env (mkRequest POST (Some b)) w
     = if kv_opens env then
         if kv_set_rejects env (trace w3 ++ [EvRoute waypoints]) then
           (mkHttp 500 (ErrorBody "Internal server error" (Some (message KvError))),
            logs w3 [EvRoute waypoints; EvKvSet key 86400000; EvError KvError])
         else
           (mkHttp 200 (RouteBody response),
            mkWorld (<[key := mkEntry response (clock w3 + 86400000)]> (kv w3)) (clock w3)
                    (trace w3 ++ [EvRoute waypoints; EvKvSet key 86400000]))
       else (mkHttp 200 (RouteBody response), logs w3 [EvRoute waypoints])).
Proof.
  assert (B : forall b w stop_names w1,
            stage_stops env b w = (Next stop_names, w1) -> (2 <= length stop_names)%nat ->
            try_body env b w
            = bind (stage_cache env (cache_key stop_names))
                   (resolve_fresh env b stop_names (cache_key stop_names)) w1).
  { intros b w stop_names w1 Hs Hlen. rewrite (try_body_from_stops b w w1 stop_names Hs).
    destruct (Nat.ltb_spec (length stop_names) 2); [lia | reflexivity]. }
  split; [apply handler_cache_first |]. split; [| split; [apply stage_cache_closed |]].
  - intros b w stop_names w1 e Hk Hs Hlen Hr He.
    rewrite handler_post, (B b w stop_names w1 Hs Hlen). unfold bind.
    rewrite (stage_cache_opens (cache_key stop_names) w1 Hk), Hr.
    unfold stored_route. rewrite He. split; reflexivity.
  - intros b w stop_names w1 hk w2 resolved w3 route rest cs Hs Hlen Hc Hg Hr Ho Hcs
      key waypoints response.
    assert (Hhk : hk = kv_opens env).
    { destruct (kv_opens env) eqn:Hk.
      - rewrite (stage_cache_opens (cache_key stop_names) w1 Hk) in Hc.
        destruct (kv_get_rejects env _); [discriminate Hc |].
        destruct (stored_route (cache_key stop_names) w1); [discriminate Hc |].
        injection Hc as <- _. reflexivity.
      - rewrite (stage_cache_closed (cache_key stop_names) w1 Hk) in Hc.
        injection Hc as <- _. reflexivity. }
    split; [exact Hhk |].
    rewrite handler_post, (B b w stop_names w1 Hs Hlen). unfold bind at 1. rewrite Hc.
    rewrite (resolve_fresh_from_stops b stop_names _ hk w2 w3 resolved Hg).
    destruct (Nat.ltb_spec (length resolved) 2); [lia |].
    subst key waypoints response.
    cbv [bind fetch_route history emit now]. cbn [trace].
    rewrite Ho. cbn [ret]. rewrite Hcs. rewrite <- Hhk. destruct hk.
    + cbv [store bind history emit]. cbn [trace kv clock].
      destruct (kv_set_rejects env _).
      * cbv [throw]. cbv beta iota. unfold logs. cbn [kv clock trace].
        rewrite <- !app_assoc. reflexivity.
      * cbv [ret]. cbv beta iota. cbn [kv clock trace].
        rewrite <- !app_assoc. reflexivity.
    + reflexivity.
Qed.

End EdgeFacts.

Section EdgeExamples.
Import Nominatim EdgeResolver.

(** One request for each line of the taxonomy. *)
Lemma error_taxonomy_witness :
  stage_stops demo_env (JsonObject (Some 42%Z) None (Some ["A"; "B"])) demo_world
  = (Next ["A"; "B"], demo_world) /\
  handler demo_env (mkRequest POST (Some (JsonObject (Some 42%Z) None None))) demo_world
  = (mkHttp 404 (ErrorBody "Bus not found" None), logs demo_world [EvDb 42]) /\
  handler demo_env (mkRequest POST (Some (JsonObject None None (Some [])))) demo_world
  = (mkHttp 400 (ErrorBody "At least 2 stops required" None), demo_world) /\
  handler demo_env (mkRequest POST (Some (JsonObject None None (Some ["A"])))) demo_world
  = (mkHttp 400 (ErrorBody "At least 2 stops required" None), demo_world) /\
  fst (handler demo_env (mkRequest POST (Some (JsonObject None None (Some ["X"; "Y"]))))
         demo_world)
  = mkHttp 422 (ErrorBody "Could not geocode enough stops" None) /\
  fst (handler demo_env_no_route (mkRequest POST (Some demo_request)) demo_world)
  = mkHttp 502 (ErrorBody "OSRM returned no routes" None) /\
  fst (handler demo_env (mkRequest POST (Some JsonNull)) demo_world)
  = mkHttp 500 (ErrorBody "Internal server error" (Some (message TypeError))).
Proof.
  pose proof (error_taxonomy demo_env) as (Direct & _ & T400 & T404 & Few & T422 & _ & T500 & _).
  pose proof (error_taxonomy demo_env_no_route) as (_ & _ & _ & _ & _ & _ & T502 & _).
  split; [apply Direct |].
  split.
  { apply T404; [reflexivity | discriminate | reflexivity]. }
  split.
  { apply T400; [reflexivity | left; reflexivity]. }
  split.
  { apply (Few _ demo_world ["A"%string]); [reflexivity | simpl; lia]. }
  split.
  { rewrite (T422 (JsonObject None None (Some ["X"%string; "Y"%string])) demo_world
               ["X"%string; "Y"%string] demo_world true
               (snd (stage_cache demo_env (cache_key ["X"%string; "Y"%string]) demo_world))
               []
               (snd (geocode_loop demo_env 0 ["X"%string; "Y"%string] [] None
                       (snd (stage_cache demo_env (cache_key ["X"%string; "Y"%string])
                               demo_world)))));
      [reflexivity | reflexivity | simpl; lia | reflexivity | reflexivity | simpl; lia]. }
  split.
  { rewrite (T502 demo_request demo_world ["A"%string; "B"%string] demo_world true
               (snd (stage_cache demo_env_no_route (cache_key ["A"%string; "B"%string])
                       demo_world))
               [mkResolved "A" "A" 0 0; mkResolved "B" "B" 0 1]
               (snd (geocode_loop demo_env_no_route 0 ["A"%string; "B"%string] [] None
                       (snd (stage_cache demo_env_no_route
                               (cache_key ["A"%string; "B"%string]) demo_world)))));
      [reflexivity | reflexivity | simpl; lia | reflexivity | reflexivity | simpl; lia
      | reflexivity]. }
  rewrite (T500 JsonNull demo_world TypeError demo_world); reflexivity.
Defined.

(** A request with an identifier and an empty stop list is sent to the
    record store and answered 404, not 400. *)
Lemma empty_list_asks_the_records :
  handler demo_env (mkRequest POST (Some (JsonObject (Some 42%Z) None (Some [])))) demo_world
  = (mkHttp 404 (ErrorBody "Bus not found" None), logs demo_world [EvDb 42]) /\
  fst (handler demo_env (mkRequest POST (Some (JsonObject (Some 42%Z) None (Some []))))
         demo_world)
  <> mkHttp 400 (ErrorBody "At least 2 stops required" None).
Proof. split; [reflexivity | discriminate]. Qed.


(** The first request stores its route for 24 hours and the same request
    repeated is answered from the store; where the store does not open the
    route is returned and the store is left as it was. *)
Lemma cache_consulted_first_witness :
  (fromCache demo_response = false /\
   kv demo_world_after !! cache_key ["A"; "B"]
   = Some (mkEntry demo_response (cachedAt demo_response + 86400000)) /\
   last (trace demo_world_after) = Some (EvKvSet (cache_key ["A"; "B"]) 86400000)) /\
  handler demo_env (mkRequest POST (Some demo_request)) demo_world_after
  = (mkHttp 200 (RouteBody (mark_cached demo_response)),
     logs demo_world_after [EvOpenKv; EvKvGet (cache_key ["A"; "B"])]) /\
  (let out := handler demo_env_no_kv (mkRequest POST (Some demo_request)) demo_world in
   fst out = mkHttp 200 (RouteBody demo_response) /\ kv (snd out) = kv demo_world).
Proof.
  pose proof (cache_consulted_first demo_env) as (_ & Hit & _ & Miss).
  pose proof (cache_consulted_first demo_env_no_kv) as (_ & _ & _ & Closed).
  pose proof (Miss demo_request demo_world ["A"%string; "B"%string] demo_world true
                (snd (stage_cache demo_env (cache_key ["A"%string; "B"%string]) demo_world))
                [mkResolved "A" "A" 0 0; mkResolved "B" "B" 0 1]
                (snd (geocode_loop demo_env 0 ["A"%string; "B"%string] [] None
                        (snd (stage_cache demo_env (cache_key ["A"%string; "B"%string])
                                demo_world))))
                demo_route [] [(0, 0); (1, 0)]%R
                eq_refl ltac:(simpl; lia) eq_refl eq_refl ltac:(simpl; lia) eq_refl eq_refl)
    as [_ M].
  split.
  { unfold demo_world_after. rewrite M. cbn [kv_opens demo_env kv_set_rejects snd kv trace].
    split; [reflexivity |]. split; [rewrite lookup_insert_eq; reflexivity | reflexivity]. }
  split.
  { destruct (Hit demo_request demo_world_after ["A"%string; "B"%string] demo_world_after
                (mkEntry demo_response (cachedAt demo_response + 86400000)) eq_refl eq_refl
                ltac:(simpl; lia) eq_refl) as [H _]; [| exact H].
    unfold demo_world_after. rewrite M. cbn [kv_opens demo_env kv_set_rejects snd kv].
    rewrite lookup_insert_eq. reflexivity. }
  pose proof (Closed demo_request demo_world ["A"%string; "B"%string] demo_world false
                (snd (stage_cache demo_env_no_kv (cache_key ["A"%string; "B"%string])
                        demo_world))
                [mkResolved "A" "A" 0 0; mkResolved "B" "B" 0 1]
                (snd (geocode_loop demo_env_no_kv 0 ["A"%string; "B"%string] [] None
                        (snd (stage_cache demo_env_no_kv
                                (cache_key ["A"%string; "B"%string]) demo_world))))
                demo_route [] [(0, 0); (1, 0)]%R
                eq_refl ltac:(simpl; lia) eq_refl eq_refl ltac:(simpl; lia) eq_refl eq_refl)
    as [_ C].
  cbv zeta. rewrite C. split; reflexivity.
Defined.

(** Without a store the route is returned and nothing is kept, and a
    rejected write loses the route. *)
Lemma route_not_stored :
  (let first := handler demo_env_no_kv (mkRequest POST (Some demo_request)) demo_world in
   fst first = mkHttp 200 (RouteBody demo_response) /\
   kv (snd first) = ∅ /\
   Forall (fun e => forall k ttl, e <> EvKvSet k ttl) (trace (snd first)) /\
   geocodes (added (snd first)
               (snd (handler demo_env_no_kv (mkRequest POST (Some demo_request))
                       (snd first)))) = 2%nat) /\
  (let out := handler demo_env_set_rejects (mkRequest POST (Some demo_request)) demo_world in
   fst out = mkHttp 500 (ErrorBody "Internal server error" (Some (message KvError))) /\
   kv (snd out) = ∅).
Proof.
  split.
  - cbv zeta. split; [reflexivity |]. split; [reflexivity |]. split.
    + repeat constructor; discriminate.
    + reflexivity.
  - cbv zeta. split; reflexivity.
Qed.

End EdgeExamples.

(** C2.  The client holds the anchor fixed: in [geocodeStopSequence] the
    anchor of every stop is the coordinate of the first stop resolved before
    it, and that coordinate stays the same as more results arrive.  The
    handler moves it: in its loop the anchor of every stop is the
    coordinate of the stop resolved last, and on three stops, where the
    third has a candidate at the first and one at the second, it picks the
    candidate at the second, where the fixed anchor picks the one at the
    first. *)
Theorem anchor_of_each_resolver :
  (forall nominatim names st,
     GeoValidator.geocodeStopSequence nominatim names st
     = GeoValidator.resolveSequence_spec nominatim names st) /\
  (forall results more a,
     GeoValidator.first_resolved results = Some a ->
     GeoValidator.first_resolved (results ++ more) = Some a) /\
  (forall env stop_names w,
     EdgeResolver.geocode_loop env 0 stop_names [] None w
     = EdgeResolver.loop_with env EdgeResolver.latest_anchor 0 stop_names [] w) /\
  fst (EdgeResolver.geocode_loop EdgeResolver.demo_env 0 ["A"; "B"; "C"] [] None
         EdgeResolver.demo_world)
  <> fst (EdgeResolver.loop_with EdgeResolver.demo_env EdgeResolver.first_anchor 0
            ["A"; "B"; "C"] [] EdgeResolver.demo_world).
Proof.
  split; [apply geocodeStopSequence_fixed_anchor |].
  split; [apply first_resolved_stable |].
  split; [intros env stop_names w; apply (geocode_loop_latest env stop_names 0 [] w) |].
  pose proof (pick_best_near_first (EdgeResolver.candidate_at 0 0 "C near A")
                (EdgeResolver.candidate_at 0 1 "C near B")) as Hfirst.
  pose proof (pick_best_near_second (EdgeResolver.candidate_at 0 0 "C near A")
                (EdgeResolver.candidate_at 0 1 "C near B") haversine_one_degree) as Hlast.
  cbv [EdgeResolver.candidate_at Nominatim.cand_lat Nominatim.cand_lon] in Hfirst, Hlast.
  cbv -[Nominatim.pick_best IZR]. rewrite !pick_best_single.
  cbv -[Nominatim.pick_best IZR]. rewrite Hfirst, Hlast.
  cbv -[IZR]. intros E. discriminate E.
Qed.

(** * Further properties *)

(** ** The route worker *)

Section WorkerMore.
Import RouteWorker.
Local Open Scope R_scope.

Lemma flip_flip (c : R * R) : flip (flip c) = c.
Proof. destruct c. reflexivity. Qed.

(** X1.  [parseGeometry] swaps the two numbers of every coordinate and changes
    nothing else: the result is as long as the input, its i-th point is the
    i-th coordinate with latitude and longitude exchanged, parsing the result
    again gives the input back, and the kilometres returned are the metres
    received divided by a thousand. *)
Theorem parseGeometry_flips (coordinates : list (R * R)) (m m' : R) :
  length (fst (parseGeometry coordinates m)) = length coordinates /\
  fst (parseGeometry (fst (parseGeometry coordinates m)) m') = coordinates /\
  (forall i c, coordinates !! i = Some c ->
               fst (parseGeometry coordinates m) !! i = Some (snd c, fst c)) /\
  snd (parseGeometry coordinates m) * 1000 = m.
Proof.
  unfold parseGeometry. simpl. split; [apply length_map |]. split; [| split].
  - rewrite map_map. rewrite <- (map_id coordinates) at 2.
    apply map_ext. intros c. apply flip_flip.
  - intros i c H. rewrite list_lookup_fmap, H. reflexivity.
  - field.
Qed.

Lemma arrows_loop_indices (fuel : nat) (pts : list LatLon) (s i : Z) (acc : list Arrow) :
  (1 <= s)%Z -> (0 <= i)%Z ->
  (Z.of_nat (length pts) - 1 - i <= Z.of_nat fuel)%Z ->
  arrows_loop fuel pts s i acc
  = acc ++ map (arrow_at pts)
             (map (fun k => (i + s * Z.of_nat k)%Z)
                  (seq 0 (Z.to_nat ((Z.of_nat (length pts) - 2 - i + s) / s)))).
Proof.
  revert i acc. induction fuel as [| fuel IH]; intros i acc Hs Hi Hfuel.
  - simpl.
    assert (H : ((Z.of_nat (length pts) - 2 - i + s) / s <= 0)%Z).
    { apply Z.lt_succ_r. apply Z.div_lt_upper_bound; lia. }
    replace (Z.to_nat _) with 0%nat by lia. simpl. rewrite app_nil_r. reflexivity.
  - simpl. destruct (Z.ltb_spec i (Z.of_nat (length pts) - 1)) as [Hlt | Hge].
    + rewrite IH by lia.
      replace (Z.of_nat (length pts) - 2 - (i + s) + s)%Z
        with (Z.of_nat (length pts) - 2 - i)%Z by lia.
      rewrite (div_shift (Z.of_nat (length pts) - 2 - i) s) by lia.
      assert (0 <= (Z.of_nat (length pts) - 2 - i) / s)%Z
        by (apply Z.div_pos; lia).
      replace (Z.to_nat ((Z.of_nat (length pts) - 2 - i) / s + 1))
        with (S (Z.to_nat ((Z.of_nat (length pts) - 2 - i) / s))) by lia.
      rewrite <- app_assoc. f_equal. cbn [seq map app].
      f_equal.
      * unfold arrow_at. cbv zeta. rewrite Z.mul_0_r, Z.add_0_r. reflexivity.
      * rewrite <- seq_shift, !map_map. apply map_ext. intros k. f_equal. lia.
    + assert (H : ((Z.of_nat (length pts) - 2 - i + s) / s <= 0)%Z).
      { apply Z.lt_succ_r. apply Z.div_lt_upper_bound; lia. }
      replace (Z.to_nat _) with 0%nat by lia. simpl. rewrite app_nil_r. reflexivity.
Qed.

Lemma computeArrowBearings_samples (pts : list LatLon) :
  computeArrowBearings pts = map (arrow_at pts) (sample_indices pts).
Proof.
  unfold computeArrowBearings, sample_indices.
  pose proof (stride_pos pts) as Hs.
  rewrite arrows_loop_indices by lia. simpl.
  replace (Z.of_nat (length pts) - 2 - stride pts + stride pts)%Z
    with (Z.of_nat (length pts) - 2)%Z by lia.
  rewrite !map_map. apply map_ext. intros k. f_equal. lia.
Qed.

Lemma sample_index_bounds (pts : list LatLon) (i : Z) :
  In i (sample_indices pts) ->
  (1 <= i)%Z /\ (i < Z.of_nat (length pts) - 1)%Z /\ (i mod stride pts = 0)%Z.
Proof.
  unfold sample_indices. intros H. apply in_map_iff in H as (k & <- & Hk).
  apply in_seq in Hk. pose proof (stride_pos pts) as Hs.
  set (n := Z.of_nat (length pts)) in *. set (s := stride pts) in *.
  assert (Hq : (0 <= (n - 2) / s)%Z \/ ((n - 2) / s < 0)%Z) by lia.
  destruct Hq as [Hq | Hq]; [| lia].
  assert (Hk' : (Z.of_nat (S k) <= (n - 2) / s)%Z) by lia.
  assert (Hm : (s * ((n - 2) / s) <= n - 2)%Z) by (apply Z.mul_div_le; lia).
  split; [nia |]. split; [nia |].
  rewrite Z.mul_comm. apply Z.mod_mul. lia.
Qed.

(** X2.  The arrows of [computeArrowBearings] are the arrows at the multiples of
    the stride, in order.  Every index visited is at least 1, below the last
    index and a multiple of the stride, so every arrow sits on a point of the
    input (never the first or the last) with a bearing in [0, 360); up to two
    points give no arrow. *)
Theorem arrows_sit_on_samples (pts : list LatLon) :
  computeArrowBearings pts = map (arrow_at pts) (sample_indices pts) /\
  (forall i, In i (sample_indices pts) ->
     (1 <= i < Z.of_nat (length pts) - 1)%Z /\ (i mod stride pts = 0)%Z) /\
  (forall a, In a (computeArrowBearings pts) ->
     In (arrow_lat a, arrow_lon a) pts /\ 0 <= arrow_bearing a < 360) /\
  ((length pts <= 2)%nat -> computeArrowBearings pts = []).
Proof.
  split; [apply computeArrowBearings_samples |]. split; [| split].
  - intros i Hi. destruct (sample_index_bounds pts i Hi) as (H1 & H2 & H3). lia.
  - intros a Ha. rewrite computeArrowBearings_samples in Ha.
    apply in_map_iff in Ha as (i & <- & Hi).
    destruct (sample_index_bounds pts i Hi) as (H1 & H2 & _).
    unfold arrow_at. simpl. split; [| apply bearing_range].
    rewrite <- surjective_pairing. apply nth_In. lia.
  - intros Hlen. apply length_zero_iff_nil. rewrite computeArrowBearings_length.
    pose proof (stride_pos pts).
    assert ((Z.of_nat (length pts) - 2) / stride pts <= 0)%Z; [| lia].
    apply Z.div_le_upper_bound; lia.
Qed.

End WorkerMore.

Section WorkerMore2.
Import RouteWorker.
Local Open Scope R_scope.

Lemma rem_360_low (v : R) : 0 <= v < 360 -> JsMath.rem v 360 = v.
Proof.
  intros [Hlo Hhi]. unfold JsMath.rem, JsMath.trunc.
  destruct (Rle_dec 0 (v / 360)) as [_ | n]; [| exfalso; apply n; lra].
  replace (Int_part (v / 360)) with 0%Z; [simpl; lra |].
  apply Int_part_spec. simpl. lra.
Qed.

Lemma rem_360_high (v : R) : 360 <= v < 720 -> JsMath.rem v 360 = v - 360.
Proof.
  intros [Hlo Hhi]. unfold JsMath.rem, JsMath.trunc.
  destruct (Rle_dec 0 (v / 360)) as [_ | n]; [| exfalso; apply n; lra].
  replace (Int_part (v / 360)) with 1%Z; [simpl; lra |].
  apply Int_part_spec. simpl. lra.
Qed.

Lemma atan2_zero_pos (x : R) : 0 < x -> JsMath.atan2 0 x = 0.
Proof.
  intros Hx. rewrite atan2_pos_x by exact Hx.
  replace (0 / x) with 0 by (unfold Rdiv; ring). apply atan_0.
Qed.

Lemma atan2_zero_neg (x : R) : x < 0 -> JsMath.atan2 0 x = PI.
Proof.
  intros Hx. unfold JsMath.atan2.
  destruct (Rlt_dec 0 x); [lra |]. destruct (Rlt_dec x 0); [| lra].
  destruct (Rle_dec 0 0); [| lra].
  replace (0 / x) with 0 by (unfold Rdiv; ring). rewrite atan_0. ring.
Qed.

Lemma atan2_pos_zero (y : R) : 0 < y -> JsMath.atan2 y 0 = PI / 2.
Proof.
  intros Hy. unfold JsMath.atan2.
  destruct (Rlt_dec 0 0); [lra |]. destruct (Rlt_dec 0 0); [lra |].
  destruct (Rlt_dec 0 y); [reflexivity | lra].
Qed.

Lemma atan2_neg_zero (y : R) : y < 0 -> JsMath.atan2 y 0 = - (PI / 2).
Proof.
  intros Hy. unfold JsMath.atan2.
  destruct (Rlt_dec 0 0); [lra |]. destruct (Rlt_dec 0 0); [lra |].
  destruct (Rlt_dec 0 y); [lra |]. destruct (Rlt_dec y 0); [reflexivity | lra].
Qed.

Lemma bearing_north (p q : LatLon) : northward p q -> bearing p q = 0.
Proof.
  intros [Hlon [Hlo Hhi]]. unfold bearing. cbv zeta. rewrite Hlon.
  pose proof PI_RGT_0 as Hpi.
  replace ((snd p - snd p) * PI / 180) with 0 by field.
  rewrite sin_0, cos_0, Rmult_0_l, Rmult_1_r.
  replace (cos (fst p * PI / 180) * sin (fst q * PI / 180)
           - sin (fst p * PI / 180) * cos (fst q * PI / 180))
    with (sin (fst q * PI / 180 - fst p * PI / 180)) by (rewrite sin_minus; ring).
  assert (Hs : 0 < sin (fst q * PI / 180 - fst p * PI / 180)).
  { apply sin_gt_0; nra. }
  rewrite atan2_zero_pos by exact Hs.
  replace (0 * 180 / PI + 360) with 360 by (field; lra).
  rewrite rem_360_high by lra. ring.
Qed.

Lemma bearing_south (p q : LatLon) :
  snd q = snd p -> 0 < fst p - fst q < 180 -> bearing p q = 180.
Proof.
  intros Hlon [Hlo Hhi]. unfold bearing. cbv zeta. rewrite Hlon.
  pose proof PI_RGT_0 as Hpi.
  replace ((snd p - snd p) * PI / 180) with 0 by field.
  rewrite sin_0, cos_0, Rmult_0_l, Rmult_1_r.
  replace (cos (fst p * PI / 180) * sin (fst q * PI / 180)
           - sin (fst p * PI / 180) * cos (fst q * PI / 180))
    with (sin (fst q * PI / 180 - fst p * PI / 180)) by (rewrite sin_minus; ring).
  assert (Hs : sin (fst q * PI / 180 - fst p * PI / 180) < 0).
  { replace (fst q * PI / 180 - fst p * PI / 180)
      with (- (fst p * PI / 180 - fst q * PI / 180)) by ring.
    rewrite sin_neg.
    assert (0 < sin (fst p * PI / 180 - fst q * PI / 180)) by (apply sin_gt_0; nra).
    lra. }
  rewrite atan2_zero_neg by exact Hs.
  replace (PI * 180 / PI + 360) with 540 by (field; lra).
  rewrite rem_360_high by lra. ring.
Qed.

Lemma bearing_east (l1 l2 : R) : 0 < l2 - l1 < 180 -> bearing (0, l1) (0, l2) = 90.
Proof.
  intros [Hlo Hhi]. unfold bearing. cbv zeta. simpl.
  pose proof PI_RGT_0 as Hpi.
  replace (0 * PI / 180) with 0 by field.
  rewrite sin_0, cos_0.
  replace (1 * 0 - 0 * 1 * cos ((l2 - l1) * PI / 180)) with 0 by ring.
  rewrite Rmult_1_r.
  rewrite atan2_pos_zero by (apply sin_gt_0; nra).
  replace (PI / 2 * 180 / PI + 360) with 450 by (field; lra).
  rewrite rem_360_high by lra. ring.
Qed.

Lemma bearing_west (l1 l2 : R) : 0 < l1 - l2 < 180 -> bearing (0, l1) (0, l2) = 270.
Proof.
  intros [Hlo Hhi]. unfold bearing. cbv zeta. simpl.
  pose proof PI_RGT_0 as Hpi.
  replace (0 * PI / 180) with 0 by field.
  rewrite sin_0, cos_0.
  replace (1 * 0 - 0 * 1 * cos ((l2 - l1) * PI / 180)) with 0 by ring.
  rewrite Rmult_1_r.
  assert (Hs : sin ((l2 - l1) * PI / 180) < 0).
  { replace ((l2 - l1) * PI / 180) with (- ((l1 - l2) * PI / 180)) by field.
    rewrite sin_neg.
    assert (0 < sin ((l1 - l2) * PI / 180)) by (apply sin_gt_0; nra). lra. }
  rewrite atan2_neg_zero by exact Hs.
  replace (- (PI / 2) * 180 / PI + 360) with 270 by (field; lra).
  rewrite rem_360_low by lra. reflexivity.
Qed.

(** X3.  The bearing of the worker on the cardinal directions: a point due
    north of another has bearing 0 and one due south 180 (same longitude,
    less than 180 degrees apart); on the equator a point to the east has
    bearing 90 and one to the west 270. *)
Theorem bearing_cardinal (p q : LatLon) (l1 l2 : R) :
  (snd q = snd p -> 0 < fst q - fst p < 180 -> bearing p q = 0) /\
  (snd q = snd p -> 0 < fst p - fst q < 180 -> bearing p q = 180) /\
  (0 < l2 - l1 < 180 -> bearing (0, l1) (0, l2) = 90) /\
  (0 < l1 - l2 < 180 -> bearing (0, l1) (0, l2) = 270).
Proof.
  split; [intros H1 H2; apply bearing_north; split; assumption |].
  split; [apply bearing_south |]. split; [apply bearing_east | apply bearing_west].
Qed.

Lemma adjacent_all_nth {A : Type} (P : A -> A -> Prop) (l : list A) (d : A) (i : nat) :
  adjacent_all P l -> (S i < length l)%nat -> P (nth i l d) (nth (S i) l d).
Proof.
  revert i. induction l as [| a [| b rest] IH]; intros i H Hi; simpl in Hi; try lia.
  destruct H as [Hab Hrest]. destruct i as [| i]; [exact Hab |].
  apply (IH i Hrest). simpl. lia.
Qed.

(** X4.  On a path that runs due north, every point on the meridian of the one
    before and north of it, every arrow of [computeArrowBearings] has
    bearing 0. *)
Theorem north_path_bearings (pts : list LatLon) :
  adjacent_all northward pts ->
  Forall (fun a => arrow_bearing a = 0) (computeArrowBearings pts).
Proof.
  intros H. rewrite computeArrowBearings_samples. apply Forall_map.
  apply Forall_forall. intros i Hi. apply list_elem_of_In in Hi.
  destruct (sample_index_bounds pts i Hi) as (H1 & H2 & _).
  unfold arrow_at. simpl. apply bearing_north.
  replace (Z.to_nat i) with (S (Z.to_nat (i - 1))) by lia.
  apply adjacent_all_nth; [exact H | lia].
Qed.

End WorkerMore2.

Section WorkerMore3.
Import RouteWorker.
Local Open Scope R_scope.

Lemma haversineChain_from_total (total : R) (coords : list LatLon) :
  haversineChain_from total coords = total + haversineChain coords.
Proof.
  unfold haversineChain. revert total.
  induction coords as [| c1 [| c2 rest] IH]; intros total; simpl; try lra.
  simpl in IH. rewrite (IH (total + segment_km c1 c2)), (IH (0 + segment_km c1 c2)). lra.
Qed.

Lemma haversineChain_cons (c1 c2 : LatLon) (rest : list LatLon) :
  haversineChain (c1 :: c2 :: rest) = segment_km c1 c2 + haversineChain (c2 :: rest).
Proof.
  unfold haversineChain at 1.
  change (haversineChain_from 0 (c1 :: c2 :: rest))
    with (haversineChain_from (0 + segment_km c1 c2) (c2 :: rest)).
  rewrite haversineChain_from_total. lra.
Qed.




Lemma segment_km_equator (l1 l2 : R) :
  0 <= l2 - l1 < 180 -> segment_km (0, l1) (0, l2) = 6371 * ((l2 - l1) * PI / 180).
Proof.
  intros [Hlo Hhi]. unfold segment_km. simpl.
  pose proof PI_RGT_0 as Hpi.
  set (h := (l2 - l1) * PI / 180 / 2).
  assert (Hh : 0 <= h < PI / 2) by (unfold h; split; nra).
  replace ((0 - 0) * PI / 180 / 2) with 0 by field.
  replace (0 * PI / 180) with 0 by field.
  rewrite sin_0, cos_0.
  replace (0 * 0 + 1 * 1 * sin h * sin h) with ((sin h)²) by (unfold Rsqr; ring).
  assert (Hs : 0 <= sin h) by (apply sin_ge_0; lra).
  assert (Hc : 0 < cos h) by (apply cos_gt_0; lra).
  rewrite sqrt_Rsqr by exact Hs.
  replace (1 - (sin h)²) with ((cos h)²) by (pose proof (sin2_cos2 h); lra).
  rewrite sqrt_Rsqr by lra.
  rewrite atan2_pos_x by exact Hc.
  fold (tan h). rewrite atan_tan by lra.
  unfold h. field.
Qed.

Lemma last_default {A : Type} (l : list A) (a d d' : A) :
  List.last (a :: l) d = List.last (a :: l) d'.
Proof.
  revert a. induction l as [| b l IH]; intros a; [reflexivity |].
  change (List.last (a :: b :: l) d) with (List.last (b :: l) d).
  change (List.last (a :: b :: l) d') with (List.last (b :: l) d'). apply IH.
Qed.

(** X6.  Along the equator, for points that keep going east in steps of less
    than 180 degrees, [haversineChain] is the arc between the first and the
    last point: 6371 km times their difference of longitude in radians. *)
Theorem haversineChain_equator (p : LatLon) (rest : list LatLon) :
  adjacent_all eastward_on_equator (p :: rest) ->
  haversineChain (p :: rest)
  = 6371 * ((snd (List.last (p :: rest) p) - snd p) * PI / 180).
Proof.
  revert p. induction rest as [| q rest IH]; intros p H.
  - unfold haversineChain. simpl. lra.
  - destruct H as [(Hp & Hq & Hd) Hrest].
    rewrite haversineChain_cons, (IH q Hrest).
    change (List.last (p :: q :: rest) p) with (List.last (q :: rest) p).
    rewrite (last_default rest q p q).
    destruct p as [pa pl], q as [qa ql]. simpl in Hp, Hq, Hd. subst.
    rewrite segment_km_equator by exact Hd. simpl snd. lra.
Qed.

End WorkerMore3.

Section WorkerMore4.
Import RouteWorker.
Local Open Scope R_scope.

Lemma gps_dist_same_place (a b : GpsFix) :
  lat b = lat a -> lon b = lon a -> gps_dist a b = 0.
Proof.
  intros Hla Hlo. unfold gps_dist. cbv zeta. rewrite Hla, Hlo.
  replace ((lat a - lat a) * PI / 180 / 2) with 0 by field.
  replace ((lon a - lon a) * PI / 180 / 2) with 0 by field.
  rewrite sin_0.
  replace (0 * 0 + cos (lat a * PI / 180) * cos (lat a * PI / 180) * 0 * 0) with 0 by ring.
  rewrite Rminus_0_r, sqrt_0, sqrt_1, atan2_zero_one. ring.
Qed.




Lemma greedy_keep_stationary (md : R) (kept : GpsFix) (rest : list GpsFix) :
  0 < md -> Forall (fun f => lat f = lat kept /\ lon f = lon kept) rest ->
  greedy_keep md kept rest = [].
Proof.
  intros Hmd F. induction F as [| cur rest [Hla Hlo] F IH]; simpl; [reflexivity |].
  rewrite (gps_dist_same_place kept cur Hla Hlo).
  destruct (Rge_dec 0 md); [lra | exact IH].
Qed.


(** X8.  With a positive threshold, or the default one of 20 m, a vehicle that
    reports the same place again and again is reduced to its first fix:
    the distance the filter computes between equal coordinates is 0, below
    the threshold. *)
Theorem filterNoisyGps_stationary (rest : list GpsFix) (first : GpsFix) (md : option R) :
  0 < default 20 md ->
  Forall (fun f => lat f = lat first /\ lon f = lon first) rest ->
  filterNoisyGps (first :: rest) md = [first].
Proof.
  intros Hm F. rewrite filterNoisyGps_greedy. simpl.
  rewrite greedy_keep_stationary; [reflexivity | | exact F].
  destruct md; exact Hm.
Qed.

End WorkerMore4.

Section WorkerMoreExamples.
Import RouteWorker.
Local Open Scope R_scope.

(** Four points one degree apart on a meridian: both arrows point north. *)
Lemma north_path_bearings_witness :
  adjacent_all northward [(0, 0); (1, 0); (2, 0); (3, 0)] /\
  Forall (fun a => arrow_bearing a = 0)
         (computeArrowBearings [(0, 0); (1, 0); (2, 0); (3, 0)]).
Proof.
  assert (H : adjacent_all northward [(0, 0); (1, 0); (2, 0); (3, 0)]).
  { unfold northward. simpl. repeat split; lra. }
  split; [exact H |]. exact (north_path_bearings [(0, 0); (1, 0); (2, 0); (3, 0)] H).
Defined.

(** Three fixes at the same place, the later ones with a time stamp: only
    the first is kept. *)
Lemma filterNoisyGps_stationary_witness :
  0 < default 20 (@None R) /\
  Forall (fun f => lat f = lat (fix_at 13 80) /\ lon f = lon (fix_at 13 80))
         [mkFix 13 80 (Some 1); mkFix 13 80 (Some 2)] /\
  filterNoisyGps [fix_at 13 80; mkFix 13 80 (Some 1); mkFix 13 80 (Some 2)] None
  = [fix_at 13 80].
Proof.
  assert (H : 0 < default 20 (@None R)) by (simpl; lra).
  assert (F : Forall (fun f => lat f = lat (fix_at 13 80) /\ lon f = lon (fix_at 13 80))
                     [mkFix 13 80 (Some 1); mkFix 13 80 (Some 2)]).
  { repeat constructor. }
  split; [exact H |]. split; [exact F |].
  exact (filterNoisyGps_stationary [mkFix 13 80 (Some 1); mkFix 13 80 (Some 2)]
           (fix_at 13 80) None H F).
Defined.

(** Three points on the equator, at longitudes 0, 1 and 3: three degrees
    of arc. *)
Lemma haversineChain_equator_witness :
  adjacent_all eastward_on_equator [(0, 0); (0, 1); (0, 3)] /\
  haversineChain [(0, 0); (0, 1); (0, 3)] = 6371 * ((3 - 0) * PI / 180).
Proof.
  assert (H : adjacent_all eastward_on_equator [(0, 0); (0, 1); (0, 3)]).
  { unfold eastward_on_equator. simpl. repeat split; lra. }
  split; [exact H |]. exact (haversineChain_equator (0, 0) [(0, 1); (0, 3)] H).
Defined.

End WorkerMoreExamples.

(** ** The marker animation *)

Section AnimationFacts.
Import MarkerAnimation.
Local Open Scope R_scope.

(** X9.  The easing curve of [animateMarkerTo] starts at 0, passes through 1/2 at
    half time and ends at 1; it is symmetric about that point
    (ease (1 - t) = 1 - ease t), stays within [0, 1] on [0, 1] and never
    decreases there, so the marker never moves backwards or overshoots. *)
Theorem ease_curve (s t : R) :
  ease 0 = 0 /\ ease (1 / 2) = 1 / 2 /\ ease 1 = 1 /\
  ease (1 - t) = 1 - ease t /\
  (0 <= t <= 1 -> 0 <= ease t <= 1) /\
  (0 <= s <= t -> t <= 1 -> ease s <= ease t).
Proof.
  unfold ease. repeat split.
  - destruct (Rlt_dec 0 (1 / 2)); lra.
  - destruct (Rlt_dec (1 / 2) (1 / 2)); lra.
  - destruct (Rlt_dec 1 (1 / 2)); lra.
  - destruct (Rlt_dec (1 - t) (1 / 2)), (Rlt_dec t (1 / 2)); nra.
  - destruct (Rlt_dec t (1 / 2)); nra.
  - destruct (Rlt_dec t (1 / 2)); nra.
  - intros [Hs Hst] Ht. destruct (Rlt_dec s (1 / 2)), (Rlt_dec t (1 / 2)); nra.
Qed.

Lemma progress_le_1 (j : Job) (now : R) : progress j now <= 1.
Proof. unfold progress. apply Rmin_r. Qed.




(** *** The callbacks of a frame *)

Lemma frame_fold (now : R) (st : Stage) :
  frame now st =
  fold_left (frame_step now) (callbacks st)
            (mkStage (animations st) [] (next_handle st) (markers st)).
Proof. reflexivity. Qed.

Lemma step_pending (j : Job) (now : R) (s : Stage) :
  pending (step j now s) =
  pending s ++ (if Rlt_dec (progress j now) 1 then [j] else []).
Proof.
  unfold step, pending. destruct (Rlt_dec (progress j now) 1); cbn.
  - rewrite map_app. reflexivity.
  - rewrite app_nil_r. reflexivity.
Qed.

Lemma fold_pending (now : R) (l : list (nat * Job)) (s : Stage) :
  pending (fold_left (frame_step now) l s) =
  pending s ++ List.filter (unfinished now) (map snd l).
Proof.
  revert s. induction l as [|c l IH]; intros s; cbn [fold_left map List.filter].
  - rewrite app_nil_r. reflexivity.
  - rewrite IH. unfold frame_step. rewrite step_pending.
    assert (E : unfinished now (snd c) = if Rlt_dec (progress (snd c) now) 1 then true else false)
      by reflexivity.
    destruct (Rlt_dec (progress (snd c) now) 1); rewrite E.
    + rewrite <- app_assoc. reflexivity.
    + rewrite app_nil_r. reflexivity.
Qed.

Lemma step_markers (j : Job) (now : R) (s : Stage) (m : nat) :
  markers (step j now s) m =
  if on_marker m j then place j (ease (progress j now)) else markers s m.
Proof.
  unfold step, on_marker. rewrite Nat.eqb_sym.
  destruct (Rlt_dec (progress j now) 1); cbn; unfold move; reflexivity.
Qed.

Lemma last_on_cons (m : nat) (j : Job) (l : list Job) :
  last_on m (j :: l) =
  match last_on m l with
  | Some j' => Some j'
  | None => if on_marker m j then Some j else None
  end.
Proof.
  unfold last_on. cbn [List.filter]. destruct (on_marker m j); [|destruct (last _); reflexivity].
  destruct (List.filter (on_marker m) l) as [|a r] eqn:E; [reflexivity|].
  rewrite last_cons. destruct (last (a :: r)) eqn:E2; [reflexivity|].
  apply last_None in E2. discriminate.
Qed.

Lemma fold_markers (now : R) (l : list (nat * Job)) (s : Stage) (m : nat) :
  markers (fold_left (frame_step now) l s) m =
  match last_on m (map snd l) with
  | Some j => place j (ease (progress j now))
  | None => markers s m
  end.
Proof.
  revert s. induction l as [|c l IH]; intros s; cbn [fold_left map].
  - reflexivity.
  - rewrite IH, last_on_cons. destruct (last_on m (map snd l)); [reflexivity|].
    unfold frame_step. rewrite step_markers. destruct (on_marker m (snd c)); reflexivity.
Qed.

(** X10.  One display frame, for animations of a duration other than zero:
    the callbacks that wait afterwards are those of the animations that have
    not reached their end, in their old order; a marker is where the last
    callback that moves it put it, and a marker that no waiting callback
    moves stays where it was. *)
Theorem frame_moves_and_reschedules (now : R) (st : Stage) (m : nat) :
  Forall (fun j => job_duration j <> 0) (pending st) ->
  pending (frame now st) = List.filter (unfinished now) (pending st) /\
  markers (frame now st) m =
    match last_on m (pending st) with
    | Some j => place j (ease (progress j now))
    | None => markers st m
    end.
Proof.
  intros _. rewrite frame_fold. split.
  - rewrite fold_pending. reflexivity.
  - rewrite fold_markers. reflexivity.
Qed.

(** Half-way through its only animation the marker is half-way there, and
    the animation goes on. *)
Lemma frame_moves_and_reschedules_witness :
  let st := animateMarkerTo 0 10 20 None None 0 (empty_stage (fun _ => (0, 0))) in
  pending (frame 1400 st) = List.filter (unfinished 1400) (pending st) /\
  markers (frame 1400 st) 0%nat =
    match last_on 0 (pending st) with
    | Some j => place j (ease (progress j 1400))
    | None => markers st 0%nat
    end.
Proof.
  intros st. apply (frame_moves_and_reschedules 1400 st 0).
  repeat constructor. cbn. lra.
Defined.

(** *** Consistency of the bookkeeping *)

Lemma consistent_markers (st : Stage) (mk : nat -> R * R) :
  consistent st ->
  consistent (mkStage (animations st) (callbacks st) (next_handle st) mk).
Proof. intros [H1 H2 H3 H4]. constructor; assumption. Qed.

Lemma handle_below (st : Stage) (h : nat) (j : Job) :
  consistent st -> In (h, j) (callbacks st) -> (h < next_handle st)%nat.
Proof. intros C Hin. eapply below_next; [exact C|]. eapply recorded; eassumption. Qed.

Lemma register_consistent (st : Stage) (j : Job) (mk : nat -> R * R) :
  consistent st ->
  (forall c, In c (callbacks st) -> job_id (snd c) <> job_id j) ->
  consistent (mkStage (<[job_id j := next_handle st]> (animations st))
                      (callbacks st ++ [(next_handle st, j)])
                      (S (next_handle st)) mk).
Proof.
  intros C Hfresh. constructor; cbn [animations callbacks next_handle].
  - intros h j' Hin. apply in_app_or in Hin. destruct Hin as [Hin|[Heq|[]]].
    + rewrite lookup_insert_ne; [eapply recorded; eassumption|].
      intros E. apply (Hfresh _ Hin). cbn. congruence.
    + inversion Heq; subst. apply lookup_insert_eq.
  - intros id h Hl. destruct (decide (job_id j = id)) as [E|Hne].
    + rewrite <- E, lookup_insert_eq in Hl. inversion Hl. lia.
    + rewrite lookup_insert_ne in Hl by exact Hne.
      pose proof (below_next st C _ _ Hl). lia.
  - intros id1 id2 h Hl1 Hl2.
    destruct (decide (job_id j = id1)) as [E1|N1], (decide (job_id j = id2)) as [E2|N2].
    + congruence.
    + subst id1. rewrite lookup_insert_eq in Hl1. inversion Hl1; subst h.
      rewrite lookup_insert_ne in Hl2 by exact N2.
      pose proof (below_next st C _ _ Hl2). lia.
    + subst id2. rewrite lookup_insert_eq in Hl2. inversion Hl2; subst h.
      rewrite lookup_insert_ne in Hl1 by exact N1.
      pose proof (below_next st C _ _ Hl1). lia.
    + rewrite lookup_insert_ne in Hl1 by exact N1.
      rewrite lookup_insert_ne in Hl2 by exact N2.
      eapply unshared; eassumption.
  - rewrite map_app. cbn [map fst]. apply NoDup_app. split; [apply distinct_handles, C|].
    split; [|apply NoDup_singleton].
    intros h Hin Hh. apply list_elem_of_singleton in Hh. subst h.
    apply list_elem_of_In, in_map_iff in Hin. destruct Hin as [[h j'] [Hh Hin]].
    cbn in Hh. subst h. pose proof (handle_below st _ _ C Hin). lia.
Qed.

Lemma step_consistent (j : Job) (now : R) (st : Stage) :
  consistent st ->
  (forall c, In c (callbacks st) -> job_id (snd c) <> job_id j) ->
  consistent (step j now st).
Proof.
  intros C Hfresh. unfold step. destruct (Rlt_dec (progress j now) 1).
  - cbn. apply (register_consistent st j); assumption.
  - apply consistent_markers. exact C.
Qed.

Lemma step_callbacks (j : Job) (now : R) (st : Stage) (c : nat * Job) :
  In c (callbacks (step j now st)) -> In c (callbacks st) \/ snd c = j.
Proof.
  unfold step. destruct (Rlt_dec (progress j now) 1); cbn; [|tauto].
  intros Hin. apply in_app_or in Hin. destruct Hin as [Hin|[<-|[]]]; [tauto|]. right. reflexivity.
Qed.

Lemma fold_consistent (now : R) (l : list (nat * Job)) (s : Stage) :
  consistent s ->
  NoDup (map (fun c => job_id (snd c)) l) ->
  (forall c c', In c l -> In c' (callbacks s) -> job_id (snd c') <> job_id (snd c)) ->
  consistent (fold_left (frame_step now) l s).
Proof.
  revert s. induction l as [|c l IH]; intros s C Hnd Hdis; cbn [fold_left]; [exact C|].
  cbn [map] in Hnd. apply NoDup_cons in Hnd. destruct Hnd as [Hc Hnd].
  apply IH; [|exact Hnd|].
  - apply step_consistent; [exact C|]. intros c' Hin. apply (Hdis c c'); [left; reflexivity|exact Hin].
  - intros c1 c' Hin1 Hin'. apply step_callbacks in Hin'. destruct Hin' as [Hin'|E].
    + apply (Hdis c1 c'); [right; exact Hin1|exact Hin'].
    + unfold frame_step in E. rewrite E. intros E2. apply Hc.
      apply list_elem_of_In, in_map_iff. exists c1. split; [symmetry; exact E2|exact Hin1].
Qed.

Lemma one_job_per_track (st : Stage) :
  consistent st -> NoDup (map (fun c => job_id (snd c)) (callbacks st)).
Proof.
  intros [H1 _ _ H4]. induction (callbacks st) as [|[h j] l IH]; cbn [map]; [constructor|].
  cbn [map fst] in H4. apply NoDup_cons in H4. destruct H4 as [Hh H4].
  apply NoDup_cons. split.
  - intros Hin. apply list_elem_of_In, in_map_iff in Hin. destruct Hin as [[h' j'] [E Hin]].
    cbn [snd] in *. apply Hh. apply list_elem_of_In, in_map_iff. exists (h', j'). split; [|exact Hin].
    cbn. pose proof (H1 h j (or_introl eq_refl)) as A.
    pose proof (H1 h' j' (or_intror Hin)) as B. rewrite E in B. congruence.
  - apply IH; [|exact H4]. intros h' j' Hin. apply H1. right. exact Hin.
Qed.

Lemma frame_consistent (now : R) (st : Stage) : consistent st -> consistent (frame now st).
Proof.
  intros C. rewrite frame_fold. apply fold_consistent.
  - destruct C as [H1 H2 H3 H4]. constructor; cbn; try assumption.
    + intros h j [].
    + constructor.
  - apply one_job_per_track, C.
  - intros c c' _ [].
Qed.

Lemma cancelAnimation_consistent (id : string) (st : Stage) :
  consistent st -> consistent (cancelAnimation id st).
Proof.
  intros C. unfold cancelAnimation. destruct (animations st !! id) as [h|] eqn:E; [|exact C].
  constructor; cbn [animations callbacks next_handle cancelAnimationFrame].
  - intros h' j Hin. apply filter_In in Hin. destruct Hin as [Hin Hne].
    cbn [fst] in Hne. apply negb_true_iff, Nat.eqb_neq in Hne.
    pose proof (recorded st C _ _ Hin) as R0.
    rewrite lookup_delete_ne; [exact R0|]. intros E2. subst id. congruence.
  - intros id' h' Hl. apply lookup_delete_Some in Hl. destruct Hl as [_ Hl].
    eapply below_next; eassumption.
  - intros id1 id2 h' Hl1 Hl2. apply lookup_delete_Some in Hl1, Hl2.
    destruct Hl1 as [_ Hl1], Hl2 as [_ Hl2]. eapply unshared; eassumption.
  - pose proof (distinct_handles st C) as Hnd. revert Hnd. generalize (callbacks st).
    intros l. induction l as [|c l IH]; cbn [List.filter map]; intros Hnd; [constructor|].
    apply NoDup_cons in Hnd. destruct Hnd as [Hc Hnd].
    destruct (negb (fst c =? h)%nat); [|apply IH, Hnd].
    cbn [map]. apply NoDup_cons. split; [|apply IH, Hnd].
    intros Hin. apply Hc. apply list_elem_of_In, in_map_iff in Hin.
    destruct Hin as [c' [E' Hin]]. apply filter_In in Hin.
    apply list_elem_of_In, in_map_iff. exists c'. tauto.
Qed.

Lemma cancelAnimation_clears (id : string) (st : Stage) :
  consistent st ->
  forall c, In c (callbacks (cancelAnimation id st)) -> job_id (snd c) <> id.
Proof.
  intros C [h j] Hin E. cbn [snd] in E.
  pose proof (recorded _ (cancelAnimation_consistent id st C) _ _ Hin) as R0.
  rewrite E in R0. unfold cancelAnimation in R0.
  destruct (animations st !! id) eqn:E2.
  - cbn in R0. rewrite lookup_delete_eq in R0. discriminate.
  - congruence.
Qed.

Lemma animate_consistent (m : nat) (la lo d : R) (id : string) (start : R) (st : Stage) :
  consistent st -> consistent (animate m la lo d id start st).
Proof.
  intros C. unfold animate. cbn.
  apply (register_consistent (cancelAnimation id st)
           (mkJob m (markers (cancelAnimation id st) m) (la, lo) start d id)).
  - apply cancelAnimation_consistent, C.
  - cbn [job_id]. apply cancelAnimation_clears, C.
Qed.

Lemma run_op_consistent (st : Stage) (o : Op) : consistent st -> consistent (run_op st o).
Proof.
  intros C. destruct o; cbn [run_op].
  - apply animate_consistent, C.
  - apply cancelAnimation_consistent, C.
  - apply frame_consistent, C.
Qed.

Lemma run_consistent (ops : list Op) (st : Stage) : consistent st -> consistent (run ops st).
Proof.
  revert st. induction ops as [|o ops IH]; intros st C; [exact C|].
  cbn [run fold_left]. apply IH, run_op_consistent, C.
Qed.

Lemma empty_stage_consistent (positions : nat -> R * R) : consistent (empty_stage positions).
Proof.
  constructor; cbn.
  - intros h j [].
  - intros id h Hl. rewrite lookup_empty in Hl. discriminate.
  - intros id1 id2 h Hl. rewrite lookup_empty in Hl. discriminate.
  - constructor.
Qed.

(** X11.  Whatever sequence of [animateMarkerTo], [cancelAnimation] and frames
    has run, at most one callback waits for each track id, the handle that
    [_animations] records for the track is the handle of that callback, and no
    two waiting callbacks share a handle. *)
Theorem one_callback_per_track (positions : nat -> R * R) (ops : list Op) :
  let st := run ops (empty_stage positions) in
  NoDup (map job_id (pending st)) /\
  (forall h j, In (h, j) (callbacks st) -> animations st !! job_id j = Some h) /\
  NoDup (map fst (callbacks st)).
Proof.
  intros st. assert (C : consistent st) by apply run_consistent, empty_stage_consistent.
  split; [|split].
  - unfold pending. rewrite map_map. apply one_job_per_track, C.
  - apply recorded, C.
  - apply distinct_handles, C.
Qed.

(** *** Replacing and finishing an animation *)

Lemma on_track_true (id : string) (j : Job) : on_track id j = true <-> job_id j = id.
Proof. unfold on_track. apply String.eqb_eq. Qed.

Lemma cancelAnimation_markers (id : string) (st : Stage) :
  markers (cancelAnimation id st) = markers st.
Proof. unfold cancelAnimation. destruct (animations st !! id); reflexivity. Qed.

Lemma filter_map_snd (f : Job -> bool) (l : list (nat * Job)) :
  map snd (List.filter (fun c => f (snd c)) l) = List.filter f (map snd l).
Proof.
  induction l as [|c l IH]; cbn [List.filter map]; [reflexivity|].
  destruct (f (snd c)); cbn [map]; rewrite IH; reflexivity.
Qed.

Lemma cancelAnimation_pending (id : string) (st : Stage) :
  consistent st ->
  pending (cancelAnimation id st) =
  List.filter (fun j => negb (on_track id j)) (pending st).
Proof.
  intros C. unfold pending. rewrite <- filter_map_snd.
  unfold cancelAnimation. destruct (animations st !! id) as [h|] eqn:E.
  - cbn [callbacks cancelAnimationFrame]. f_equal. apply filter_ext_in.
    intros [h' j] Hin. cbn [fst snd]. f_equal.
    pose proof (recorded st C _ _ Hin) as R0.
    destruct (on_track id j) eqn:T.
    + apply on_track_true in T. apply Nat.eqb_eq. rewrite T in R0. congruence.
    + apply Nat.eqb_neq. intros ->. 
      assert (job_id j = id) as T2 by (eapply unshared; eassumption).
      apply on_track_true in T2. congruence.
  - f_equal. symmetry. apply forallb_filter_id. apply forallb_forall.
    intros [h' j] Hin. cbn [snd]. apply negb_true_iff.
    destruct (on_track id j) eqn:T; [|reflexivity].
    apply on_track_true in T. pose proof (recorded st C _ _ Hin) as R0. congruence.
Qed.

Lemma animate_pending (m : nat) (la lo d : R) (id : string) (start : R) (st : Stage) :
  consistent st ->
  pending (animate m la lo d id start st) =
  List.filter (fun j => negb (on_track id j)) (pending st) ++
  [mkJob m (markers st m) (la, lo) start d id].
Proof.
  intros C. unfold animate. cbn. unfold pending at 1. cbn [callbacks].
  rewrite map_app. cbn [map snd]. rewrite cancelAnimation_markers.
  f_equal. apply (cancelAnimation_pending id st C).
Qed.

Lemma animate_markers (m : nat) (la lo d : R) (id : string) (start : R) (st : Stage) :
  markers (animate m la lo d id start st) = markers st.
Proof. unfold animate. cbn. apply cancelAnimation_markers. Qed.

(** X12.  A call of [animateMarkerTo] removes the waiting callback of its track,
    if there is one, and appends one new animation that starts at the
    marker's current position; the callbacks of other tracks stay, and no
    marker moves before the next frame.  [cancelAnimation] on the track
    afterwards leaves exactly the callbacks of the other tracks.  The
    defaults are 2800 ms and the track 'bus'. *)
Theorem animateMarkerTo_replaces (positions : nat -> R * R) (ops : list Op)
    (m : nat) (toLat toLon : R) (durationMs : option R) (id : option string) (start : R) :
  let st := run ops (empty_stage positions) in
  let st' := animateMarkerTo m toLat toLon durationMs id start st in
  pending st' =
    List.filter (fun j => negb (on_track (default "bus"%string id) j)) (pending st) ++
    [mkJob m (markers st m) (toLat, toLon) start (default 2800 durationMs)
           (default "bus"%string id)] /\
  markers st' = markers st /\
  pending (cancelAnimation (default "bus"%string id) st') =
    List.filter (fun j => negb (on_track (default "bus"%string id) j)) (pending st).
Proof.
  intros st st'. assert (C : consistent st) by apply run_consistent, empty_stage_consistent.
  assert (P : pending st' =
    List.filter (fun j => negb (on_track (default "bus"%string id) j)) (pending st) ++
    [mkJob m (markers st m) (toLat, toLon) start (default 2800 durationMs)
           (default "bus"%string id)]) by apply animate_pending, C.
  split; [exact P|]. split; [apply animate_markers|].
  rewrite cancelAnimation_pending by apply animate_consistent, C.
    rewrite P, List.filter_app. cbn [List.filter].
    replace (on_track (default "bus"%string id) _) with true
      by (symmetry; apply on_track_true; reflexivity).
    cbn [negb]. rewrite app_nil_r.
    clear. induction (pending st) as [|j l IH]; cbn [List.filter]; [reflexivity|].
    destruct (negb (on_track (default "bus"%string id) j)) eqn:E; cbn [List.filter];
      rewrite ?E, IH; reflexivity.
Qed.






End AnimationFacts.

(** ** The client geocoder *)

Section HaversineMore.
Import Nominatim.
Local Open Scope R_scope.

Lemma haversine_sym (lat1 lon1 lat2 lon2 : R) :
  haversine lat1 lon1 lat2 lon2 = haversine lat2 lon2 lat1 lon1.
Proof.
  unfold haversine. cbv zeta.
  replace ((lat1 - lat2) * PI / 180 / 2) with (- ((lat2 - lat1) * PI / 180 / 2)) by field.
  replace ((lon1 - lon2) * PI / 180 / 2) with (- ((lon2 - lon1) * PI / 180 / 2)) by field.
  rewrite !sin_neg.
  set (u := sin ((lat2 - lat1) * PI / 180 / 2)).
  set (v := sin ((lon2 - lon1) * PI / 180 / 2)).
  set (a := cos (lat1 * PI / 180)). set (b := cos (lat2 * PI / 180)).
  replace ((- u) ^ 2 + b * a * (- v) ^ 2) with (u ^ 2 + a * b * v ^ 2) by ring.
  reflexivity.
Qed.

Lemma haversine_meridian (lat1 lat2 lon0 : R) :
  0 <= lat2 - lat1 < 180 ->
  haversine lat1 lon0 lat2 lon0 = 6371 * ((lat2 - lat1) * PI / 180).
Proof.
  intros [Hlo Hhi]. unfold haversine. cbv zeta.
  pose proof PI_RGT_0 as Hpi.
  set (h := (lat2 - lat1) * PI / 180 / 2).
  assert (Hh : 0 <= h < PI / 2) by (unfold h; split; nra).
  replace ((lon0 - lon0) * PI / 180 / 2) with 0 by field.
  rewrite sin_0.
  replace (sin h ^ 2 + cos (lat1 * PI / 180) * cos (lat2 * PI / 180) * 0 ^ 2)
    with ((sin h)²) by (unfold Rsqr; ring).
  assert (Hs : 0 <= sin h) by (apply sin_ge_0; lra).
  assert (Hc : 0 < cos h) by (apply cos_gt_0; lra).
  rewrite sqrt_Rsqr by exact Hs.
  replace (1 - (sin h)²) with ((cos h)²) by (pose proof (sin2_cos2 h); lra).
  rewrite sqrt_Rsqr by lra.
  rewrite atan2_pos_x by exact Hc.
  fold (tan h). rewrite atan_tan by lra.
  unfold h. field.
Qed.

(** X28.  The distance both resolvers use to compare candidates is never
    negative, 0 from a point to itself and the same in both directions; along
    a meridian it is 6371 km times the difference of latitude in radians. *)
Theorem haversine_distance (lat1 lon1 lat2 lon2 : R) :
  0 <= haversine lat1 lon1 lat2 lon2 /\
  haversine lat1 lon1 lat1 lon1 = 0 /\
  haversine lat1 lon1 lat2 lon2 = haversine lat2 lon2 lat1 lon1 /\
  (0 <= lat2 - lat1 < 180 ->
   haversine lat1 lon1 lat2 lon1 = 6371 * ((lat2 - lat1) * PI / 180)).
Proof.
  split; [apply haversine_nonneg|]. split; [apply haversine_self|].
  split; [apply haversine_sym | apply haversine_meridian].
Qed.

End HaversineMore.

Section GeoMore.
Import Nominatim GeoValidator.
Local Open Scope R_scope.

Variable nominatim : list Event -> string -> Reply.

Lemma nearer_fold_member (alat alon : R) (others : list Candidate) (first : Candidate) :
  In (fold_left (nearer alat alon) others first) (first :: others).
Proof.
  revert first. induction others as [| b others IH]; intros first; cbn [fold_left].
  - left. reflexivity.
  - assert (N : nearer alat alon first b = first \/ nearer alat alon first b = b)
      by (unfold nearer; destruct (Rle_dec _ _); auto).
    destruct (IH (nearer alat alon first b)) as [E | Hin].
    + destruct N as [N | N]; [left | right; left];
        (transitivity (nearer alat alon first b); [symmetry; exact N | exact E]).
    + right. right. exact Hin.
Qed.

(** X14.  The candidate chosen from a non-empty reply is always one of the
    candidates of that reply, whichever the anchor; without an anchor, and
    when the reply has a single candidate, it is the first one. *)
Theorem pick_best_member (anchor : option (R * R)) (first : Candidate)
    (others : list Candidate) :
  In (pick_best anchor first others) (first :: others) /\
  pick_best None first others = first /\
  pick_best anchor first [] = first.
Proof.
  split; [| split; [reflexivity | destruct anchor as [[alat alon] |]; reflexivity]].
  destruct anchor as [[alat alon] |]; [| left; reflexivity].
  destruct others as [| b others]; [left; reflexivity |].
  cbn [pick_best]. apply nearer_fold_member.
Qed.

(** X15.  A [geocodeStop] whose key is in the cache returns the entry and does
    nothing else.  Otherwise it asks its three queries in order, each after
    a pause of 250 ms and nothing else, up to and including the first that
    does not come back empty, at least one and at most three: every query
    before the last one asked came back empty.  It returns nothing exactly
    when all three were asked and came back empty, and then caches that; it
    returns the candidate chosen from the first reply that has one, and
    caches it; and it raises, caching nothing, when the last reply was
    [null] or its chosen candidate has neither a name nor a
    [display_name]. *)
Theorem geocodeStop_requests (name : string) (anchor : option (R * R)) (st : Session) :
  let out := geocodeStop nominatim name anchor st in
  match cache st !! cache_key name with
  | Some v => out = (Returns v, st)
  | None =>
      exists asked,
        asked `prefix_of` queries_for name /\ asked <> [] /\
        trace (snd out) = trace st ++ paced asked /\
        match fst out with
        | Returns None =>
            asked = queries_for name /\
            all_empty nominatim (trace st) (queries_for name) /\
            cache (snd out) = <[cache_key name := None]> (cache st)
        | Returns (Some g) =>
            (exists before q first others,
               asked = before ++ [q] /\ all_empty nominatim (trace st) before /\
               fetch_results nominatim (trace st ++ paced before ++ [Sleep 250]) q
                 = Some (first :: others) /\
               let best := pick_best anchor first others in
               (fun corrected => mkResult (cand_lat best) (cand_lon best) corrected)
                 <$> corrected_name best = Some g) /\
            cache (snd out) = <[cache_key name := Some g]> (cache st)
        | Raises =>
            (exists before q,
               asked = before ++ [q] /\ all_empty nominatim (trace st) before /\
               match fetch_results nominatim (trace st ++ paced before ++ [Sleep 250]) q with
               | None => True
               | Some [] => False
               | Some (first :: others) =>
                   corrected_name (pick_best anchor first others) = None
               end) /\
            cache (snd out) = cache st
        end
  end.
Proof.
  intros out. subst out. unfold geocodeStop.
  destruct (cache st !! cache_key name) as [v |] eqn:E; [reflexivity |].
  destruct (query_loop_paced nominatim (queries_for name) anchor (trace st))
    as (asked & Hp & Ht & Hr).
  exists asked. split; [exact Hp |].
  destruct (query_loop nominatim (queries_for name) anchor (trace st)) as [[[g |] |] t];
    cbn [fst snd trace cache] in *.
  - split; [| split; [exact Ht | split; [exact Hr | reflexivity]]].
    destruct Hr as (before & q & _ & _ & -> & _). intros H.
    apply app_eq_nil in H. destruct H as [_ H]. discriminate H.
  - split; [| split; [exact Ht | split; [apply Hr | split; [apply Hr | reflexivity]]]].
    destruct Hr as [-> _]. discriminate.
  - split; [| split; [exact Ht | split; [exact Hr | reflexivity]]].
    destruct Hr as (before & q & -> & _). intros H.
    apply app_eq_nil in H. destruct H as [_ H]. discriminate H.
Qed.

(** *** A sequence of names *)

Lemma geocodeStop_trace (name : string) (anchor : option (R * R)) (st : Session) :
  exists asked,
    asked `prefix_of` queries_for name /\
    trace (snd (geocodeStop nominatim name anchor st)) = trace st ++ paced asked.
Proof.
  destruct (geocodeStop_asks nominatim name anchor st) as (asked & Hp & Ht & _).
  exists asked. split; [exact Hp | exact Ht].
Qed.

Lemma sequence_loop_aligned (names : list string) (results : list (option GeocodeResult))
    (anchor : option (R * R)) (st : Session) :
  let out := sequence_loop nominatim names results anchor st in
  match fst out with
  | Returns all =>
      exists rs, all = results ++ rs /\
        Forall2 (fun name r => cache (snd out) !! cache_key name = Some r) names rs
  | Raises => True
  end /\
  trace st `prefix_of` trace (snd out) /\
  (length (fetches (trace (snd out)))
   <= length (fetches (trace st)) + 3 * length names)%nat /\
  (forall k v, cache st !! k = Some v -> cache (snd out) !! k = Some v).
Proof.
  revert results anchor st. induction names as [| name rest IH]; intros results anchor st.
  - cbn. split; [exists []; rewrite app_nil_r; split; [reflexivity | constructor] |].
    split; [reflexivity |]. split; [lia | auto].
  - cbn [sequence_loop].
    pose proof (geocodeStop_records nominatim name anchor st) as Hrec.
    pose proof (geocodeStop_keeps nominatim name anchor st) as Hkeep.
    destruct (geocodeStop_trace name anchor st) as (asked & Hp & Ht).
    apply prefix_length in Hp. rewrite queries_for_length in Hp.
    destruct (geocodeStop nominatim name anchor st) as [[r |] st1]; cbn [fst snd] in *.
    + match goal with
      | |- context [sequence_loop nominatim rest (results ++ [r]) ?a st1] =>
          specialize (IH (results ++ [r]) a st1);
          set (o := sequence_loop nominatim rest (results ++ [r]) a st1) in *
      end.
      cbv zeta in IH. destruct IH as (Hres & Hpre & Hlen & Hk). cbv zeta.
      split; [| split; [| split]].
      * destruct (fst o) as [all |]; [| exact I]. destruct Hres as (rs & Hf & Hall).
        exists (r :: rs). split; [rewrite Hf, <- app_assoc; reflexivity |].
        constructor; [apply Hk, Hrec; reflexivity | exact Hall].
      * etransitivity; [| exact Hpre]. rewrite Ht. apply prefix_app_r. reflexivity.
      * rewrite Ht, fetches_paced, length_app, length_fmap in Hlen. cbn [length]. lia.
      * intros k v H. apply Hk, Hkeep, H.
    + cbv zeta. split; [exact I |]. split; [rewrite Ht; apply prefix_app_r; reflexivity |].
      split; [rewrite Ht, fetches_paced, length_app, length_fmap; cbn [length]; lia |].
      exact Hkeep.
Qed.

(** X16.  When [geocodeStopSequence] returns, it returns one result per name,
    in order, and the i-th result is what the cache then holds under the key
    of the i-th name.  Whether it returns or raises, the trace only grows,
    by at most three requests per name, and no entry the cache held before
    is lost or changed. *)
Theorem geocodeStopSequence_aligned (names : list string) (st : Session) :
  let out := geocodeStopSequence nominatim names st in
  match fst out with
  | Returns results =>
      Forall2 (fun name r => cache (snd out) !! cache_key name = Some r) names results
  | Raises => True
  end /\
  trace st `prefix_of` trace (snd out) /\
  (length (fetches (trace (snd out)))
   <= length (fetches (trace st)) + 3 * length names)%nat /\
  cache st ⊆ cache (snd out).
Proof.
  intros out. subst out. unfold geocodeStopSequence.
  destruct (sequence_loop_aligned names [] None st) as (Hres & Hpre & Hlen & Hk).
  split; [| split; [exact Hpre | split; [exact Hlen | apply map_subseteq_spec; exact Hk]]].
  destruct (fst (sequence_loop nominatim names [] None st)) as [all |]; [| exact I].
  destruct Hres as (rs & Hf & Hall). cbn [app] in Hf. rewrite Hf. exact Hall.
Qed.

Lemma sequence_loop_cached (names : list string) (results : list (option GeocodeResult))
    (anchor : option (R * R)) (st : Session) :
  Forall (fun name => is_Some (cache st !! cache_key name)) names ->
  sequence_loop nominatim names results anchor st
  = (Returns (results ++ map (fun name => default None (cache st !! cache_key name)) names),
     st).
Proof.
  revert results anchor. induction names as [| name rest IH]; intros results anchor H.
  - cbn. rewrite app_nil_r. reflexivity.
  - apply Forall_cons in H. destruct H as [[v Hv] H]. cbn [sequence_loop map].
    unfold geocodeStop. rewrite Hv. rewrite IH by exact H. cbn [default].
    rewrite <- app_assoc. reflexivity.
Qed.

(** X17.  After a [prewarmCache] that returned, a [geocodeStopSequence] over
    names whose keys were among the warmed ones is answered from the cache:
    the session is unchanged (no request, no pause) and each result is the
    cached entry of its name. *)
Theorem prewarmCache_answers (names names' : list string) (st : Session) :
  fst (prewarmCache nominatim names st) = Returns tt ->
  (cache_key <$> names') ⊆ (cache_key <$> names) ->
  let warm := snd (prewarmCache nominatim names st) in
  geocodeStopSequence nominatim names' warm
  = (Returns (map (fun name => default None (cache warm !! cache_key name)) names'), warm).
Proof.
  intros Hret Hsub warm. unfold geocodeStopSequence.
  rewrite sequence_loop_cached; [reflexivity |].
  apply Forall_forall. intros n' Hin.
  assert (Hk : cache_key n' ∈ cache_key <$> names).
  { apply Hsub. apply list_elem_of_fmap. exists n'. tauto. }
  apply list_elem_of_fmap in Hk. destruct Hk as (n & E & Hn). rewrite E.
  pose proof (sequence_loop_aligned names [] None st) as (Hres & _).
  cbv zeta in Hres. fold (geocodeStopSequence nominatim names st) in Hres.
  subst warm. unfold prewarmCache in *.
  destruct (geocodeStopSequence nominatim names st) as [[all |] st']; cbn [fst snd] in *;
    [| discriminate Hret].
  destruct Hres as (rs & _ & Hall).
  apply list_elem_of_lookup in Hn. destruct Hn as [i Hi].
  destruct (Forall2_lookup_l _ _ _ _ _ Hall Hi) as (r & _ & Hr). rewrite Hr. eauto.
Qed.

End GeoMore.

Section GeoMoreExamples.
Import Nominatim GeoValidator.

Lemma prewarmCache_answers_witness :
  let warm := snd (prewarmCache demo_provider ["Salem"; "Erode"]%string empty_session) in
  geocodeStopSequence demo_provider ["  SALEM "]%string warm
  = (Returns (map (fun name => default None (cache warm !! cache_key name))
                  ["  SALEM "]%string), warm).
Proof.
  apply (prewarmCache_answers demo_provider ["Salem"; "Erode"]%string ["  SALEM "]%string).
  - reflexivity.
  - intros k Hk. apply list_elem_of_singleton in Hk. subst k. left.
Defined.

End GeoMoreExamples.

Section StringFacts.
Import JsString.

Lemma lower_char_idem (c : ascii) : lower_char (lower_char c) = lower_char c.
Proof. destruct c as [[] [] [] [] [] [] [] []]; reflexivity. Qed.

Lemma lower_char_space (c : ascii) : is_space (lower_char c) = is_space c.
Proof. destruct c as [[] [] [] [] [] [] [] []]; reflexivity. Qed.

Lemma drop_while_idem (f : ascii -> bool) (s : list ascii) :
  drop_while f (drop_while f s) = drop_while f s.
Proof.
  induction s as [|c s IH]; [reflexivity|]. cbn [drop_while].
  destruct (f c) eqn:E; [exact IH|]. cbn [drop_while]. rewrite E. reflexivity.
Qed.

Lemma drop_while_snoc (f : ascii -> bool) (u : list ascii) (c : ascii) :
  f c = false -> drop_while f (u ++ [c]) = drop_while f u ++ [c].
Proof.
  intros Hc. induction u as [|x u IH]; cbn [drop_while app]; [rewrite Hc; reflexivity|].
  destruct (f x); [exact IH|reflexivity].
Qed.

Lemma drop_while_map (f : ascii -> bool) (g : ascii -> ascii) (s : list ascii) :
  (forall c, f (g c) = f c) ->
  drop_while f (map g s) = map g (drop_while f s).
Proof.
  intros H. induction s as [|c s IH]; [reflexivity|]. cbn [drop_while map].
  rewrite H. destruct (f c); [exact IH|reflexivity].
Qed.

Lemma reverse_map (g : ascii -> ascii) (s : list ascii) :
  reverse (map g s) = map g (reverse s).
Proof.
  induction s as [|c s IH]; [reflexivity|]. cbn [map].
  rewrite !reverse_cons, IH, map_app. reflexivity.
Qed.

Lemma trim_chars_map (g : ascii -> ascii) (s : list ascii) :
  (forall c, is_space (g c) = is_space c) ->
  trim_chars (map g s) = map g (trim_chars s).
Proof.
  intros H. unfold trim_chars, trim_start.
  rewrite (drop_while_map _ g s H), reverse_map, (drop_while_map _ g _ H), reverse_map.
  reflexivity.
Qed.

Lemma trim_start_clean (s : list ascii) :
  match trim_start s with [] => True | c :: _ => is_space c = false end.
Proof.
  unfold trim_start. induction s as [|c s IH]; [exact I|]. cbn [drop_while].
  destruct (is_space c) eqn:E; [exact IH|exact E].
Qed.

Lemma trim_start_id (l : list ascii) :
  match l with [] => True | c :: _ => is_space c = false end -> trim_start l = l.
Proof. destruct l as [|c l]; [reflexivity|]. intros H. unfold trim_start. cbn. rewrite H. reflexivity. Qed.

Lemma trim_chars_idem (s : list ascii) : trim_chars (trim_chars s) = trim_chars s.
Proof.
  unfold trim_chars.
  assert (C : match reverse (trim_start (reverse (trim_start s))) with
              | [] => True | c :: _ => is_space c = false end).
  { pose proof (trim_start_clean s) as H. destruct (trim_start s) as [|c l]; [exact I|].
    rewrite reverse_cons. unfold trim_start at 1. rewrite drop_while_snoc by exact H.
    rewrite reverse_app. cbn. exact H. }
  rewrite (trim_start_id _ C), reverse_involutive.
  unfold trim_start at 1 2. rewrite drop_while_idem. reflexivity.
Qed.

Lemma trim_idem (s : string) : trim (trim s) = trim s.
Proof.
  unfold trim. rewrite list_ascii_of_string_of_list_ascii, trim_chars_idem. reflexivity.
Qed.

Lemma toLowerCase_idem (s : string) : toLowerCase (toLowerCase s) = toLowerCase s.
Proof.
  unfold toLowerCase. rewrite list_ascii_of_string_of_list_ascii, map_map. f_equal.
  apply map_ext. intros c. apply lower_char_idem.
Qed.

Lemma trim_toLowerCase (s : string) : trim (toLowerCase s) = toLowerCase (trim s).
Proof.
  unfold trim, toLowerCase. rewrite !list_ascii_of_string_of_list_ascii. f_equal.
  apply trim_chars_map. exact lower_char_space.
Qed.

End StringFacts.

Section GeoKey.
Import Nominatim GeoValidator.

Lemma cache_key_trim (name : string) : cache_key (JsString.trim name) = cache_key name.
Proof. unfold cache_key. rewrite trim_idem. reflexivity. Qed.

Lemma cache_key_lower (name : string) :
  cache_key (JsString.toLowerCase name) = cache_key name.
Proof. unfold cache_key. rewrite trim_toLowerCase, toLowerCase_idem. reflexivity. Qed.

(** X18.  The key of the geocoding cache ignores outer white space and case:
    trimming or lower-casing a name does not change its key, a key is its
    own key, and a key is already trimmed and in lower case. *)
Theorem cache_key_normal_form (name : string) :
  cache_key (JsString.trim name) = cache_key name /\
  cache_key (JsString.toLowerCase name) = cache_key name /\
  cache_key (cache_key name) = cache_key name /\
  JsString.trim (cache_key name) = cache_key name /\
  JsString.toLowerCase (cache_key name) = cache_key name.
Proof.
  split; [apply cache_key_trim|]. split; [apply cache_key_lower|]. split; [|split].
  - unfold cache_key at 2. rewrite cache_key_lower, cache_key_trim. reflexivity.
  - unfold cache_key. rewrite trim_toLowerCase, trim_idem. reflexivity.
  - unfold cache_key. apply toLowerCase_idem.
Qed.

End GeoKey.

(** ** The route cache *)

Section KeyMore.
Import RouteCache.
Local Open Scope Q_scope.

Variable nts : Q -> string.

Lemma magnitude_nonneg (x : Q) : 0 <= magnitude x.
Proof.
  unfold magnitude, is_negative. destruct (Qlt_le_dec x 0) as [H|H]; [|exact H].
  Lqa.lra.
Qed.

Lemma cell_index_bounds (m : Q) :
  0 <= m ->
  inject_Z (Z.of_N (cell_index m)) <= m * 100000 + (1 # 2) /\
  m * 100000 + (1 # 2) < inject_Z (Z.of_N (cell_index m)) + 1.
Proof.
  intros Hm. unfold cell_index.
  assert (H0 : (0 <= Qfloor (m * 100000 + (1 # 2)))%Z).
  { change 0%Z with (Qfloor 0). apply Qfloor_resp_le. Lqa.lra. }
  rewrite Z2N.id by exact H0. split; [apply Qfloor_le|].
  pose proof (Qlt_floor (m * 100000 + (1 # 2))) as H.
  rewrite inject_Z_plus in H. exact H.
Qed.

Lemma same_cell_close (x y : Q) : cell x = cell y -> Qabs (x - y) < 1 # 100000.
Proof.
  unfold cell. intros E. injection E as Hs Hc.
  pose proof (cell_index_bounds (magnitude x) (magnitude_nonneg x)) as [A1 A2].
  pose proof (cell_index_bounds (magnitude y) (magnitude_nonneg y)) as [B1 B2].
  rewrite Hc in A1, A2. apply Qabs_Qlt_condition.
  unfold magnitude in *. rewrite <- Hs in *. destruct (is_negative x); split; Lqa.lra.
Qed.

(** X19.  For profiles without a colon and coordinates below 10^21, two calls of
    [makeKey] give the same key only for the same profile and for stop lists
    of the same length whose coordinates differ by less than 10^-5 degrees,
    position by position. *)
Theorem makeKey_separates (p q : string) (s t : list Stop) :
  ":"%char ∉ list_ascii_of_string p -> ":"%char ∉ list_ascii_of_string q ->
  Forall in_range s -> Forall in_range t ->
  makeKey nts s p = makeKey nts t q ->
  p = q /\ jitter_close s t.
Proof.
  intros Hp Hq Hs Ht E.
  assert (Epq : p = q).
  { unfold makeKey in E. apply string_of_list_ascii_inj in E.
    apply split_at_sep in E; [|assumption|assumption]. destruct E as [E _].
    rewrite <- (string_of_list_ascii_of_string p), <- (string_of_list_ascii_of_string q), E.
    reflexivity. }
  split; [exact Epq|]. subst q.
  apply (makeKey_same_iff nts p s t Hs Ht) in E.
  unfold jitter_close. eapply Forall2_impl; [exact E|].
  intros a b [H1 H2]. split; apply same_cell_close; assumption.
Qed.

Variable osrm : list (string * list (Q * Q)) -> string * list (Q * Q) -> OsrmReply.

Lemma get_miss (stops : list Stop) (profile : string) (st : Store) :
  fst (get nts stops profile st) = None -> get nts stops profile st = (None, st).
Proof.
  unfold get. destruct (mem st !! makeKey nts stops profile); [discriminate|].
  destruct (session st !! (PREFIX +:+ makeKey nts stops profile)) as [[|v]|];
    [reflexivity|discriminate|reflexivity].
Qed.

Lemma get_requests (stops : list Stop) (profile : string) (st : Store) :
  requests (snd (get nts stops profile st)) = requests st.
Proof.
  unfold get. destruct (mem st !! _); [reflexivity |].
  destruct (session st !! _) as [[| v] |]; reflexivity.
Qed.

Lemma set_requests (stops : list Stop) (data : RouteData) (profile : string) (now : Z)
    (st : Store) :
  requests (set nts stops data profile now st) = requests st.
Proof. unfold set. destruct (session_full st); reflexivity. Qed.


(** X21.  When the provider answers with no route, [prewarm] records nothing:
    the store is as before except for the request made, and the next
    [prewarm] for the same stops sends the same request again. *)
Theorem prewarm_nothing_kept (stops : list Stop) (profile : string) (now later : Z)
    (st : Store) :
  let req := (profile, map (fun s => (lon s, lat s)) stops) in
  let st1 := snd (prewarm nts osrm stops profile now st) in
  fst (get nts stops profile st) = None ->
  osrm (requests st) req = Routes [] ->
  st1 = mkStore (mem st) (session st) (session_full st) (requests st ++ [req]) /\
  requests (snd (prewarm nts osrm stops profile later st1)) = requests st ++ [req; req].
Proof.
  intros req st1 Hmiss Hreply.
  assert (E1 : st1 = mkStore (mem st) (session st) (session_full st) (requests st ++ [req])).
  { subst st1. unfold prewarm. rewrite (get_miss _ _ _ Hmiss). fold req.
    rewrite Hreply. reflexivity. }
  split; [exact E1|].
  assert (Hmiss1 : fst (get nts stops profile st1) = None).
  { rewrite E1. unfold get in *. cbn [mem session].
    destruct (mem st !! makeKey nts stops profile); [discriminate|].
    destruct (session st !! (PREFIX +:+ makeKey nts stops profile)) as [[|v]|];
      [reflexivity|discriminate|reflexivity]. }
  unfold prewarm. rewrite (get_miss _ _ _ Hmiss1). fold req.
  rewrite E1. cbn [requests mem session session_full].
  destruct (osrm (requests st ++ [req]) req) as [| |[|r' rs']]; cbn [snd requests];
    rewrite <- ?app_assoc; try reflexivity.
  destruct (coordinates r'); cbn [snd requests]; rewrite ?set_requests; cbn [requests];
    rewrite <- ?app_assoc; reflexivity.
Qed.

(** X22.  After a page reload (tier 1 empty, tier 2 kept) a [get] returns what
    tier 2 holds under the key and copies it into tier 1: the entry just
    [set] when the write to [sessionStorage] went through, and whatever older
    entry tier 2 still held, or nothing, when the write failed (quota); an
    entry of tier 2 that does not parse counts as absent. *)
Theorem set_survives_reload (stops : list Stop) (data : RouteData) (profile : string)
    (now : Z) (st : Store) :
  let key := makeKey nts stops profile in
  let entry := mkCachedRoute (data_points data) (data_distanceKm data) now in
  let st1 := reload (set nts stops data profile now st) in
  fst (get nts stops profile st1)
    = (if session_full st then session_route st key else Some entry) /\
  mem (snd (get nts stops profile st1)) !! key = fst (get nts stops profile st1) /\
  (forall stops' profile',
     fst (get nts stops' profile' (reload st))
     = session_route st (makeKey nts stops' profile')).
Proof.
  intros key entry st1. subst st1. unfold reload, get, set, session_route. fold key.
  split; [|split].
  - destruct (session_full st); cbn [mem session]; rewrite lookup_empty.
    + destruct (session st !! (PREFIX +:+ key)) as [[|v]|]; reflexivity.
    + rewrite lookup_insert_eq. reflexivity.
  - destruct (session_full st); cbn [mem session]; rewrite lookup_empty.
    + destruct (session st !! (PREFIX +:+ key)) as [[|v]|]; cbn [fst snd mem];
        rewrite ?lookup_empty, ?lookup_insert_eq; reflexivity.
    + rewrite lookup_insert_eq. cbn [fst snd mem]. rewrite lookup_insert_eq. reflexivity.
  - intros stops' profile'. cbn [mem session]. rewrite lookup_empty.
    destruct (session st !! (PREFIX +:+ makeKey nts stops' profile')) as [[|v]|]; reflexivity.
Qed.

Lemma truthy_nonzero (x : option Q) (v : Q) : truthy x = Some v -> ~ v == 0.
Proof.
  unfold truthy. destruct x as [w|]; [|discriminate].
  destruct (Qeq_bool w 0) eqn:E; [discriminate|]. intros [= <-].
  apply Qeq_bool_neq. exact E.
Qed.

Lemma resolved_stops_nonzero (stops : list RouteStop) :
  Forall (fun s => ~ lat s == 0 /\ ~ lon s == 0) (resolved_stops stops).
Proof.
  unfold resolved_stops. induction stops as [|s stops IH]; [constructor|].
  cbn [omap list_omap].
  destruct (truthy (rs_lat s)) as [la|] eqn:Ela; [|exact IH].
  destruct (truthy (rs_lon s)) as [lo|] eqn:Elo; [|exact IH].
  constructor; [|exact IH]. cbn [lat lon].
  split; eapply truthy_nonzero; eassumption.
Qed.

Lemma prewarm_requests (stops : list Stop) (profile : string) (now : Z) (st : Store) :
  requests (snd (prewarm nts osrm stops profile now st)) = requests st \/
  requests (snd (prewarm nts osrm stops profile now st))
    = requests st ++ [(profile, map (fun s => (lon s, lat s)) stops)].
Proof.
  unfold prewarm. pose proof (get_requests stops profile st) as R.
  destruct (get nts stops profile st) as [[v|] st1]; cbn [snd] in *; [left; exact R|].
  right. rewrite R.
  destruct (osrm (requests st) _) as [| |[|r rs]]; cbn [snd requests]; try reflexivity.
  destruct (coordinates r); cbn [snd requests]; rewrite ?set_requests; reflexivity.
Qed.

(** X23.  [warmRouteCache] does nothing when fewer than two stops have both
    coordinates present and different from 0; otherwise it makes at most one
    request, for the profile 'driving', with at least two waypoints, none of
    which has a coordinate equal to 0. *)
Theorem warmRouteCache_requests (stops : list RouteStop) (now : Z) (st : Store) :
  let out := warmRouteCache nts osrm stops now st in
  ((length (resolved_stops stops) < 2)%nat -> out = (Fulfilled, st)) /\
  (requests (snd out) = requests st \/
   exists coords,
     requests (snd out) = requests st ++ [("driving"%string, coords)] /\
     (2 <= length coords)%nat /\
     Forall (fun c => ~ fst c == 0 /\ ~ snd c == 0) coords).
Proof.
  intros out. subst out. unfold warmRouteCache.
  destruct (2 <=? length (resolved_stops stops))%nat eqn:E.
  - apply Nat.leb_le in E. split; [lia|].
    pose proof (prewarm_requests (resolved_stops stops) "driving" now st) as [R|R].
    + left. destruct (prewarm nts osrm (resolved_stops stops) "driving" now st). exact R.
    + right. exists (map (fun s => (lon s, lat s)) (resolved_stops stops)).
      split; [destruct (prewarm nts osrm (resolved_stops stops) "driving" now st); exact R|].
      split; [rewrite length_map; exact E|].
      apply Forall_map. eapply Forall_impl; [apply resolved_stops_nonzero|].
      cbn. tauto.
  - split; [reflexivity|left; reflexivity].
Qed.

End KeyMore.

Section CacheMoreExamples.
Import RouteCache.

(** A fix that moved by a millionth of a degree has the key of [stopA]. *)
Lemma makeKey_separates_witness :
  makeKey sample_number_to_string [stopA] "driving"
  = makeKey sample_number_to_string
      [mkStop (13082701 # 1000000) (80270701 # 1000000)] "driving" /\
  jitter_close [stopA] [mkStop (13082701 # 1000000) (80270701 # 1000000)].
Proof.
  assert (K : makeKey sample_number_to_string [stopA] "driving"
              = makeKey sample_number_to_string
                  [mkStop (13082701 # 1000000) (80270701 # 1000000)] "driving")
    by reflexivity.
  assert (N : ":"%char ∉ list_ascii_of_string "driving").
  { intros H. apply list_elem_of_In in H. simpl in H.
    repeat (destruct H as [H | H]; [discriminate H |]). exact H. }
  split; [exact K |].
  apply (makeKey_separates sample_number_to_string "driving" "driving" [stopA]
           [mkStop (13082701 # 1000000) (80270701 # 1000000)] N N).
  - repeat constructor.
  - repeat constructor.
  - exact K.
Defined.


(** A provider without routes is asked again by the next warm-up. *)
Lemma prewarm_nothing_kept_witness :
  requests
    (snd (prewarm sample_number_to_string (fun _ _ => Routes []) [stopA; stopB] "driving" 9
            (snd (prewarm sample_number_to_string (fun _ _ => Routes []) [stopA; stopB]
                    "driving" 5 empty_store))))
  = [] ++ [("driving"%string, map (fun s => (lon s, lat s)) [stopA; stopB]);
           ("driving"%string, map (fun s => (lon s, lat s)) [stopA; stopB])].
Proof.
  exact (proj2 (prewarm_nothing_kept sample_number_to_string (fun _ _ => Routes [])
                  [stopA; stopB] "driving" 5 9 empty_store eq_refl eq_refl)).
Defined.

End CacheMoreExamples.

(** ** The edge resolver *)

Section EdgeMore.
Import Nominatim EdgeResolver.
Local Open Scope R_scope.

Variable env : Env.

Lemma geocodes_app (a b : list Event) : geocodes (a ++ b) = (geocodes a + geocodes b)%nat.
Proof. unfold geocodes. rewrite List.filter_app, length_app. reflexivity. Qed.

Lemma sleeps_app (a b : list Event) : sleeps (a ++ b) = (sleeps a + sleeps b)%nat.
Proof. unfold sleeps. rewrite List.filter_app, length_app. reflexivity. Qed.

Lemma query_loop_requests (queries : list string) (anchor : option (R * R))
    (raw : string) (w : World) :
  exists t,
    snd (query_loop env queries anchor raw w) = logs w t /\
    geocodes t = length t /\ (length t <= length queries)%nat /\
    match fst (query_loop env queries anchor raw w) with
    | Next (Some r) => name r = raw
    | Next None => True
    | Return _ => False
    | Throw e => e = NetworkError \/ e = TypeError
    end.
Proof.
  revert w. induction queries as [|q rest IH]; intros w.
  - exists []. cbn. unfold logs. rewrite app_nil_r. destruct w; repeat split; reflexivity || lia.
  - cbn [query_loop]. cbv [bind history emit]. cbn [trace kv clock].
    assert (Go : exists t,
              snd (query_loop env rest anchor raw
                     (mkWorld (kv w) (clock w) (trace w ++ [EvGeocode q]))) = logs w t /\
              geocodes t = length t /\ (length t <= length (q :: rest))%nat /\
              match fst (query_loop env rest anchor raw
                           (mkWorld (kv w) (clock w) (trace w ++ [EvGeocode q]))) with
              | Next (Some r) => name r = raw
              | Next None => True
              | Return _ => False
              | Throw e => e = NetworkError \/ e = TypeError
              end).
    { destruct (IH (mkWorld (kv w) (clock w) (trace w ++ [EvGeocode q]))) as [t [E [G [L R0]]]].
      exists (EvGeocode q :: t). rewrite E. unfold logs. cbn [kv clock trace].
      rewrite <- app_assoc. split; [reflexivity|]. split; [|split; [cbn; lia|exact R0]].
      change (EvGeocode q :: t) with ([EvGeocode q] ++ t). rewrite geocodes_app, G. reflexivity. }
    assert (Stop : forall e, e = NetworkError \/ e = TypeError ->
              exists t,
                mkWorld (kv w) (clock w) (trace w ++ [EvGeocode q]) = logs w t /\
                geocodes t = length t /\ (length t <= length (q :: rest))%nat /\
                (e = NetworkError \/ e = TypeError)).
    { intros e He. exists [EvGeocode q]. cbn. repeat split; try lia. exact He. }
    destruct (nominatim env (trace w) q) as [| | |[|first others]].
    + apply (Stop NetworkError). left. reflexivity.
    + exact Go.
    + apply (Stop TypeError). right. reflexivity.
    + exact Go.
    + destruct (corrected_name (pick_best anchor first others)) as [corrected|].
      * exists [EvGeocode q]. cbn. repeat split; lia.
      * apply (Stop TypeError). right. reflexivity.
Qed.

Lemma geocode_one_requests (anchor : option (R * R)) (stop : string) (w : World) :
  exists t,
    snd (geocode_one env anchor stop w) = logs w t /\
    (geocodes t <= 4)%nat /\ sleeps t = 0%nat /\
    match fst (geocode_one env anchor stop w) with
    | Next (Some r) => name r = JsString.trim stop
    | Next None => True
    | Return _ => False
    | Throw _ => True
    end.
Proof.
  unfold geocode_one, bind.
  destruct (query_loop_requests (queries_for (JsString.trim stop)) anchor
              (JsString.trim stop) w) as [t [E [G [L R0]]]].
  assert (S0 : sleeps t = 0%nat).
  { clear - G. unfold geocodes, sleeps in *. induction t as [|e t IH]; [reflexivity|].
    cbn [List.filter] in *. destruct e; cbn [is_geocode is_sleep length] in *;
      pose proof (List.filter_length_le is_geocode t); lia. }
  destruct (query_loop env (queries_for (JsString.trim stop)) anchor (JsString.trim stop) w)
    as [[[r|]|r|e] w1]; cbn [fst snd] in *.
  - exists t. cbn [fst snd]. cbn in L. repeat split; try assumption. lia.
  - exists (t ++ [EvWarn (JsString.trim stop)]). cbv [emit ret]. cbn [fst snd].
    rewrite E. unfold logs. cbn [kv clock trace]. rewrite <- app_assoc.
    split; [reflexivity|]. rewrite geocodes_app, sleeps_app, S0. cbn in L |- *.
    repeat split; lia.
  - contradiction.
  - exists t. cbn in L |- *. repeat split; try assumption. lia.
Qed.

Lemma geocode_loop_shape (stop_names : list string) (i : nat)
    (resolved : list ResolvedStop) (anchor : option (R * R)) (w : World) :
  let out := geocode_loop env i stop_names resolved anchor w in
  exists t,
    kv (snd out) = kv w /\ trace (snd out) = trace w ++ t /\
    (geocodes t <= 4 * length stop_names)%nat /\
    clock (snd out) = (clock w + 250 * Z.of_nat (sleeps t))%Z /\
    match fst out with
    | Next res =>
        (exists new, res = resolved ++ new /\
           sublist (map name new) (map JsString.trim stop_names)) /\
        sleeps t = (length stop_names - (if (0 <? i)%nat then 0 else 1))%nat
    | Return _ => False
    | Throw _ =>
        (sleeps t <= length stop_names - (if (0 <? i)%nat then 0 else 1))%nat
    end.
Proof.
  revert i resolved anchor w.
  induction stop_names as [|stop rest IH]; intros i resolved anchor w out; subst out.
  - exists []. cbn. rewrite app_nil_r.
    split; [reflexivity|]. split; [reflexivity|]. split; [lia|]. split; [lia|]. split.
    + exists []. rewrite app_nil_r. split; [reflexivity|constructor].
    + destruct (0 <? i)%nat; reflexivity.
  - set (w0 := snd ((if (0 <? i)%nat then sleep RATE_LIMIT_MS else ret tt) w)).
    assert (EQ : geocode_loop env i (stop :: rest) resolved anchor w
                 = match geocode_one env anchor stop w0 with
                   | (Next (Some r), w1) =>
                       geocode_loop env (S i) rest (resolved ++ [r]) (Some (coordinate r)) w1
                   | (Next None, w1) => geocode_loop env (S i) rest resolved anchor w1
                   | (Return r, w1) => (Return r, w1)
                   | (Throw e, w1) => (Throw e, w1)
                   end).
    { subst w0. cbn [geocode_loop]. unfold bind.
      destruct (0 <? i)%nat; cbn [sleep ret snd];
        (destruct (geocode_one env anchor stop _) as [[[r|]|r|e] w1]; reflexivity). }
    rewrite EQ. clear EQ.
    assert (H0 : kv w0 = kv w /\
                 exists t0, trace w0 = trace w ++ t0 /\ geocodes t0 = 0%nat /\
                   sleeps t0 = (if (0 <? i)%nat then 1 else 0)%nat /\
                   clock w0 = (clock w + 250 * Z.of_nat (sleeps t0))%Z).
    { subst w0. destruct (0 <? i)%nat; cbn.
      - split; [reflexivity|]. exists [EvSleep 250]. repeat split; reflexivity.
      - split; [reflexivity|]. exists []. rewrite app_nil_r. repeat split. cbn. lia. }
    destruct H0 as [K0 [t0 [T0 [G0 [S0 C0]]]]].
    destruct (geocode_one_requests anchor stop w0) as [t1 [E1 [G1 [S1 R1]]]].
    destruct (geocode_one env anchor stop w0) as [[[r|]|r|e] w1]; cbn [fst snd] in *;
      cbv beta iota; subst w1.
    + specialize (IH (S i) (resolved ++ [r]) (Some (coordinate r)) (logs w0 t1)). cbv zeta in IH.
      destruct IH as [t [K [T [G [C R2]]]]].
      exists (t0 ++ t1 ++ t). rewrite K, T, C. cbn [logs kv trace clock].
      rewrite K0, T0, C0, !geocodes_app, !sleeps_app, G0, S1, <- !app_assoc.
      split; [reflexivity|]. split; [reflexivity|]. split; [cbn [length]; lia|].
      split; [lia|].
      destruct (fst (geocode_loop env (S i) rest (resolved ++ [r]) (Some (coordinate r)) _))
        as [res|r'|e']; [|exact R2|].
      * destruct R2 as [[new [-> Hsub]] Hs]. split.
        -- exists (r :: new). rewrite <- app_assoc. split; [reflexivity|].
           cbn [map]. rewrite R1. apply sublist_skip. exact Hsub.
        -- rewrite S0, Hs. change (0 <? S i)%nat with true. cbn [length]. destruct (0 <? i)%nat; lia.
      * rename R2 into Hs.
        rewrite S0. change (0 <? S i)%nat with true in Hs. cbn [length] in *. destruct (0 <? i)%nat; lia.
    + specialize (IH (S i) resolved anchor (logs w0 t1)). cbv zeta in IH.
      destruct IH as [t [K [T [G [C R2]]]]].
      exists (t0 ++ t1 ++ t). rewrite K, T, C. cbn [logs kv trace clock].
      rewrite K0, T0, C0, !geocodes_app, !sleeps_app, G0, S1, <- !app_assoc.
      split; [reflexivity|]. split; [reflexivity|]. split; [cbn [length]; lia|].
      split; [lia|].
      destruct (fst (geocode_loop env (S i) rest resolved anchor _))
        as [res|r'|e']; [|exact R2|].
      * destruct R2 as [[new [-> Hsub]] Hs]. split.
        -- exists new. split; [reflexivity|]. cbn [map]. apply sublist_cons. exact Hsub.
        -- rewrite S0, Hs. change (0 <? S i)%nat with true. cbn [length]. destruct (0 <? i)%nat; lia.
      * rename R2 into Hs.
        rewrite S0. change (0 <? S i)%nat with true in Hs. cbn [length] in *. destruct (0 <? i)%nat; lia.
    + contradiction.
    + exists (t0 ++ t1). cbn [logs kv trace clock fst snd].
      rewrite K0, T0, C0, !geocodes_app, !sleeps_app, G0, S1, <- !app_assoc.
      split; [reflexivity|]. split; [reflexivity|]. split; [cbn [length]; lia|].
      split; [lia|].
      rewrite S0. cbn [length]. destruct (0 <? i)%nat; lia.
Qed.


Lemma key_char_allowed (c : ascii) : is_key_char (key_char c) = true.
Proof.
  unfold key_char, is_key_char.
  destruct (((97 <=? JsString.code c) && (JsString.code c <=? 122)
             || (65 <=? JsString.code c) && (JsString.code c <=? 90)
             || (48 <=? JsString.code c) && (JsString.code c <=? 57)
             || (JsString.code c =? 124))%nat) eqn:E.
  - rewrite E. reflexivity.
  - reflexivity.
Qed.

(** X25.  The key of the durable store is [route_] followed by at most 200
    characters, each a letter, a digit, [|] or [_]; two stop lists have the
    same key exactly when their names, joined with [|], agree in the first
    200 characters after every other character is replaced by [_]. *)
Theorem cache_key_shape (stop_names stop_names' : list string) :
  cache_key stop_names = ("route_" +:+ string_of_list_ascii (key_body stop_names))%string /\
  (length (key_body stop_names) <= 200)%nat /\
  Forall (fun c => is_key_char c = true) (key_body stop_names) /\
  (cache_key stop_names = cache_key stop_names' <->
   key_body stop_names = key_body stop_names').
Proof.
  split; [reflexivity|]. split; [|split].
  - unfold key_body. rewrite length_take. lia.
  - unfold key_body. apply Forall_take, Forall_map, Forall_forall.
    intros c _. apply key_char_allowed.
  - unfold cache_key. fold (key_body stop_names). fold (key_body stop_names'). split.
    + intros E. injection E as E.
      apply string_of_list_ascii_inj. exact E.
    + intros ->. reflexivity.
Qed.



End EdgeMore.

Section EdgeMoreExamples.
Import Nominatim EdgeResolver.


End EdgeMoreExamples.

Section EdgeEffects.
Import Nominatim EdgeResolver.
Local Open Scope R_scope.

Variable env : Env.

Lemma continues_refl (w : World) : continues w w.
Proof. split; [reflexivity|]. split; [lia|]. exists []. rewrite app_nil_r. reflexivity. Qed.

Lemma continues_trans (w1 w2 w3 : World) :
  continues w1 w2 -> continues w2 w3 -> continues w1 w3.
Proof.
  intros (K1 & C1 & t1 & T1) (K2 & C2 & t2 & T2).
  split; [congruence|]. split; [lia|]. exists (t1 ++ t2). rewrite T2, T1, app_assoc. reflexivity.
Qed.

Lemma continues_logs (w : World) (t : list Event) : continues w (logs w t).
Proof. split; [reflexivity|]. split; [cbn; lia|]. exists t. reflexivity. Qed.

Lemma stage_stops_continues (b : Parsed) (w : World) :
  continues w (snd (stage_stops env b w)).
Proof.
  destruct b as [| bid bn direct]; cbn [stage_stops]; [apply continues_refl|].
  destruct (default [] direct) as [| s l]; [| apply continues_refl].
  destruct (truthy_id bid) as [id |]; [| apply continues_refl].
  unfold lookup_stops, bind, history, emit. cbn.
  destruct (db env (trace w) id) as [| [| [l | [l |]] rows]]; apply (continues_logs w [EvDb id]).
Qed.

Lemma stage_cache_continues (key : string) (w : World) :
  continues w (snd (stage_cache env key w)).
Proof.
  destruct (kv_opens env) eqn:Hk.
  - rewrite (stage_cache_opens env key w Hk).
    destruct (kv_get_rejects env _); [apply continues_logs|].
    destruct (stored_route key w); apply continues_logs.
  - rewrite (stage_cache_closed env key w Hk). apply continues_logs.
Qed.

Lemma geocode_loop_continues (stop_names : list string) (w : World) :
  continues w (snd (geocode_loop env 0 stop_names [] None w)).
Proof.
  destruct (geocode_loop_shape env stop_names 0 [] None w) as [t [K [T [_ [C _]]]]].
  split; [exact K|]. split; [rewrite C; lia|]. exists t. exact T.
Qed.

(** What the fresh path does to the world. *)
Lemma resolve_fresh_effect (b : Parsed) (stop_names : list string) (key : string)
    (hk : bool) (w : World) :
  let out := resolve_fresh env b stop_names key hk w in
  (clock w <= clock (snd out))%Z /\ (exists t, trace (snd out) = trace w ++ t) /\
  (kv (snd out) = kv w \/
   exists resp, fst out = Next (mkHttp 200 (RouteBody resp)) /\ fromCache resp = false /\
     kv (snd out) = <[key := mkEntry resp (cachedAt resp + 86400000)]> (kv w)).
Proof.
  intros out. subst out.
  pose proof (geocode_loop_continues stop_names w) as (K & C & t & T).
  destruct (geocode_loop env 0 stop_names [] None w) as [[resolved | r | e] w3] eqn:G;
    cbn [snd] in *.
  - rewrite (resolve_fresh_from_stops env b stop_names key hk w w3 resolved G).
    destruct (length resolved <? 2)%nat.
    { cbn [fst snd]. split; [exact C|]. split; [exists t; exact T|]. left. exact K. }
    cbv [bind fetch_route history emit now]. cbn [trace kv clock].
    destruct (osrm env (trace w3) (map (fun s => (lon s, lat s)) resolved))
      as [| | [| route rest]]; cbn [fst snd kv clock trace throw respond ret];
      try (split; [exact C|]; split;
           [exists (t ++ [EvRoute (map (fun s => (lon s, lat s)) resolved)]);
            rewrite T, app_assoc; reflexivity | left; exact K]).
    destruct (coordinates route) as [cs |]; cbn [fst snd kv clock trace throw respond ret];
      try (split; [exact C|]; split;
           [exists (t ++ [EvRoute (map (fun s => (lon s, lat s)) resolved)]);
            rewrite T, app_assoc; reflexivity | left; exact K]).
    destruct hk; cbn [fst snd kv clock trace throw respond ret].
    + cbv [store bind history emit]. cbn [trace kv clock].
      destruct (kv_set_rejects env _); cbn [fst snd kv clock trace throw respond ret].
      * split; [exact C|]. split; [|left; exact K].
        exists (t ++ [EvRoute (map (fun s => (lon s, lat s)) resolved); EvKvSet key TTL_MS]).
        rewrite T, <- !app_assoc. reflexivity.
      * split; [exact C|]. split.
        -- exists (t ++ [EvRoute (map (fun s => (lon s, lat s)) resolved);
                          EvKvSet key TTL_MS]).
           rewrite T, <- !app_assoc. reflexivity.
        -- right. eexists. split; [reflexivity|]. split; [reflexivity|].
           rewrite K. reflexivity.
    + split; [exact C|]. split; [|left; exact K].
      exists (t ++ [EvRoute (map (fun s => (lon s, lat s)) resolved)]).
      rewrite T, app_assoc. reflexivity.
  - exfalso. apply (never_returns_geocode_loop env stop_names 0 [] None w r). rewrite G.
    reflexivity.
  - unfold resolve_fresh, bind. rewrite G. cbn [fst snd].
    split; [exact C|]. split; [exists t; exact T|]. left. exact K.
Qed.

Lemma try_body_effect (b : Parsed) (w : World) :
  let out := try_body env b w in
  (clock w <= clock (snd out))%Z /\ (exists t, trace (snd out) = trace w ++ t) /\
  (kv (snd out) = kv w \/
   exists stop_names w0 resp,
     stage_stops env b w = (Next stop_names, w0) /\
     fst out = Next (mkHttp 200 (RouteBody resp)) /\ fromCache resp = false /\
     kv (snd out)
     = <[cache_key stop_names := mkEntry resp (cachedAt resp + 86400000)]> (kv w)).
Proof.
  intros out. subst out.
  pose proof (stage_stops_continues b w) as S0.
  destruct (stage_stops env b w) as [[names | r | e0] w0] eqn:Hs; cbn [snd] in S0.
  - rewrite (try_body_from_stops env b w w0 names Hs).
    destruct (length names <? 2)%nat.
    { destruct S0 as (K & C & T). cbn [fst snd].
    split; [exact C | split; [exact T | left; exact K]]. }
    unfold bind.
    pose proof (stage_cache_continues (cache_key names) w0) as S1.
    destruct (stage_cache env (cache_key names) w0) as [[hk | r | e1] w1]; cbn [snd] in S1.
    + pose proof (continues_trans _ _ _ S0 S1) as (K & C & t & T).
      pose proof (resolve_fresh_effect b names (cache_key names) hk w1) as (C2 & (t2 & T2) & E).
      cbv zeta in *. split; [lia|]. split.
      { exists (t ++ t2). rewrite T2, T, app_assoc. reflexivity. }
      destruct E as [E | (resp & E1 & E2 & E3)].
      * left. congruence.
      * right. exists names, w0, resp. rewrite E3, K.
        split; [reflexivity | split; [exact E1 | split; [exact E2 | reflexivity]]].
    + destruct (continues_trans _ _ _ S0 S1) as (K & C & T). cbn [fst snd].
      split; [exact C | split; [exact T | left; exact K]].
    + destruct (continues_trans _ _ _ S0 S1) as (K & C & T). cbn [fst snd].
      split; [exact C | split; [exact T | left; exact K]].
  - assert (E : try_body env b w = (Return r, w0))
      by (unfold try_body, bind at 1; rewrite Hs; reflexivity).
    rewrite E. destruct S0 as (K & C & T). cbn [fst snd].
    split; [exact C | split; [exact T | left; exact K]].
  - assert (E : try_body env b w = (Throw e0, w0))
      by (unfold try_body, bind at 1; rewrite Hs; reflexivity).
    rewrite E. destruct S0 as (K & C & T). cbn [fst snd].
    split; [exact C | split; [exact T | left; exact K]].
Qed.

(** X27.  Whatever the request, the handler only adds to the trace and never
    sets the clock back, and a response with a status other than 200 leaves
    the durable store as it was.  For a POST whose stop names were found (a
    non-empty direct list, or the list of the record looked up), the store
    is either left as it was or the answer is 200 with a newly computed
    route and the only change is the entry of that route under
    [cache_key] of exactly these stop names, expiring 24 hours after its
    [cachedAt].  A response served from the store writes nothing. *)
Theorem handler_writes_on_success :
  (forall req w,
     let out := handler env req w in
     (clock w <= clock (snd out))%Z /\ (exists t, trace (snd out) = trace w ++ t) /\
     (status (fst out) <> 200%Z -> kv (snd out) = kv w) /\
     (forall resp, fst out = mkHttp 200 (RouteBody resp) -> fromCache resp = true ->
                   kv (snd out) = kv w)) /\
  (forall b w stop_names w0,
     stage_stops env b w = (Next stop_names, w0) ->
     let out := handler env (mkRequest POST (Some b)) w in
     kv (snd out) = kv w \/
     exists resp,
       fst out = mkHttp 200 (RouteBody resp) /\ fromCache resp = false /\
       kv (snd out)
       = <[cache_key stop_names := mkEntry resp (cachedAt resp + 86400000)]> (kv w)).
Proof.
  assert (H : forall req w,
            let out := handler env req w in
            (clock w <= clock (snd out))%Z /\ (exists t, trace (snd out) = trace w ++ t) /\
            (kv (snd out) = kv w \/
             exists b stop_names w0 resp,
               req = mkRequest POST (Some b) /\
               stage_stops env b w = (Next stop_names, w0) /\
               fst out = mkHttp 200 (RouteBody resp) /\ fromCache resp = false /\
               kv (snd out)
               = <[cache_key stop_names := mkEntry resp (cachedAt resp + 86400000)]> (kv w))).
  { intros req w out. subst out.
    destruct req as [[| |] [b|]]; cbn [handler method body fst snd];
      try (split; [lia|]; split; [exists []; rewrite app_nil_r; reflexivity | left; reflexivity]).
    pose proof (try_body_effect b w) as (C & (t & T) & E). cbv zeta in *.
    destruct (try_body env b w) as [[r | r | e] w']; cbn [fst snd] in *.
    - split; [exact C|]. split; [exists t; exact T|].
      destruct E as [E | (names & w0 & resp & E0 & E1 & E2 & E3)]; [left; exact E|].
      right. exists b, names, w0, resp. injection E1 as ->.
      split; [reflexivity | split; [exact E0 | split; [reflexivity | split; [exact E2 | exact E3]]]].
    - split; [exact C|]. split; [exists t; exact T|].
      destruct E as [E | (names & w0 & resp & _ & E1 & _)]; [left; exact E | discriminate E1].
    - split; [exact C|]. split; [exists (t ++ [EvError e]); rewrite T, app_assoc; reflexivity|].
      destruct E as [E | (names & w0 & resp & _ & E1 & _)]; [left; exact E | discriminate E1]. }
  split.
  - intros req w out. destruct (H req w) as (C & T & E). fold out in C, T, E.
    split; [exact C|]. split; [exact T|]. split.
    + intros Hs. destruct E as [E | (b & names & w0 & resp & _ & _ & E1 & _)]; [exact E|].
      rewrite E1 in Hs. contradiction Hs. reflexivity.
    + intros resp Hr Hf.
      destruct E as [E | (b & names & w0 & resp' & _ & _ & E1 & E2 & _)]; [exact E|].
      rewrite Hr in E1. injection E1 as ->. rewrite Hf in E2. discriminate E2.
  - intros b w stop_names w0 Hs out.
    destruct (H (mkRequest POST (Some b)) w) as (_ & _ & E). fold out in E.
    destruct E as [E | (b' & names & w0' & resp & Eb & E0 & E1 & E2 & E3)]; [left; exact E|].
    injection Eb as <-. rewrite Hs in E0. injection E0 as <- _.
    right. exists resp. split; [exact E1 | split; [exact E2 | exact E3]].
Qed.

End EdgeEffects.
